(** * fiff: OME-TIFF / OME-Zarr bridge -- shallow embedding of the core

    Modelled sources (TypeScript):
    - [src/src/ome-xml.ts]     getIfdIndex, filterPixelsForFile, parseOmeXml
    - [src/src/write.ts]       ifdIndexToPlane, slicePlane
    - [src/src/tiff-writer.ts] estimateRawSize, placeIfds, computeTotalSize,
                               buildTiff (format selection), makeImageTags,
                               sliceTiles
    - [src/src/dtypes.ts]      bytesPerElement, buildOmeXml and helpers
    - [src/src/chunk-reader.ts], [src/src/tiff-store.ts]  readChunk, TiffStore.get
    - utils ([src/unnamed/part_005]) parseStoreKey, computePixelWindow,
      encodeChunkBytes, computeChunkShape
    - metadata ([src/unnamed/part_003]) buildAxes

    JavaScript numbers that are integers are modelled as [Z]; where the code
    can meet [NaN] (parseInt of a missing attribute, an index read past the
    end of an array) the value is a [num]. Strings are Stdlib [string]s
    (byte strings), byte buffers ([Uint8Array]) are [list Z]. *)

From Stdlib Require Import Arith ZArith List String Ascii Bool Lia.
From Stdlib Require Import Numbers.DecimalString.
From Stdlib Require Import Sorting.Sorted Sorting.Permutation.
Import ListNotations.
Open Scope string_scope.
Open Scope Z_scope.

(* ------------------------------------------------------------------ *)
(** ** JavaScript numbers *)

(** A JS number that is either a (finite) integer or [NaN]. *)
Inductive num : Type :=
| Fin (z : Z)
| NaN.

Definition num_add (a b : num) : num :=
  match a, b with Fin x, Fin y => Fin (x + y) | _, _ => NaN end.

Definition num_sub (a b : num) : num :=
  match a, b with Fin x, Fin y => Fin (x - y) | _, _ => NaN end.

Definition num_mul (a b : num) : num :=
  match a, b with Fin x, Fin y => Fin (x * y) | _, _ => NaN end.

(** [Math.min]: [NaN] if either argument is [NaN]. *)
Definition num_min (a b : num) : num :=
  match a, b with Fin x, Fin y => Fin (Z.min x y) | _, _ => NaN end.

(** Relational operators: every comparison with [NaN] is [false]. *)
Definition num_le (a b : num) : bool :=
  match a, b with Fin x, Fin y => x <=? y | _, _ => false end.

Definition num_lt (a b : num) : bool :=
  match a, b with Fin x, Fin y => x <? y | _, _ => false end.

(** [SameValueZero], the equality of [Set] and [Map] keys. *)
Definition num_same (a b : num) : bool :=
  match a, b with
  | Fin x, Fin y => x =? y
  | NaN, NaN => true
  | _, _ => false
  end.

(** Decimal rendering of an integer, as template literals do. *)
Definition Z_to_dec (x : Z) : string :=
  NilEmpty.string_of_int (Z.to_int x).

Definition num_to_string (n : num) : string :=
  match n with Fin z => Z_to_dec z | NaN => "NaN" end.

(* ------------------------------------------------------------------ *)
(** ** OME data model ([ome-xml.ts]) *)

Inductive DimensionOrder : Type :=
| XYZCT | XYZTC | XYCTZ | XYCZT | XYTCZ | XYTZC.

Definition dimensionOrderString (d : DimensionOrder) : string :=
  match d with
  | XYZCT => "XYZCT" | XYZTC => "XYZTC" | XYCTZ => "XYCTZ"
  | XYCZT => "XYCZT" | XYTCZ => "XYTCZ" | XYTZC => "XYTZC"
  end.

(** [VALID_DIMENSION_ORDERS.has]: the string, if it is one of the six. *)
Definition dimensionOrderOfString (s : string) : option DimensionOrder :=
  if String.eqb s "XYZCT" then Some XYZCT
  else if String.eqb s "XYZTC" then Some XYZTC
  else if String.eqb s "XYCTZ" then Some XYCTZ
  else if String.eqb s "XYCZT" then Some XYCZT
  else if String.eqb s "XYTCZ" then Some XYTCZ
  else if String.eqb s "XYTZC" then Some XYTZC
  else None.

Record TiffDataEntry : Type := mkTiffDataEntry {
  firstC : num;
  firstZ : num;
  firstT : num;
  ifd : num;
  planeCount : num;
  uuid : option string;
  fileName : option string;
}.

Record OmeChannel : Type := mkOmeChannel {
  ch_id : string;
  ch_name : option string;
  samplesPerPixel : num;
  color : option num;
}.

(** Physical sizes are kept as the attribute text: [parseFloat] is not
    modelled and no property below inspects their values. *)
Record OmePixels : Type := mkOmePixels {
  sizeX : num;
  sizeY : num;
  sizeZ : num;
  sizeC : num;
  sizeT : num;
  dimensionOrder : DimensionOrder;
  pixelType : string;
  physicalSizeX : option string;
  physicalSizeXUnit : option string;
  physicalSizeY : option string;
  physicalSizeYUnit : option string;
  physicalSizeZ : option string;
  physicalSizeZUnit : option string;
  bigEndian : bool;
  interleaved : bool;
  channels : list OmeChannel;
  tiffData : list TiffDataEntry;
}.

Record OmeImage : Type := mkOmeImage {
  img_id : string;
  img_name : option string;
  pixels : OmePixels;
}.

(** [getIfdIndex (c, z, t, pixels)]: one formula per DimensionOrder. *)
Definition getIfdIndex (c z t : num) (p : OmePixels) : num :=
  let sZ := sizeZ p in
  let sC := sizeC p in
  let sT := sizeT p in
  let '(i0, i1, i2, s0, s1) :=
    match dimensionOrder p with
    | XYZCT => (z, c, t, sZ, sC)
    | XYZTC => (z, t, c, sZ, sT)
    | XYCTZ => (c, t, z, sC, sT)
    | XYCZT => (c, z, t, sC, sZ)
    | XYTCZ => (t, c, z, sT, sC)
    | XYTZC => (t, z, c, sT, sZ)
    end in
  (* i0 + s0 * i1 + s0 * s1 * i2, evaluated left to right *)
  num_add (num_add i0 (num_mul s0 i1)) (num_mul (num_mul s0 s1) i2).

(* ------------------------------------------------------------------ *)
(** ** Writer: plane enumeration ([write.ts]) *)

(** [DimensionInfo] of [extractDimensions]: sizes read from the shape. *)
Record DimensionInfo : Type := mkDimensionInfo {
  di_sizeX : Z;
  di_sizeY : Z;
  di_sizeZ : Z;
  di_sizeC : Z;
  di_sizeT : Z;
}.

(** [sizeMap[letter]]; the writer only passes the six valid orders, so the
    letter is always one of Z, C, T. *)
Definition sizeMapLookup (dims : DimensionInfo) (letter : ascii) : Z :=
  if Ascii.eqb letter "Z" then di_sizeZ dims
  else if Ascii.eqb letter "C" then di_sizeC dims
  else di_sizeT dims.

Definition charAt (s : string) (i : nat) : ascii :=
  match String.get i s with Some a => a | None => " "%char end.

(** [ifdIndexToPlane]: JS [%] is the truncated remainder ([Z.rem]) and
    [Math.floor(a / b)] is [Z.div] (floor division). *)
Definition ifdIndexToPlane (ifdIdx : Z) (dims : DimensionInfo)
  (dimOrder : string) : Z * Z * Z :=
  let order := substring 2 (String.length dimOrder - 2) dimOrder in
  let o0 := charAt order 0 in
  let o1 := charAt order 1 in
  let o2 := charAt order 2 in
  let s0 := sizeMapLookup dims o0 in
  let s1 := sizeMapLookup dims o1 in
  let d0 := Z.rem ifdIdx s0 in
  let d1 := Z.rem (ifdIdx / s0) s1 in
  let d2 := ifdIdx / (s0 * s1) in
  (* result[o0] = d0; result[o1] = d1; result[o2] = d2: later writes win *)
  let result (k : ascii) : option Z :=
    if Ascii.eqb k o2 then Some d2
    else if Ascii.eqb k o1 then Some d1
    else if Ascii.eqb k o0 then Some d0
    else None in
  let get k := match result k with Some v => v | None => 0 end in
  (get "C"%char, get "Z"%char, get "T"%char).


(** Spec reading of the index formula (section 4.F.2 of the spec): the
    DimensionOrder tail after [XY] names d0, d1, d2 fastest to slowest and
    the index is [i0 + size(d0) * i1 + size(d0) * size(d1) * i2]. *)
Definition specLetterSize (p : OmePixels) (l : ascii) : num :=
  if Ascii.eqb l "Z" then sizeZ p
  else if Ascii.eqb l "C" then sizeC p
  else sizeT p.

Definition specLetterIndex (c z t : num) (l : ascii) : num :=
  if Ascii.eqb l "Z" then z
  else if Ascii.eqb l "C" then c
  else t.

Definition ifdIndexBySpec (c z t : num) (p : OmePixels) : num :=
  let s := dimensionOrderString (dimensionOrder p) in
  let d0 := charAt s 2 in
  let d1 := charAt s 3 in
  let d2 := charAt s 4 in
  num_add
    (num_add (specLetterIndex c z t d0)
       (num_mul (specLetterSize p d0) (specLetterIndex c z t d1)))
    (num_mul (num_mul (specLetterSize p d0) (specLetterSize p d1))
       (specLetterIndex c z t d2)).


(* ------------------------------------------------------------------ *)
(** ** Multi-file routing: [filterPixelsForFile] ([ome-xml.ts]) *)

(** [!entry.uuid || entry.uuid === rootUuid]: an absent or empty UUID and
    the root UUID are local. *)
Definition isLocalEntry (rootUuid : option string) (e : TiffDataEntry) : bool :=
  match uuid e with
  | None => true
  | Some u =>
      if String.eqb u "" then true
      else match rootUuid with
           | Some r => String.eqb u r
           | None => false
           end
  end.

(** [Set.add]: insertion order, no duplicates (SameValueZero). *)
Definition setAdd (l : list num) (x : num) : list num :=
  if existsb (num_same x) l then l else l ++ [x].

(** The comparator [(a, b) => a - b], whose [NaN] result counts as 0. *)
Definition cmpNum (a b : num) : Z :=
  match num_sub a b with Fin d => d | NaN => 0 end.

(** [Array.prototype.sort] with that comparator, as a stable insertion
    sort (the result is unique when the comparator is consistent, i.e. on
    distinct finite numbers). *)
Fixpoint insertSorted (x : num) (l : list num) : list num :=
  match l with
  | [] => [x]
  | y :: rest => if cmpNum x y <? 0 then x :: l else y :: insertSorted x rest
  end.

Definition sortNums (l : list num) : list num :=
  fold_left (fun acc x => insertSorted x acc) l [].

(** [new Map(sorted.map((v, i) => [v, i])).get(v)]. *)
Fixpoint indexOfNum (l : list num) (v : num) (i : Z) : option Z :=
  match l with
  | [] => None
  | x :: rest => if num_same x v then Some i else indexOfNum rest v (i + 1)
  end.

(** A JS [Map<string, V>]: insertion-ordered, [set] on a present key
    replaces the value in place. *)
Fixpoint mapSet {V : Type} (m : list (string * V)) (k : string) (v : V)
  : list (string * V) :=
  match m with
  | [] => [(k, v)]
  | (k', v') :: rest =>
      if String.eqb k k' then (k, v) :: rest else (k', v') :: mapSet rest k v
  end.

Fixpoint mapGet {V : Type} (m : list (string * V)) (k : string) : option V :=
  match m with
  | [] => None
  | (k', v) :: rest => if String.eqb k k' then Some v else mapGet rest k
  end.

(** [arr[i]] for a numeric index: [undefined] unless [i] is an in-range
    integer. *)
Definition arrayAt {A : Type} (l : list A) (i : num) : option A :=
  match i with
  | Fin k => if k <? 0 then None else nth_error l (Z.to_nat k)
  | NaN => None
  end.

Record FilteredPixels : Type := mkFilteredPixels {
  fp_pixels : OmePixels;
  fp_ifdMap : list (string * num);
}.

Definition withLocalDims (p : OmePixels) (sc sz st : num)
  (chs : list OmeChannel) (td : list TiffDataEntry) : OmePixels :=
  mkOmePixels (sizeX p) (sizeY p) sz sc st (dimensionOrder p) (pixelType p)
    (physicalSizeX p) (physicalSizeXUnit p) (physicalSizeY p)
    (physicalSizeYUnit p) (physicalSizeZ p) (physicalSizeZUnit p)
    (bigEndian p) (interleaved p) chs td.

Definition filterPixelsForFile (p : OmePixels) (rootUuid : option string)
  : option FilteredPixels :=
  let td := tiffData p in
  if Nat.eqb (List.length td) 0 then None else
  let localEntries := filter (isLocalEntry rootUuid) td in
  if Nat.eqb (List.length localEntries) (List.length td) then None else
  let cSet := fold_left (fun s e => setAdd s (firstC e)) localEntries [] in
  let zSet := fold_left (fun s e => setAdd s (firstZ e)) localEntries [] in
  let tSet := fold_left (fun s e => setAdd s (firstT e)) localEntries [] in
  let sortedC := sortNums cSet in
  let sortedZ := sortNums zSet in
  let sortedT := sortNums tSet in
  (* every firstC/Z/T of a local entry is in its set: the [!] never fails *)
  let toLocal l v := match indexOfNum l v 0 with Some i => i | None => 0 end in
  let ifdMap :=
    fold_left
      (fun m e =>
         let lc := toLocal sortedC (firstC e) in
         let lz := toLocal sortedZ (firstZ e) in
         let lt := toLocal sortedT (firstT e) in
         mapSet m (Z_to_dec lc ++ "," ++ Z_to_dec lz ++ "," ++ Z_to_dec lt)
           (ifd e))
      localEntries [] in
  let localChannels :=
    map (fun globalC =>
           match arrayAt (channels p) globalC with
           | Some ch => ch
           | None =>
               mkOmeChannel ("Channel:0:" ++ num_to_string globalC) None
                 (Fin 1) None
           end) sortedC in
  Some (mkFilteredPixels
          (withLocalDims p (Fin (Z.of_nat (List.length sortedC)))
             (Fin (Z.of_nat (List.length sortedZ)))
             (Fin (Z.of_nat (List.length sortedT))) localChannels localEntries)
          ifdMap).

(** Scenario S5: 20 planes T=0..19 of channel 0 in this file (UUID [ul]),
    20 planes of channel 1 in another file (UUID [ur]); IFD = T in each. *)
Definition s5Entry (c t : Z) (u : string) : TiffDataEntry :=
  mkTiffDataEntry (Fin c) (Fin 0) (Fin t) (Fin t) (Fin 1) (Some u) None.

Definition zrange (n : nat) : list Z := map Z.of_nat (seq 0 n).

Definition s5Entries (ul ur : string) : list TiffDataEntry :=
  map (fun t => s5Entry 0 t ul) (zrange 20) ++
  map (fun t => s5Entry 1 t ur) (zrange 20).

Definition s4Pixels : OmePixels :=
  mkOmePixels (Fin 64) (Fin 64) (Fin 2) (Fin 3) (Fin 2) XYTZC "uint8"
    None None None None None None false false [] [].

Definition s5Pixels : OmePixels :=
  mkOmePixels (Fin 512) (Fin 512) (Fin 1) (Fin 2) (Fin 20) XYZCT "uint16"
    None None None None None None false false
    [mkOmeChannel "Channel:0:0" (Some "DAPI") (Fin 1) None;
     mkOmeChannel "Channel:0:1" (Some "GFP") (Fin 1) None]
    (s5Entries "urn:uuid:a" "urn:uuid:b").

(* ------------------------------------------------------------------ *)
(** ** Tiling ([src/src/tiff-writer.ts] sliceTiles, makeImageTags;
       [src/src/write.ts] slicePlane) *)

(** Pixel sizes, offsets and loop bounds of [sliceTiles] are non-negative
    integers and are modelled as [nat]: every subtraction of the source
    ([height - startY], [width - startX]) only feeds a [Math.min] whose
    result bounds a loop or a [subarray], where a negative value acts as 0,
    exactly as the truncated [nat] subtraction does. *)
Module Tiles.
Local Open Scope list_scope.
Local Open Scope nat_scope.

(** [new Uint8Array(n)]: zero-filled. *)
Definition u8_zeros (n : nat) : list Z := repeat 0%Z n.

(** [a.subarray(b, e)] for [b, e >= 0]: both ends clamped to the length. *)
Definition subarray (l : list Z) (b e : nat) : list Z :=
  let b' := Nat.min b (List.length l) in
  let e' := Nat.min e (List.length l) in
  firstn (e' - b') (skipn b' l).

(** [dst.set(src, off)]: [RangeError] ([None]) when [src] does not fit. *)
Definition u8_set (dst src : list Z) (off : nat) : option (list Z) :=
  if List.length dst <? off + List.length src then None
  else Some (firstn off dst ++ src ++ skipn (off + List.length src) dst).

(** [Math.ceil(a / b)] for [b > 0]. *)
Definition ceil_div (a b : nat) : nat := (a + b - 1) / b.

(** The body of the [tx] loop of [sliceTiles]: the tile at [(ty, tx)]. *)
Definition sliceTile (planeBytes : list Z) (width height bytesPerPixel tileW tileH : nat)
  (ty tx : nat) : option (list Z) :=
  let rowBytes := width * bytesPerPixel in
  let tileRowBytes := tileW * bytesPerPixel in
  let tileBytes := tileW * tileH * bytesPerPixel in
  let startY := ty * tileH in
  let startX := tx * tileW in
  let validRows := Nat.min tileH (height - startY) in
  let validCols := Nat.min tileW (width - startX) in
  let validRowBytes := validCols * bytesPerPixel in
  fold_left
    (fun acc row =>
       match acc with
       | None => None
       | Some tile =>
           let srcOffset := (startY + row) * rowBytes + startX * bytesPerPixel in
           let dstOffset := row * tileRowBytes in
           u8_set tile (subarray planeBytes srcOffset (srcOffset + validRowBytes))
             dstOffset
       end)
    (seq 0 validRows) (Some (u8_zeros tileBytes)).

(** [tiles.push(tile)] inside the [tx] loop, failing as soon as a tile does. *)
Definition pushTile (acc : option (list (list Z))) (t : option (list Z))
  : option (list (list Z)) :=
  match acc, t with
  | Some tiles, Some tile => Some (tiles ++ [tile])
  | _, _ => None
  end.

Definition sliceTiles (planeBytes : list Z) (width height bytesPerPixel tileW tileH : nat)
  : option (list (list Z)) :=
  let tilesX := ceil_div width tileW in
  let tilesY := ceil_div height tileH in
  fold_left
    (fun acc ty =>
       fold_left
         (fun acc tx =>
            match acc with
            | None => None
            | Some _ =>
                pushTile acc
                  (sliceTile planeBytes width height bytesPerPixel tileW tileH ty tx)
            end)
         (seq 0 tilesX) acc)
    (seq 0 tilesY) (Some []).

End Tiles.

(** TIFF tag numbers and types used by [makeImageTags]. *)
Definition TAG_NEW_SUBFILE_TYPE := 254.
Definition TAG_IMAGE_WIDTH := 256.
Definition TAG_IMAGE_LENGTH := 257.
Definition TAG_BITS_PER_SAMPLE := 258.
Definition TAG_COMPRESSION := 259.
Definition TAG_PHOTOMETRIC := 262.
Definition TAG_IMAGE_DESCRIPTION := 270.
Definition TAG_STRIP_OFFSETS := 273.
Definition TAG_SAMPLES_PER_PIXEL := 277.
Definition TAG_ROWS_PER_STRIP := 278.
Definition TAG_STRIP_BYTE_COUNTS := 279.
Definition TAG_PLANAR_CONFIGURATION := 284.
Definition TAG_TILE_WIDTH := 322.
Definition TAG_TILE_LENGTH := 323.
Definition TAG_TILE_OFFSETS := 324.
Definition TAG_TILE_BYTE_COUNTS := 325.
Definition TAG_SUB_IFDS := 330.
Definition TAG_SAMPLE_FORMAT := 339.
Definition TIFF_TYPE_ASCII := 2.
Definition TIFF_TYPE_SHORT := 3.
Definition TIFF_TYPE_LONG := 4.
Definition TIFF_TYPE_RATIONAL := 5.
Definition TIFF_TYPE_LONG8 := 16.
Definition COMPRESSION_NONE := 1.
Definition COMPRESSION_DEFLATE := 8.
Definition DEFAULT_TILE_SIZE := 256.

(** [TiffTag.values]: [number[] | string]. *)
Inductive TagValues : Type :=
| Nums (vs : list Z)
| Text (s : string).

Record TiffTag : Type := mkTiffTag {
  tag : Z;
  tagType : Z;
  values : TagValues;
}.

Inductive Compression : Type := CompNone | CompDeflate.

(** [imageDescription?: string] is pushed when truthy (present, non-empty);
    [isSubResolution?: boolean] when [true]. *)
Definition makeImageTags (width height bitsPerSample sampleFormat : Z)
  (compression : Compression) (imageDescription : option string)
  (isSubResolution : bool) (tileSize : Z) : list TiffTag :=
  (if isSubResolution
   then [mkTiffTag TAG_NEW_SUBFILE_TYPE TIFF_TYPE_LONG (Nums [1])] else []) ++
  [mkTiffTag TAG_IMAGE_WIDTH TIFF_TYPE_LONG (Nums [width]);
   mkTiffTag TAG_IMAGE_LENGTH TIFF_TYPE_LONG (Nums [height]);
   mkTiffTag TAG_BITS_PER_SAMPLE TIFF_TYPE_SHORT (Nums [bitsPerSample]);
   mkTiffTag TAG_COMPRESSION TIFF_TYPE_SHORT
     (Nums [match compression with
            | CompDeflate => COMPRESSION_DEFLATE
            | CompNone => COMPRESSION_NONE end]);
   mkTiffTag TAG_PHOTOMETRIC TIFF_TYPE_SHORT (Nums [1]);
   mkTiffTag TAG_SAMPLES_PER_PIXEL TIFF_TYPE_SHORT (Nums [1]);
   mkTiffTag TAG_PLANAR_CONFIGURATION TIFF_TYPE_SHORT (Nums [1]);
   mkTiffTag TAG_SAMPLE_FORMAT TIFF_TYPE_SHORT (Nums [sampleFormat])] ++
  (if (0 <? tileSize) && ((tileSize <? width) || (tileSize <? height))
   then [mkTiffTag TAG_TILE_WIDTH TIFF_TYPE_LONG (Nums [tileSize]);
         mkTiffTag TAG_TILE_LENGTH TIFF_TYPE_LONG (Nums [tileSize])]
   else [mkTiffTag TAG_ROWS_PER_STRIP TIFF_TYPE_LONG (Nums [height])]) ++
  (match imageDescription with
   | Some d => if String.eqb d "" then []
               else [mkTiffTag TAG_IMAGE_DESCRIPTION TIFF_TYPE_ASCII (Text d)]
   | None => []
   end).

(** The first tag with number [t], as [tags.find(x => x.tag === t)]. *)
Definition findTag (t : Z) (tags : list TiffTag) : option TiffTag :=
  find (fun x => Z.eqb (tag x) t) tags.

(** [slicePlane] of [src/src/write.ts]. *)
Definition slicePlane (planeBytes : list Z) (width height bpe tileSize : Z)
  : option (list (list Z)) :=
  if (0 <? tileSize) && ((tileSize <? width) || (tileSize <? height))
  then Tiles.sliceTiles planeBytes (Z.to_nat width) (Z.to_nat height)
         (Z.to_nat bpe) (Z.to_nat tileSize) (Z.to_nat tileSize)
  else Some [planeBytes].

(* ------------------------------------------------------------------ *)
(** ** Store keys (utils: parseStoreKey) *)

(** [parseInt(s, 10)]: skip leading white space, take an optional sign,
    then the longest run of decimal digits; no digit gives [NaN], trailing
    characters are ignored. Characters are the string's ASCII code units:
    the white space skipped is TAB, LF, VT, FF, CR and SPACE (the non-ASCII
    ones of [StrWhiteSpaceChar] are out of the model), and the value is the
    exact integer (a [-0] result is identified with 0). *)
Definition is_js_ws (c : ascii) : bool :=
  let n := nat_of_ascii c in
  (Nat.eqb n 9 || Nat.eqb n 10 || Nat.eqb n 11 || Nat.eqb n 12 || Nat.eqb n 13
   || Nat.eqb n 32)%bool.

Definition is_digit (c : ascii) : bool :=
  (Nat.leb 48 (nat_of_ascii c) && Nat.leb (nat_of_ascii c) 57)%bool.

Definition digit_value (c : ascii) : Z := Z.of_nat (nat_of_ascii c) - 48.

Fixpoint trimStart (s : string) : string :=
  match s with
  | String c r => if is_js_ws c then trimStart r else s
  | EmptyString => EmptyString
  end.

Fixpoint digitPrefix (s : string) : string :=
  match s with
  | String c r => if is_digit c then String c (digitPrefix r) else EmptyString
  | EmptyString => EmptyString
  end.

Fixpoint digitsValue (s : string) (acc : Z) : Z :=
  match s with
  | String c r => digitsValue r (acc * 10 + digit_value c)
  | EmptyString => acc
  end.

Definition parseInt10 (s : string) : num :=
  let s1 := trimStart s in
  let '(sign, s2) :=
    match s1 with
    | String c r =>
        if Ascii.eqb c "-"%char then (-1, r)
        else if Ascii.eqb c "+"%char then (1, r)
        else (1, s1)
    | EmptyString => (1, s1)
    end in
  let z := digitPrefix s2 in
  if String.eqb z "" then NaN else Fin (sign * digitsValue z 0).

(** [s.split("/")]. *)
Fixpoint splitSlash (s : string) : list string :=
  match s with
  | EmptyString => [EmptyString]
  | String c r =>
      let rest := splitSlash r in
      if Ascii.eqb c "/"%char then EmptyString :: rest
      else match rest with
           | h :: t => String c h :: t
           | [] => [String c EmptyString]
           end
  end.

Record ParsedKey : Type := mkParsedKey {
  level : Z;
  isMetadata : bool;
  isRootMetadata : bool;
  chunkIndices : option (list Z);
}.

Definition rejectedKey : ParsedKey := mkParsedKey (-1) false false None.
Definition rootKey : ParsedKey := mkParsedKey (-1) true true None.

(** [chunkIndices.some(isNaN)] false: all indices are numbers. *)
Fixpoint allFin (l : list num) : option (list Z) :=
  match l with
  | [] => Some []
  | Fin z :: t => match allFin t with Some zs => Some (z :: zs) | None => None end
  | NaN :: _ => None
  end.

(** [key.startsWith("/") ? key.slice(1) : key]. *)
Definition normalizeKey (key : string) : string :=
  match key with
  | String c r => if Ascii.eqb c "/"%char then r else key
  | EmptyString => key
  end.

Definition parseStoreKey (key : string) : ParsedKey :=
  let normalized := normalizeKey key in
  if String.eqb normalized "zarr.json" then rootKey else
  let parts := splitSlash normalized in
  match parts with
  | [p0; p1] =>
      if String.eqb p1 "zarr.json" then
        match parseInt10 p0 with
        | NaN => rejectedKey
        | Fin lvl => mkParsedKey lvl true false None
        end
      else rejectedKey
  | p0 :: p1 :: (_ :: _) as rest =>
      if String.eqb p1 "c" then
        match parseInt10 p0 with
        | NaN => rejectedKey
        | Fin lvl =>
            match allFin (map parseInt10 rest) with
            | None => rejectedKey
            | Some idx => mkParsedKey lvl false false (Some idx)
            end
        end
      else rejectedKey
  | _ => rejectedKey
  end.

(* ------------------------------------------------------------------ *)
(** ** TiffStore.get and its metadata caches ([src/src/tiff-store.ts]) *)

(** [Map<number, T>] as an association list in insertion order. *)
Fixpoint zmapGet {A : Type} (m : list (Z * A)) (k : Z) : option A :=
  match m with
  | [] => None
  | (k', v) :: t => if Z.eqb k k' then Some v else zmapGet t k
  end.

Fixpoint zmapSet {A : Type} (m : list (Z * A)) (k : Z) (v : A) : list (Z * A) :=
  match m with
  | [] => [(k, v)]
  | (k', v') :: t => if Z.eqb k k' then (k', v) :: t else (k', v') :: zmapSet t k v
  end.

Definition zmapHas {A : Type} (m : list (Z * A)) (k : Z) : bool :=
  match zmapGet m k with Some _ => true | None => false end.

(** The mutable part of a [TiffStore]: the two caches, and the number of
    serialisations ([encodeJson] calls) made so far. *)
Record StoreState : Type := mkStoreState {
  rootJsonBytes : option (list Z);
  arrayJsonCache : list (Z * list Z);
  encodeCount : nat;
}.

Section TiffStoreGet.
(** The JSON documents of the instance ([buildRootGroupJson(multiscale,
    omero)], [buildArrayJson(shapes[level], chunkShapes[level], dtype,
    dimNames)]: the fields they read are set once by the constructor). The
    [n]-th serialisation is [encodeJson n json]: the model lets serialising the
    same document twice give different bytes, so byte identity can only come
    from the caches. [chunkRead] is the chunk branch, which touches no cache. *)
Variable Json : Type.
Variable encodeJson : nat -> Json -> list Z.
Variable rootGroupJson : Json.
Variable arrayJsonOf : Z -> Json.
Variable levels : Z.
Variable chunkRead : Z -> list Z -> option (list Z).

Definition encode (st : StoreState) (j : Json) : list Z * StoreState :=
  (encodeJson (encodeCount st) j,
   mkStoreState (rootJsonBytes st) (arrayJsonCache st) (S (encodeCount st))).

Definition getRootGroupJson (st : StoreState) : list Z * StoreState :=
  match rootJsonBytes st with
  | Some b => (b, st)
  | None =>
      let '(b, st') := encode st rootGroupJson in
      (b, mkStoreState (Some b) (arrayJsonCache st') (encodeCount st'))
  end.

Definition getArrayJson (st : StoreState) (lvl : Z) : option (list Z) * StoreState :=
  if (lvl <? 0) || (levels <=? lvl) then (None, st) else
  let st1 :=
    if zmapHas (arrayJsonCache st) lvl then st
    else
      let '(b, st') := encode st (arrayJsonOf lvl) in
      mkStoreState (rootJsonBytes st') (zmapSet (arrayJsonCache st') lvl b)
        (encodeCount st') in
  (zmapGet (arrayJsonCache st1) lvl, st1).

Definition get (st : StoreState) (key : string) : option (list Z) * StoreState :=
  let parsed := parseStoreKey key in
  if isRootMetadata parsed then
    let '(b, st') := getRootGroupJson st in (Some b, st')
  else if isMetadata parsed && (0 <=? level parsed) then getArrayJson st (level parsed)
  else match chunkIndices parsed with
       | Some idx => if 0 <=? level parsed then (chunkRead (level parsed) idx, st)
                     else (None, st)
       | None => (None, st)
       end.

(** A sequence of [get] calls on one instance. *)
Fixpoint runGets (st : StoreState) (keys : list string) : StoreState :=
  match keys with
  | [] => st
  | k :: ks => runGets (snd (get st k)) ks
  end.

End TiffStoreGet.

(* ------------------------------------------------------------------ *)
(** ** Chunk reads ([src/src/chunk-reader.ts], [TiffStore.getChunkData]) *)

Inductive ZarrDataType : Type :=
| Int8 | Int16 | Int32 | Uint8 | Uint16 | Uint32 | Float32 | Float64.

Definition bytesPerElement (dtype : ZarrDataType) : Z :=
  match dtype with
  | Int8 | Uint8 => 1
  | Int16 | Uint16 => 2
  | Int32 | Uint32 | Float32 => 4
  | Float64 => 8
  end.

(** [a[i]] of a number array used in arithmetic: [undefined] acts as [NaN]. *)
Definition numAt (l : list num) (i : Z) : num :=
  match arrayAt l (Fin i) with Some v => v | None => NaN end.

(** [arr[i] = v] for an index that is an element index or negative (a plain
    property, leaving the elements unchanged). *)
Definition arraySet {A : Type} (l : list A) (i : Z) (v : A) : list A :=
  if i <? 0 then l
  else (firstn (Z.to_nat i) l ++ (if Nat.ltb (Z.to_nat i) (List.length l) then [v] else [])
        ++ skipn (S (Z.to_nat i)) l)%list.

(** [Array.prototype.indexOf] for strings. *)
Fixpoint indexOfStr (l : list string) (s : string) : Z :=
  match l with
  | [] => -1
  | h :: t => if String.eqb h s then 0 else
              let r := indexOfStr t s in if r <? 0 then -1 else r + 1
  end.

(** [buildAxes(pixels).dimNames] (metadata, [src/unnamed/part_003]). *)
Definition buildAxesDimNames (pixels : option OmePixels) : list string :=
  match pixels with
  | None => ["y"; "x"]
  | Some p =>
      ((if num_lt (Fin 1) (sizeT p) then ["t"] else []) ++
       (if num_lt (Fin 1) (sizeC p) then ["c"] else []) ++
       (if num_lt (Fin 1) (sizeZ p) then ["z"] else []) ++ ["y"; "x"])%list
  end.

(** [computeChunkShape] (utils). *)
Definition computeChunkShape (tileWidth tileHeight : num) (ndim : nat) : list num :=
  let chunks := repeat (Fin 1) ndim in
  let chunks := arraySet chunks (Z.of_nat ndim - 2) tileHeight in
  arraySet chunks (Z.of_nat ndim - 1) tileWidth.

(** [computePixelWindow] (utils). *)
Definition computePixelWindow (chunkX chunkY chunkWidth chunkHeight imageWidth imageHeight : num)
  : num * num * num * num :=
  let left' := num_mul chunkX chunkWidth in
  let top := num_mul chunkY chunkHeight in
  let right' := num_min (num_add left' chunkWidth) imageWidth in
  let bottom := num_min (num_add top chunkHeight) imageHeight in
  (left', top, right', bottom).

(** [new Uint8Array(n)]: zero-filled; [NaN] gives length 0, a negative
    length throws ([None]). *)
Definition u8_new (n : num) : option (list Z) :=
  match n with
  | NaN => Some []
  | Fin k => if k <? 0 then None else Some (repeat 0 (Z.to_nat k))
  end.

(** [ToIntegerOrInfinity] then relative-index clamping of [subarray]. *)
Definition relIndex (len : Z) (x : num) : Z :=
  let k := match x with Fin k => k | NaN => 0 end in
  if k <? 0 then Z.max (len + k) 0 else Z.min k len.

Definition subarrayN (l : list Z) (b e : num) : list Z :=
  let len := Z.of_nat (List.length l) in
  let b' := relIndex len b in
  let e' := relIndex len e in
  firstn (Z.to_nat (e' - b')) (skipn (Z.to_nat b') l).

(** [dst.set(src, off)] with a number offset: [RangeError] ([None]) when the
    offset is negative or [src] does not fit. *)
Definition u8_setZ (dst src : list Z) (off : Z) : option (list Z) :=
  if (off <? 0) || (Z.of_nat (List.length dst) <? off + Z.of_nat (List.length src)) then None
  else Some (firstn (Z.to_nat off) dst ++ src ++
             skipn (Z.to_nat off + List.length src) dst)%list.

(** The rows [0 .. n-1] of a [for (row = 0; row < srcHeight; row++)] loop. *)
Definition loopRows (srcHeight : num) : list Z :=
  match srcHeight with Fin h => zrange (Z.to_nat h) | NaN => [] end.

Definition padEdgeChunk (data : list Z) (srcWidth srcHeight dstWidth dstHeight : num)
  (bytesPerEl : Z) : option (list Z) :=
  match u8_new (num_mul (num_mul dstWidth dstHeight) (Fin bytesPerEl)) with
  | None => None
  | Some output =>
      let srcRowBytes := num_mul srcWidth (Fin bytesPerEl) in
      let dstRowBytes := num_mul dstWidth (Fin bytesPerEl) in
      fold_left
        (fun acc row =>
           match acc with
           | None => None
           | Some out =>
               let srcOffset := num_mul (Fin row) srcRowBytes in
               let dstOffset := num_mul (Fin row) dstRowBytes in
               u8_setZ out (subarrayN data srcOffset (num_add srcOffset srcRowBytes))
                 (match dstOffset with Fin d => d | NaN => 0 end)
           end)
        (loopRows srcHeight) (Some output)
  end.

(** [encodeChunkBytes] (utils): [data.byteLength / bpe === expected] is
    tested as [byteLength = expected * bpe] ([bpe] is 1, 2, 4 or 8). *)
Definition encodeChunkBytes (data : list Z) (expectedElements : num) (bpe : Z)
  : option (list Z) :=
  if num_same (Fin (Z.of_nat (List.length data))) (num_mul expectedElements (Fin bpe))
  then Some data
  else match u8_new (num_mul expectedElements (Fin bpe)) with
       | None => None
       | Some output => u8_setZ output data 0
       end.

Record PlaneSelection : Type := mkPlaneSelection {
  sel_c : num;
  sel_z : num;
  sel_t : num;
}.

Section ReadChunk.
(** [getImage(sel, level)] followed by [image.readRasters({window, ...})]:
    the bytes of the returned array, or [None] when a promise rejects. *)
Variable readRasters : PlaneSelection -> Z -> num * num * num * num -> option (list Z).

(** [readChunk]: [None] when it throws or rejects. *)
Definition readChunk (sel : PlaneSelection) (lvl : Z)
  (chunkY chunkX chunkHeight chunkWidth imageWidth imageHeight : num)
  (dtype : ZarrDataType) : option (list Z) :=
  let '(left', top, right', bottom) :=
    computePixelWindow chunkX chunkY chunkWidth chunkHeight imageWidth imageHeight in
  let windowWidth := num_sub right' left' in
  let windowHeight := num_sub bottom top in
  if num_le windowWidth (Fin 0) || num_le windowHeight (Fin 0) then
    u8_new (num_mul (num_mul chunkWidth chunkHeight) (Fin (bytesPerElement dtype)))
  else
    match readRasters sel lvl (left', top, right', bottom) with
    | None => None
    | Some pixelData =>
        let bpe := bytesPerElement dtype in
        let expectedElements := num_mul chunkWidth chunkHeight in
        if num_lt windowWidth chunkWidth || num_lt windowHeight chunkHeight then
          padEdgeChunk pixelData windowWidth windowHeight chunkWidth chunkHeight bpe
        else encodeChunkBytes pixelData expectedElements bpe
    end.

End ReadChunk.

(** The fields of a [TiffStore] that [getChunkData] reads, as [fromGeoTIFF]
    sets them. *)
Record TiffStoreFields : Type := mkTiffStoreFields {
  ts_levels : Z;
  ts_widths : list Z;
  ts_heights : list Z;
  ts_tileWidth : Z;
  ts_tileHeight : Z;
  ts_pixels : option OmePixels;
  ts_dtype : ZarrDataType;
  ts_shapes : list (list Z);
}.

Definition ts_dimNames (f : TiffStoreFields) : list string := buildAxesDimNames (ts_pixels f).

(** [chunkShapes.push(computeChunkShape(min(tileWidth, widths[level]),
    min(tileHeight, heights[level]), dimNames.length))] for each level. *)
Definition ts_chunkShapes (f : TiffStoreFields) : list (list num) :=
  map (fun lvl =>
         computeChunkShape
           (num_min (Fin (ts_tileWidth f)) (numAt (map Fin (ts_widths f)) lvl))
           (num_min (Fin (ts_tileHeight f)) (numAt (map Fin (ts_heights f)) lvl))
           (List.length (ts_dimNames f)))
    (zrange (Z.to_nat (ts_levels f))).

Definition indicesToSelection (dimNames : list string) (chunkIndices : list Z) : PlaneSelection :=
  fold_left
    (fun sel i =>
       let dim := nth i dimNames "" in
       let v := numAt (map Fin chunkIndices) (Z.of_nat i) in
       if String.eqb dim "t" then mkPlaneSelection (sel_c sel) (sel_z sel) v
       else if String.eqb dim "c" then mkPlaneSelection v (sel_z sel) (sel_t sel)
       else if String.eqb dim "z" then mkPlaneSelection (sel_c sel) v (sel_t sel)
       else sel)
    (seq 0 (List.length dimNames)) (mkPlaneSelection (Fin 0) (Fin 0) (Fin 0)).

(** [getChunkData]: [Some None] is [undefined], [None] a throw/rejection. *)
Definition getChunkData
  (readRasters : PlaneSelection -> Z -> num * num * num * num -> option (list Z))
  (f : TiffStoreFields) (lvl : Z) (chunkIndices : list Z) : option (option (list Z)) :=
  if (lvl <? 0) || (ts_levels f <=? lvl) then Some None else
  let dimNames := ts_dimNames f in
  let sel := indicesToSelection dimNames chunkIndices in
  let shape := map Fin (nth (Z.to_nat lvl) (ts_shapes f) []) in
  let chunkShape := nth (Z.to_nat lvl) (ts_chunkShapes f) [] in
  let yIdx := indexOfStr dimNames "y" in
  let xIdx := indexOfStr dimNames "x" in
  let idx := map Fin chunkIndices in
  match readChunk readRasters sel lvl (numAt idx yIdx) (numAt idx xIdx)
          (numAt chunkShape yIdx) (numAt chunkShape xIdx)
          (numAt shape xIdx) (numAt shape yIdx) (ts_dtype f) with
  | Some bytes => Some (Some bytes)
  | None => None
  end.

(** [chunkShape.reduce((a, b) => a * b, 1)]. *)
Definition num_prod (l : list num) : num := fold_left num_mul l (Fin 1).

(* ------------------------------------------------------------------ *)
(** ** TIFF layout ([src/src/tiff-writer.ts] buildTiff, estimateRawSize,
    resolveTag, placeIfds, computeTotalSize)

    Tile contents never enter the layout computation: it reads only each
    tile's [length].  A tile is therefore represented by its byte length,
    and a resolved tag by the byte length of its [valueBytes].  Sizes are
    far below 2^53, so JS number arithmetic on them is exact Z arithmetic.
    The model covers [compression = "none"], where [processIfdAsync]
    returns the tags, tiles and SubIFDs unchanged. *)

Definition TIFF_TYPE_BYTE := 1.

(** [TYPE_SIZES[type]]; [None] is the [undefined] of an unknown type. *)
Definition TYPE_SIZES (t : Z) : option Z :=
  if t =? TIFF_TYPE_BYTE then Some 1
  else if t =? TIFF_TYPE_ASCII then Some 1
  else if t =? TIFF_TYPE_SHORT then Some 2
  else if t =? TIFF_TYPE_LONG then Some 4
  else if t =? TIFF_TYPE_RATIONAL then Some 8
  else if t =? TIFF_TYPE_LONG8 then Some 8
  else None.

(** [WritableIfd]: tags, tile byte lengths, optional SubIFDs. *)
#[local] Set Warnings "-register-all".
Inductive WritableIfd : Type :=
  mkWritableIfd (ifd_tags : list TiffTag) (ifd_tiles : list Z)
                (ifd_subIfds : option (list WritableIfd)).

Record ResolvedTag : Type := mkResolvedTag {
  rt_tag : Z;
  rt_type : Z;
  rt_valueBytesLength : Z
}.

Definition sum_list (l : list Z) : Z := fold_left Z.add l 0.

(** [resolveTag]; [None] is the "Unknown TIFF type" throw.  A Rocq
    string is a byte sequence, read as the [TextEncoder] (UTF-8) bytes.
    For RATIONAL, [count * typeSize = (n / 2) * 8 = 4 n]. *)
Definition resolveTag (t : TiffTag) : option ResolvedTag :=
  match values t with
  | Text s => Some (mkResolvedTag (tag t) TIFF_TYPE_ASCII
                                  (Z.of_nat (String.length s) + 1))
  | Nums vs =>
      match TYPE_SIZES (tagType t) with
      | None => None
      | Some typeSize =>
          let n := Z.of_nat (List.length vs) in
          Some (mkResolvedTag (tag t) (tagType t)
                  (if tagType t =? TIFF_TYPE_RATIONAL then n * 4
                   else n * typeSize))
      end
  end.

Record TiffFormat : Type := mkTiffFormat {
  headerSize : Z;
  ifdEntrySize : Z;
  offsetSize : Z;
  inlineThreshold : Z;
  offsetType : Z;
  magic : Z
}.

Definition CLASSIC_FORMAT := mkTiffFormat 8 12 4 4 TIFF_TYPE_LONG 42.
Definition BIGTIFF_FORMAT := mkTiffFormat 16 20 8 8 TIFF_TYPE_LONG8 43.

Definition ifdEntryBlockSize (numTags : Z) (fmt : TiffFormat) : Z :=
  if magic fmt =? 42 then 2 + numTags * 12 + 4 else 8 + numTags * 20 + 8.

Definition overflowSize (tags : list ResolvedTag) (fmt : TiffFormat) : Z :=
  fold_left (fun size t =>
    let n := rt_valueBytesLength t in
    if inlineThreshold fmt <? n
    then size + n + (if negb (n mod 2 =? 0) then 1 else 0)
    else size) tags 0.

Definition totalTileSize (tiles : list Z) : Z := sum_list tiles.

(** [allTags.sort((a, b) => a.tag - b.tag)]: a stable sort by tag. *)
Fixpoint insertByTag (x : ResolvedTag) (l : list ResolvedTag)
  : list ResolvedTag :=
  match l with
  | nil => x :: nil
  | y :: r => if rt_tag y <=? rt_tag x then y :: insertByTag x r
              else x :: y :: r
  end.

Fixpoint sortByTag (l : list ResolvedTag) : list ResolvedTag :=
  match l with
  | nil => nil
  | x :: r => insertByTag x (sortByTag r)
  end.

Fixpoint mapOption {A B} (f : A -> option B) (l : list A) : option (list B) :=
  match l with
  | nil => Some nil
  | x :: r => match f x, mapOption f r with
              | Some y, Some ys => Some (y :: ys)
              | _, _ => None
              end
  end.

Inductive IfdInfo : Type :=
  mkIfdInfo (info_tags : list ResolvedTag) (info_tiles : list Z)
            (subIfdInfos : list IfdInfo)
            (entryBlockSize overflow tileSize : Z).

(** [resolveIfdInfo] of [placeIfds]; [None] when some tag throws. *)
Fixpoint resolveIfdInfo (fmt : TiffFormat) (ifd : WritableIfd)
  : option IfdInfo :=
  match ifd with
  | mkWritableIfd tags tiles subIfds =>
      match mapOption resolveTag tags with
      | None => None
      | Some userTags =>
          let hasTileWidth :=
            existsb (fun t => tag t =? TAG_TILE_WIDTH) tags in
          let offsetTag :=
            if hasTileWidth then TAG_TILE_OFFSETS else TAG_STRIP_OFFSETS in
          let countTag :=
            if hasTileWidth then TAG_TILE_BYTE_COUNTS
            else TAG_STRIP_BYTE_COUNTS in
          let nTiles := Z.of_nat (List.length tiles) in
          let tileOffsetsTag :=
            mkResolvedTag offsetTag (offsetType fmt) (nTiles * offsetSize fmt) in
          let tileByteCountsTag :=
            mkResolvedTag countTag (offsetType fmt) (nTiles * offsetSize fmt) in
          match match subIfds with
                | None => Some nil
                | Some s =>
                    (fix resolveAll (l : list WritableIfd)
                       : option (list IfdInfo) :=
                       match l with
                       | nil => Some nil
                       | x :: r =>
                           match resolveIfdInfo fmt x, resolveAll r with
                           | Some i, Some is => Some (i :: is)
                           | _, _ => None
                           end
                       end) s
                end with
          | None => None
          | Some subInfos =>
              let nSub := Z.of_nat (List.length subInfos) in
              let allTags0 :=
                (userTags ++ tileOffsetsTag :: tileByteCountsTag :: nil)%list in
              let allTags1 :=
                if 0 <? nSub
                then (allTags0 ++ mkResolvedTag TAG_SUB_IFDS (offsetType fmt)
                                     (nSub * offsetSize fmt) :: nil)%list
                else allTags0 in
              let allTags := sortByTag allTags1 in
              Some (mkIfdInfo allTags tiles subInfos
                      (ifdEntryBlockSize (Z.of_nat (List.length allTags)) fmt)
                      (overflowSize allTags fmt)
                      (totalTileSize tiles))
          end
      end
  end.

(** A [PlacedIfd], without the SubIFD and next-IFD pointers, which only
    the writing pass reads. *)
Record PlacedIfd : Type := mkPlacedIfd {
  ifdOffset : Z;
  p_tags : list ResolvedTag;
  overflowOffset : Z;
  p_overflowSize : Z;
  tileDataOffset : Z;
  p_tiles : list Z
}.

(** [placeIfdInfo]: the IFD at [cursor], then its SubIFDs right after its
    tile data; returns the IFDs pushed on [allPlaced] (in push order) and
    the new cursor. *)
Fixpoint placeIfdInfo (info : IfdInfo) (cursor : Z) : list PlacedIfd * Z :=
  match info with
  | mkIfdInfo tags tiles subInfos ebs ov ts =>
      let ifdOff := cursor in
      let cursor1 := cursor + ebs in
      let overflowOff := cursor1 in
      let cursor2 := cursor1 + ov in
      let tileDataOff := cursor2 in
      let cursor3 := cursor2 + ts in
      let placed := mkPlacedIfd ifdOff tags overflowOff ov tileDataOff tiles in
      let '(rest, cursor4) :=
        (fix placeAll (l : list IfdInfo) (cur : Z) : list PlacedIfd * Z :=
           match l with
           | nil => (nil, cur)
           | x :: r =>
               let '(p, cur') := placeIfdInfo x cur in
               let '(q, cur'') := placeAll r cur' in
               ((p ++ q)%list, cur'')
           end) subInfos cursor3 in
      (placed :: rest, cursor4)
  end.

Definition placeInfos (infos : list IfdInfo) (fmt : TiffFormat)
  : list PlacedIfd :=
  fst (fold_left (fun acc info =>
         let '(ps, cur) := acc in
         let '(p, cur') := placeIfdInfo info cur in ((ps ++ p)%list, cur'))
       infos (nil, headerSize fmt)).

Definition placeIfds (ifds : list WritableIfd) (fmt : TiffFormat)
  : option (list PlacedIfd) :=
  match mapOption (resolveIfdInfo fmt) ifds with
  | None => None
  | Some infos => Some (placeInfos infos fmt)
  end.

Definition computeTotalSize (placed : list PlacedIfd) (fmt : TiffFormat) : Z :=
  match placed with
  | nil => headerSize fmt
  | _ => fold_left (fun maxEnd p =>
           Z.max maxEnd (tileDataOffset p + totalTileSize (p_tiles p)))
         placed (headerSize fmt)
  end.

(** [estimateRawSize]. *)
Fixpoint estimateIfd (ifd : WritableIfd) : Z :=
  match ifd with
  | mkWritableIfd _ tiles subIfds =>
      256 + sum_list tiles +
      match subIfds with
      | None => 0
      | Some s =>
          16 + (fix estimateAll (l : list WritableIfd) : Z :=
                  match l with
                  | nil => 0
                  | x :: r => estimateIfd x + estimateAll r
                  end) s
      end
  end.

Definition estimateRawSize (ifds : list WritableIfd) : Z :=
  fold_left (fun size ifd => size + estimateIfd ifd) ifds 16.

Inductive FormatOption : Type := FmtAuto | FmtClassic | FmtBigtiff.

(** Outcome of [buildTiff]: the classic-limit throw, the unknown-type
    throw, or the chosen format and the size of the allocated buffer. *)
Inductive BuildOutcome : Type :=
| ErrClassicLimit
| ErrUnknownType
| Built (fmt : TiffFormat) (totalSize : Z).

(** Phases 2-4 of [buildTiff]. *)
Definition buildTiff (ifds : list WritableIfd) (formatOpt : FormatOption)
  : BuildOutcome :=
  let rawSize := estimateRawSize ifds in
  let fmtOrErr :=
    match formatOpt with
    | FmtBigtiff => Some BIGTIFF_FORMAT
    | FmtClassic => if 4294967294 <? rawSize then None else Some CLASSIC_FORMAT
    | FmtAuto => Some (if 3900000000 <? rawSize then BIGTIFF_FORMAT
                       else CLASSIC_FORMAT)
    end in
  match fmtOrErr with
  | None => ErrClassicLimit
  | Some fmt =>
      match placeIfds ifds fmt with
      | None => ErrUnknownType
      | Some placed => Built fmt (computeTotalSize placed fmt)
      end
  end.

(* ------------------------------------------------------------------ *)
(** ** OME-XML writer ([src/src/dtypes.ts] buildOmeXml, escapeXml,
    buildChannelElements, buildPhysicalSizeAttrs, hexColorToOmeInt)

    Strings are byte strings; the inputs considered are ASCII, where the
    UTF-16 code units of JS and the bytes coincide. *)

Definition dq : ascii := ascii_of_nat 34.
Definition nl : string := String (ascii_of_nat 10) EmptyString.

(** A template fragment, written with a backquote where the source has a
    double quote. *)
Fixpoint lit (s : string) : string :=
  match s with
  | EmptyString => EmptyString
  | String c r =>
      String (if Ascii.eqb c "`"%char then dq else c) (lit r)
  end.

(** [str.replace(/c/g, rep)] for a one-character pattern. *)
Fixpoint replaceChar (c : ascii) (rep s : string) : string :=
  match s with
  | EmptyString => EmptyString
  | String d r =>
      if Ascii.eqb d c then rep ++ replaceChar c rep r
      else String d (replaceChar c rep r)
  end.

Definition escapeXml (str : string) : string :=
  replaceChar "'"%char "&apos;"
    (replaceChar dq "&quot;"
      (replaceChar ">"%char "&gt;"
        (replaceChar "<"%char "&lt;"
          (replaceChar "&"%char "&amp;" str)))).

Definition hex_value (c : ascii) : option Z :=
  let n := Z.of_nat (nat_of_ascii c) in
  if (48 <=? n) && (n <=? 57) then Some (n - 48)
  else if (65 <=? n) && (n <=? 70) then Some (n - 55)
  else if (97 <=? n) && (n <=? 102) then Some (n - 87)
  else None.

Fixpoint hexPrefixValue (s : string) (acc : Z) (seen : bool) : option Z :=
  match s with
  | String c r =>
      match hex_value c with
      | Some d => hexPrefixValue r (acc * 16 + d) true
      | None => if seen then Some acc else None
      end
  | EmptyString => if seen then Some acc else None
  end.

(** [parseInt(s, 16)]: leading white space, a sign, an optional [0x]. *)
Definition parseInt16 (s : string) : num :=
  let s1 := trimStart s in
  let '(sign, s2) :=
    match s1 with
    | String c r =>
        if Ascii.eqb c "-"%char then (-1, r)
        else if Ascii.eqb c "+"%char then (1, r)
        else (1, s1)
    | EmptyString => (1, s1)
    end in
  let s3 := if String.prefix "0x" s2 || String.prefix "0X" s2
            then substring 2 (String.length s2 - 2) s2 else s2 in
  match hexPrefixValue s3 0 false with
  | Some v => Fin (sign * v)
  | None => NaN
  end.

(** ToInt32, and the 32-bit [<<] and [|] of JS. *)
Definition toInt32 (n : num) : Z :=
  match n with
  | NaN => 0
  | Fin z => let m := z mod 2 ^ 32 in if m <? 2 ^ 31 then m else m - 2 ^ 32
  end.
Definition js_shl (a : num) (b : Z) : Z :=
  toInt32 (Fin (toInt32 a * 2 ^ (b mod 32))).
Definition js_or (a b : Z) : Z := toInt32 (Fin (Z.lor a b)).

Definition hexColorToOmeInt (hex : string) : Z :=
  let h := if String.prefix "#" hex
           then substring 1 (String.length hex - 1) hex else hex in
  let r := parseInt16 (substring 0 2 h) in
  let g := parseInt16 (substring 2 2 h) in
  let b := parseInt16 (substring 4 2 h) in
  let a := if (8 <=? String.length h)%nat
           then parseInt16 (substring 6 2 h) else Fin 255 in
  let unsigned :=
    js_or (js_or (js_or (js_shl r 24) (js_shl g 16)) (js_shl b 8))
          (toInt32 a) mod 2 ^ 32 in
  if 2147483647 <? unsigned then unsigned - 4294967296 else unsigned.

(** An [omero.channels] entry of the Multiscales metadata. *)
Record OmeroChannel : Type := mkOmeroChannel {
  label : option string;
  ocolor : string
}.

Fixpoint joinNl (lines : list string) : string :=
  match lines with
  | nil => ""
  | x :: nil => x
  | x :: r => x ++ nl ++ joinNl r
  end.

Definition buildChannelElements (omero : option (list OmeroChannel))
  (sizeC : Z) : string :=
  let lines :=
    map (fun c =>
      let omeroChannel :=
        match omero with
        | Some chs => nth_error chs (Z.to_nat c)
        | None => None
        end in
      let name := match omeroChannel with
                  | Some oc => match label oc with
                               | Some l => l
                               | None => "Ch" ++ Z_to_dec c
                               end
                  | None => "Ch" ++ Z_to_dec c
                  end in
      let colorAttr := match omeroChannel with
                       | Some oc => lit " Color=`" ++
                                    Z_to_dec (hexColorToOmeInt (ocolor oc)) ++
                                    lit "`"
                       | None => ""
                       end in
      lit "      <Channel ID=`Channel:0:" ++ Z_to_dec c ++ lit "` Name=`" ++
      escapeXml name ++ lit "` SamplesPerPixel=`1`" ++ colorAttr ++ "/>")
    (zrange (Z.to_nat sizeC)) in
  match lines with
  | nil => ""
  | _ => joinNl lines ++ nl
  end.

(** The physical-size fields of [DimensionInfo] (its sizes are the record
    [DimensionInfo] above).  A physical size is kept as its decimal
    rendering [${x}], a unit as the OME symbol [extractDimensions] has
    already mapped it to. *)
Record PhysicalSizeInfo : Type := mkPhysicalSizeInfo {
  di_physicalSizeX : option string; di_physicalSizeXUnit : option string;
  di_physicalSizeY : option string; di_physicalSizeYUnit : option string;
  di_physicalSizeZ : option string; di_physicalSizeZUnit : option string
}.

(** One axis of [buildPhysicalSizeAttrs]; [if (unit)] skips "". *)
Definition physAttr (axis : string) (size unit : option string) : string :=
  match size with
  | None => ""
  | Some v =>
      lit (" PhysicalSize" ++ axis ++ "=`") ++ v ++ lit "`" ++
      match unit with
      | Some u => if String.eqb u "" then ""
                  else lit (" PhysicalSize" ++ axis ++ "Unit=`") ++
                       escapeXml u ++ lit "`"
      | None => ""
      end
  end.

Definition buildPhysicalSizeAttrs (dims : PhysicalSizeInfo) : string :=
  physAttr "X" (di_physicalSizeX dims) (di_physicalSizeXUnit dims) ++
  physAttr "Y" (di_physicalSizeY dims) (di_physicalSizeYUnit dims) ++
  physAttr "Z" (di_physicalSizeZ dims) (di_physicalSizeZUnit dims).

(** Modelled from the spec: [zarrToOmePixelType] is imported by the
    writer but its body is not in the sources; the spec gives the
    inverse of [omePixelTypeToZarr]: float32 is "float", float64 is
    "double", the others are spelled as the Zarr type. *)
Definition zarrToOmePixelType (dtype : ZarrDataType) : string :=
  match dtype with
  | Int8 => "int8" | Int16 => "int16" | Int32 => "int32"
  | Uint8 => "uint8" | Uint16 => "uint16" | Uint32 => "uint32"
  | Float32 => "float" | Float64 => "double"
  end.

(** [buildOmeXml], from what it reads of the Multiscales: the
    [extractDimensions] result, [metadata.name] and [metadata.omero]. *)
Definition buildOmeXml (dims : DimensionInfo) (phys : PhysicalSizeInfo)
  (metadataName : option string)
  (omero : option (list OmeroChannel)) (dtype : ZarrDataType)
  (optDimensionOrder optCreator optImageName : option string) : string :=
  let dimensionOrder := match optDimensionOrder with
                        | Some d => d | None => "XYZCT" end in
  let creator := match optCreator with Some c => c | None => "fiff" end in
  let omeType := zarrToOmePixelType dtype in
  let imageName := match optImageName with
                   | Some n => n
                   | None => match metadataName with
                             | Some n => n | None => "image" end
                   end in
  let channels := buildChannelElements omero (di_sizeC dims) in
  let physAttrs := buildPhysicalSizeAttrs phys in
  lit "<?xml version=`1.0` encoding=`UTF-8`?>" ++ nl ++
  lit "<OME xmlns=`http://www.openmicroscopy.org/Schemas/OME/2016-06`" ++ nl ++
  lit "     xmlns:xsi=`http://www.w3.org/2001/XMLSchema-instance`" ++ nl ++
  lit "     xsi:schemaLocation=`http://www.openmicroscopy.org/Schemas/OME/2016-06" ++ nl ++
  lit "       http://www.openmicroscopy.org/Schemas/OME/2016-06/ome.xsd`" ++ nl ++
  lit "     Creator=`" ++ escapeXml creator ++ lit "`>" ++ nl ++
  lit "  <Image ID=`Image:0` Name=`" ++ escapeXml imageName ++ lit "`>" ++ nl ++
  lit "    <Pixels ID=`Pixels:0` DimensionOrder=`" ++ dimensionOrder ++
  lit "` Type=`" ++ omeType ++ lit "`" ++ nl ++
  lit "            SizeX=`" ++ Z_to_dec (di_sizeX dims) ++
  lit "` SizeY=`" ++ Z_to_dec (di_sizeY dims) ++
  lit "` SizeZ=`" ++ Z_to_dec (di_sizeZ dims) ++
  lit "` SizeC=`" ++ Z_to_dec (di_sizeC dims) ++
  lit "` SizeT=`" ++ Z_to_dec (di_sizeT dims) ++ lit "`" ++ nl ++
  lit "            BigEndian=`false`" ++ physAttrs ++ ">" ++ nl ++
  channels ++ "      <TiffData/>" ++ nl ++
  "    </Pixels>" ++ nl ++
  "  </Image>" ++ nl ++
  "</OME>".

(* ------------------------------------------------------------------ *)
(** ** OME-XML parser ([src/src/ome-xml.ts] parseOmeXml, parseAttributes)

    Each regular expression is matched as the JS engine matches it.  A
    greedy class run followed by a character outside the class cannot
    backtrack into a shorter run, and a lazy body match ends at the first
    occurrence of the closing tag, so each match at a position is
    deterministic.  A global [exec] loop tries every position from the
    last match end onwards. *)

Fixpoint sdrop (n : nat) (s : string) : string :=
  match n, s with
  | O, _ => s
  | S k, String _ r => sdrop k r
  | S _, EmptyString => EmptyString
  end.

Fixpoint spanStr (p : ascii -> bool) (s : string) : string * string :=
  match s with
  | String c r => if p c then let '(a, b) := spanStr p r in (String c a, b)
                  else (EmptyString, s)
  | EmptyString => (EmptyString, EmptyString)
  end.

(** The text before the first occurrence of [pat] and the text after it. *)
Fixpoint findSub (pat s : string) : option (string * string) :=
  if String.prefix pat s then Some (EmptyString, sdrop (String.length pat) s)
  else match s with
       | EmptyString => None
       | String c r => match findSub pat r with
                       | Some (a, b) => Some (String c a, b)
                       | None => None
                       end
       end.

(** Repeated [exec] of a global regex whose matches are never empty. *)
Fixpoint scanAll {A} (fuel : nat) (m : string -> option (A * string))
  (s : string) : list A :=
  match fuel with
  | O => nil
  | S f => match s with
           | EmptyString => nil
           | String _ r => match m s with
                           | Some (a, after) => a :: scanAll f m after
                           | None => scanAll f m r
                           end
           end
  end.

Definition execAll {A} (m : string -> option (A * string)) (s : string)
  : list A := scanAll (String.length s) m s.

(** The first match of a non-global regex. *)
Fixpoint firstMatch {A} (m : string -> option (A * string)) (s : string)
  : option A :=
  match m s with
  | Some (a, _) => Some a
  | None => match s with
            | EmptyString => None
            | String _ r => firstMatch m r
            end
  end.

Definition is_char (c : ascii) (d : ascii) : bool := Ascii.eqb c d.

(** The block regex of [Image] and [Pixels] at the start of [s]: the
    tag name, one white space, the attribute text (a run without [>]),
    [>], then the body up to the first closing tag. *)
Definition matchBlockAt (tagName : string) (s : string)
  : option ((string * string) * string) :=
  if String.prefix ("<" ++ tagName) s then
    match sdrop (S (String.length tagName)) s with
    | String c r =>
        if is_js_ws c then
          let '(attrs, r1) := spanStr (fun d => negb (is_char d ">"%char)) r in
          match r1 with
          | String _ r2 =>
              match findSub ("</" ++ tagName ++ ">") r2 with
              | Some (body, after) => Some ((attrs, body), after)
              | None => None
              end
          | EmptyString => None
          end
        else None
    | EmptyString => None
    end
  else None.

(** The channel regex at the start of [s]: [<Channel], one white space,
    a captured run without [/] and [>], an optional [/], then [>]. *)
Definition matchChannelAt (s : string) : option (string * string) :=
  if String.prefix "<Channel" s then
    match sdrop 8 s with
    | String c r =>
        if is_js_ws c then
          let '(g, r1) :=
            spanStr (fun d => negb (is_char d "/"%char || is_char d ">"%char)) r in
          match r1 with
          | String d r2 =>
              if is_char d ">"%char then Some (g, r2)
              else match r2 with
                   | String e r3 => if is_char e ">"%char then Some (g, r3)
                                    else None
                   | EmptyString => None
                   end
          | EmptyString => None
          end
        else None
    | EmptyString => None
    end
  else None.

(** [\w]. *)
Definition is_word (c : ascii) : bool :=
  let n := Z.of_nat (nat_of_ascii c) in
  ((48 <=? n) && (n <=? 57)) || ((65 <=? n) && (n <=? 90)) ||
  ((97 <=? n) && (n <=? 122)) || (n =? 95).

(** The attribute regex at the start of [s]: a captured run of word
    characters, [=], a double quote, a captured run without double
    quotes, a double quote. *)
Definition matchAttrAt (s : string) : option ((string * string) * string) :=
  let '(name, r) := spanStr is_word s in
  match name, r with
  | String _ _, String e (String q r1) =>
      if is_char e "="%char && is_char q dq then
        let '(v, r2) := spanStr (fun d => negb (is_char d dq)) r1 in
        match r2 with
        | String _ r3 => Some ((name, v), r3)
        | EmptyString => None
        end
      else None
  | _, _ => None
  end.

(** [parseAttributes]: later occurrences of a name overwrite earlier ones. *)
Definition parseAttributes (attrString : string) : list (string * string) :=
  execAll matchAttrAt attrString.

Definition attrGet (attrs : list (string * string)) (k : string)
  : option string :=
  option_map snd (find (fun kv => String.eqb (fst kv) k) (rev attrs)).

Definition parseIntOpt (v : option string) (dflt : string) : num :=
  parseInt10 (match v with Some s => s | None => dflt end).

(** The fields of a parsed [OmeImage] the round trip compares. *)
Record ParsedImage : Type := mkParsedImage {
  pi_id : string;
  pi_sizeX : num; pi_sizeY : num; pi_sizeZ : num;
  pi_sizeC : num; pi_sizeT : num;
  pi_dimensionOrder : DimensionOrder;
  pi_type : string;
  pi_channelIds : list string
}.

(** Channel IDs, with [Channel:0:<channels.length>] for a missing [ID]. *)
Fixpoint channelIds (groups : list string) (n : Z) : list string :=
  match groups with
  | nil => nil
  | g :: r =>
      match attrGet (parseAttributes g) "ID" with
      | Some i => i
      | None => "Channel:0:" ++ Z_to_dec n
      end :: channelIds r (n + 1)
  end.

(** Default channels for [SizeC] when none was found. *)
Definition defaultChannelIds (sizeC : num) : list string :=
  match sizeC with
  | Fin n => map (fun c => "Channel:0:" ++ Z_to_dec c) (zrange (Z.to_nat n))
  | NaN => nil
  end.

(** [parseOmeXml]; [None] is the "Invalid DimensionOrder" throw. *)
Definition parseOmeXml (xml : string) : option (list ParsedImage) :=
  fold_left (fun acc im =>
    match acc with
    | None => None
    | Some images =>
        let '(imageAttrsStr, imageBody) := im in
        match firstMatch (matchBlockAt "Pixels") imageBody with
        | None => Some images
        | Some (pixelAttrsStr, pixelsBody) =>
            let imageAttrs := parseAttributes imageAttrsStr in
            let pixelAttrs := parseAttributes pixelAttrsStr in
            let chs := channelIds (execAll matchChannelAt pixelsBody) 0 in
            match match attrGet pixelAttrs "DimensionOrder" with
                  | Some v => dimensionOrderOfString v
                  | None => None
                  end with
            | None => None
            | Some d =>
                let sizeC := parseIntOpt (attrGet pixelAttrs "SizeC") "1" in
                let img := mkParsedImage
                  (match attrGet imageAttrs "ID" with
                   | Some i => i
                   | None => "Image:" ++ Z_to_dec (Z.of_nat (List.length images))
                   end)
                  (parseIntOpt (attrGet pixelAttrs "SizeX") "undefined")
                  (parseIntOpt (attrGet pixelAttrs "SizeY") "undefined")
                  (parseIntOpt (attrGet pixelAttrs "SizeZ") "1")
                  sizeC
                  (parseIntOpt (attrGet pixelAttrs "SizeT") "1")
                  d
                  (match attrGet pixelAttrs "Type" with
                   | Some t => t | None => "uint16" end)
                  (match chs with
                   | nil => defaultChannelIds sizeC
                   | _ => chs
                   end) in
                Some (images ++ img :: nil)%list
            end
        end
    end) (execAll (matchBlockAt "Image") xml) (Some nil).

(** A 64 x 32 image with two channels and no physical sizes; its omero
    channel labels are "DAPI/405" and "GFP", or "DAPI" and "GFP". *)
Definition twoChannelDims : DimensionInfo := mkDimensionInfo 64 32 1 2 1.
Definition noPhysicalSizes : PhysicalSizeInfo :=
  mkPhysicalSizeInfo None None None None None None.
Definition slashLabels : option (list OmeroChannel) :=
  Some (mkOmeroChannel (Some "DAPI/405") "0000FF" ::
        mkOmeroChannel (Some "GFP") "00FF00" :: nil).
Definition plainLabels : option (list OmeroChannel) :=
  Some (mkOmeroChannel (Some "DAPI") "0000FF" ::
        mkOmeroChannel (Some "GFP") "00FF00" :: nil).

(* ------------------------------------------------------------------ *)
(** ** Data types ([src/src/dtypes.ts] tiffDtypeToZarr, omePixelTypeToZarr) *)

Definition SAMPLE_FORMAT_UINT := 1.
Definition SAMPLE_FORMAT_INT := 2.
Definition SAMPLE_FORMAT_FLOAT := 3.

(** [tiffDtypeToZarr]; [None] is each of its four throws. *)
Definition tiffDtypeToZarr (sampleFormat bitsPerSample : Z)
  : option ZarrDataType :=
  if sampleFormat =? SAMPLE_FORMAT_UINT then
    if bitsPerSample =? 8 then Some Uint8
    else if bitsPerSample =? 16 then Some Uint16
    else if bitsPerSample =? 32 then Some Uint32
    else None
  else if sampleFormat =? SAMPLE_FORMAT_INT then
    if bitsPerSample =? 8 then Some Int8
    else if bitsPerSample =? 16 then Some Int16
    else if bitsPerSample =? 32 then Some Int32
    else None
  else if sampleFormat =? SAMPLE_FORMAT_FLOAT then
    if bitsPerSample =? 32 then Some Float32
    else if bitsPerSample =? 64 then Some Float64
    else None
  else None.

(** [toLowerCase] on ASCII letters. *)
Definition lowerAscii (c : ascii) : ascii :=
  let n := nat_of_ascii c in
  if (65 <=? n)%nat && (n <=? 90)%nat then ascii_of_nat (n + 32) else c.

Fixpoint toLowerCase (s : string) : string :=
  match s with
  | EmptyString => EmptyString
  | String c r => String (lowerAscii c) (toLowerCase r)
  end.

(** The names of [Object.prototype]: [obj[key]] on an object literal finds
    these when the literal has no own property [key]. *)
Definition objectProtoKeys : list string :=
  ["constructor"; "__defineGetter__"; "__defineSetter__"; "hasOwnProperty";
   "__lookupGetter__"; "__lookupSetter__"; "isPrototypeOf";
   "propertyIsEnumerable"; "toString"; "valueOf"; "__proto__";
   "toLocaleString"].

(** What [obj[key]] gives on an object literal: an own value, an
    inherited member of [Object.prototype] (a function or object, hence
    truthy and not nullish), or [undefined]. *)
Inductive JsLookup (A : Type) : Type :=
| Own (v : A)
| Inherited (name : string).
Arguments Own {A} v.
Arguments Inherited {A} name.

Definition jsObjGet {A : Type} (table : list (string * A)) (key : string)
  : option (JsLookup A) :=
  match find (fun kv => String.eqb (fst kv) key) table with
  | Some (_, v) => Some (Own v)
  | None => if existsb (String.eqb key) objectProtoKeys
            then Some (Inherited key) else None
  end.

(** The lookup table of [omePixelTypeToZarr]. *)
Definition omePixelTypeMap : list (string * ZarrDataType) :=
  [("int8", Int8); ("int16", Int16); ("int32", Int32); ("uint8", Uint8);
   ("uint16", Uint16); ("uint32", Uint32); ("float", Float32);
   ("double", Float64)].

(** [omePixelTypeToZarr]; [None] is the "Unsupported OME pixel type"
    throw, and an inherited member is returned as it is (it is truthy). *)
Definition omePixelTypeToZarr (omeType : string)
  : option (JsLookup ZarrDataType) :=
  let lower := toLowerCase omeType in
  jsObjGet omePixelTypeMap lower.

(* ------------------------------------------------------------------ *)
(** ** Units ([src/src/ome-xml.ts] normalizeUnit) *)

Definition mu_m : string :=
  String (ascii_of_nat 194) (String (ascii_of_nat 181) "m").
Definition greek_mu_m : string :=
  String (ascii_of_nat 206) (String (ascii_of_nat 188) "m").

(** The table of [normalizeUnit]; the two micro signs are their UTF-8
    bytes. *)
Definition normalizeUnitMap : list (string * string) :=
  [(mu_m, "micrometer"); (greek_mu_m, "micrometer"); ("um", "micrometer");
   ("micrometer", "micrometer"); ("nm", "nanometer");
   ("nanometer", "nanometer"); ("mm", "millimeter");
   ("millimeter", "millimeter"); ("cm", "centimeter");
   ("centimeter", "centimeter"); ("m", "meter"); ("meter", "meter")].

(** [normalizeUnit]: [undefined] for a missing or empty unit, else the
    table's value ([??] keeps an inherited member, which is not nullish),
    else the unit itself. *)
Definition normalizeUnit (unit : option string)
  : option (JsLookup string) :=
  match unit with
  | None => None
  | Some u =>
      if String.eqb u "" then None
      else match jsObjGet normalizeUnitMap u with
           | Some r => Some r
           | None => Some (Own u)
           end
  end.

(* ------------------------------------------------------------------ *)
(** ** Characters of a string *)

Fixpoint hasChar (c : ascii) (s : string) : bool :=
  match s with
  | EmptyString => false
  | String d r => Ascii.eqb d c || hasChar c r
  end.

(* ------------------------------------------------------------------ *)
(** ** Colours ([src/src/dtypes.ts] omeIntToHexColor) *)

(** [x >>> k]: ToUint32, then a logical shift. *)
Definition js_ushr (x : Z) (k : Z) : Z := Z.shiftr (x mod 2 ^ 32) (k mod 32).

Definition hexChar (d : Z) : ascii :=
  ascii_of_nat (Z.to_nat (if d <? 10 then 48 + d else 87 + d)).

(** [n.toString(16)] for a nonnegative integer below [16 ^ 16]. *)
Fixpoint toHexAux (fuel : nat) (n : Z) (acc : string) : string :=
  match fuel with
  | O => acc
  | S f =>
      let acc' := String (hexChar (n mod 16)) acc in
      if n <? 16 then acc' else toHexAux f (n / 16) acc'
  end.

Definition toString16 (n : Z) : string := toHexAux 16 n "".

(** [s.padStart(2, "0")]. *)
Definition padStart2 (s : string) : string :=
  match String.length s with
  | O => "00"
  | S O => "0" ++ s
  | _ => s
  end.

(** [toUpperCase] on ASCII letters. *)
Definition upperAscii (c : ascii) : ascii :=
  let n := nat_of_ascii c in
  if (97 <=? n)%nat && (n <=? 122)%nat then ascii_of_nat (n - 32) else c.

Fixpoint toUpperCase (s : string) : string :=
  match s with
  | EmptyString => EmptyString
  | String c r => String (upperAscii c) (toUpperCase r)
  end.

Definition omeIntToHexColor (value : Z) : string :=
  let unsigned := if value <? 0 then value + 4294967296 else value in
  let r := Z.land (js_ushr unsigned 24) 255 in
  let g := Z.land (js_ushr unsigned 16) 255 in
  let b := Z.land (js_ushr unsigned 8) 255 in
  toUpperCase (padStart2 (toString16 r) ++ padStart2 (toString16 g) ++
               padStart2 (toString16 b)).

(** One colour component as [omeIntToHexColor] renders it: two
    uppercase hex digits. *)
Definition hexPair (x : Z) : string := toUpperCase (padStart2 (toString16 x)).


(** Induction over the nested [IfdInfo] and [WritableIfd] trees. *)
Section NestedInduction.
Variable P : IfdInfo -> Prop.
Hypothesis HP : forall tags tiles subs ebs ov ts,
  Forall P subs -> P (mkIfdInfo tags tiles subs ebs ov ts).
Fixpoint IfdInfo_ind2 (i : IfdInfo) : P i :=
  match i with
  | mkIfdInfo tags tiles subs ebs ov ts =>
      HP tags tiles subs ebs ov ts
        ((fix go (l : list IfdInfo) : Forall P l :=
            match l with
            | nil => Forall_nil P
            | x :: r => Forall_cons x (IfdInfo_ind2 x) (go r)
            end) subs)
  end.
Variable Q : WritableIfd -> Prop.
Hypothesis HQ : forall tags tiles subs,
  match subs with None => True | Some s => Forall Q s end ->
  Q (mkWritableIfd tags tiles subs).
Fixpoint WritableIfd_ind2 (w : WritableIfd) : Q w :=
  match w with
  | mkWritableIfd tags tiles subs =>
      HQ tags tiles subs
        (match subs return
           match subs with None => True | Some s => Forall Q s end with
         | None => I
         | Some s =>
           (fix go (l : list WritableIfd) : Forall Q l :=
              match l with
              | nil => Forall_nil Q
              | x :: r => Forall_cons x (WritableIfd_ind2 x) (go r)
              end) s
         end)
  end.
End NestedInduction.

(** The [IfdInfo] values [resolveIfdInfo] builds: sizes computed from
    their own tags and tiles, at every depth. *)
Inductive infoWf (fmt : TiffFormat) : IfdInfo -> Prop :=
| infoWf_intro tags tiles subs :
    Forall (infoWf fmt) subs ->
    infoWf fmt (mkIfdInfo tags tiles subs
                  (ifdEntryBlockSize (Z.of_nat (List.length tags)) fmt)
                  (overflowSize tags fmt) (totalTileSize tiles)).

(** [chainFrom a l b]: the placed IFDs of [l] occupy back-to-back regions
    (entry block, overflow, tile data) from offset [a] to offset [b]. *)
Fixpoint chainFrom (start : Z) (l : list PlacedIfd) (stop : Z) : Prop :=
  match l with
  | nil => start = stop
  | p :: r => ifdOffset p = start /\
              chainFrom (tileDataOffset p + totalTileSize (p_tiles p)) r stop
  end.

Definition placedWf (fmt : TiffFormat) (p : PlacedIfd) : Prop :=
  overflowOffset p =
    ifdOffset p + ifdEntryBlockSize (Z.of_nat (List.length (p_tags p))) fmt /\
  p_overflowSize p = overflowSize (p_tags p) fmt /\
  tileDataOffset p = overflowOffset p + p_overflowSize p.

(** Two 512 x 512 planes in 256 x 256 tiles; the first carries a
    description and one 256 x 256 SubIFD. *)
Definition pyramidIfds : list WritableIfd :=
  [mkWritableIfd (makeImageTags 512 512 8 1 CompNone (Some "<OME/>") false 256)
     [65536; 65536; 65536; 65536]
     (Some [mkWritableIfd (makeImageTags 256 256 8 1 CompNone None true 256)
              [65536] None]);
   mkWritableIfd (makeImageTags 512 512 8 1 CompNone None false 256)
     [65536; 65536; 65536; 65536] None].

(** The table of [ngffUnitToOmeUnit] (in [src/src/dtypes.ts]); the
    angstrom and micro signs are their UTF-8 bytes, as in
    [normalizeUnitMap]. *)
Definition angstrom_sym : string := String (ascii_of_nat 195) (String (ascii_of_nat 133) "").

Definition ngffUnitMap : list (string * string) :=
  [("angstrom", angstrom_sym); ("attometer", "am"); ("centimeter", "cm");
   ("decimeter", "dm"); ("exameter", "Em"); ("femtometer", "fm");
   ("foot", "ft"); ("gigameter", "Gm"); ("hectometer", "hm");
   ("inch", "in"); ("kilometer", "km"); ("megameter", "Mm");
   ("meter", "m"); ("micrometer", mu_m); ("mile", "mi");
   ("millimeter", "mm"); ("nanometer", "nm"); ("parsec", "pc");
   ("petameter", "Pm"); ("picometer", "pm"); ("terameter", "Tm");
   ("yard", "yd"); ("yoctometer", "ym"); ("yottameter", "Ym");
   ("zeptometer", "zm"); ("zettameter", "Zm")].

(** [map[unit] ?? unit]: an inherited member is not nullish. *)
Definition ngffUnitToOmeUnit (unit : string) : JsLookup string :=
  match jsObjGet ngffUnitMap unit with
  | Some r => r
  | None => Own unit
  end.

(** [String.prototype.trimEnd], on the white space of [is_js_ws]. *)
Fixpoint trimEnd (s : string) : string :=
  match s with
  | EmptyString => EmptyString
  | String c r =>
      let r' := trimEnd r in
      if String.eqb r' "" && is_js_ws c then EmptyString else String c r'
  end.

Definition trim (s : string) : string := trimEnd (trimStart s).

(** [isOmeXml]; [!description] holds for the empty string only. *)
Definition isOmeXml (description : string) : bool :=
  if String.eqb description "" then false
  else
    let trimmed := trim description in
    String.prefix "<?xml" trimmed || String.prefix "<OME" trimmed ||
    String.prefix "<ome:" trimmed.

Fixpoint hasNonWs (s : string) : bool :=
  match s with
  | EmptyString => false
  | String c r => negb (is_js_ws c) || hasNonWs r
  end.


(* ------------------------------------------------------------------ *)
(** ** Compression pass ([src/src/tiff-writer.ts] processIfdAsync) *)

(** [Array.prototype.findIndex]; [None] is [-1]. *)
Fixpoint findIndex {A} (p : A -> bool) (l : list A) : option nat :=
  match l with
  | nil => None
  | x :: r => if p x then Some O else option_map S (findIndex p r)
  end.

(** [a[i] = x] for an index inside the array. *)
Fixpoint replaceAt {A} (i : nat) (x : A) (l : list A) : list A :=
  match i, l with
  | _, nil => nil
  | O, _ :: r => x :: r
  | S k, y :: r => y :: replaceAt k x r
  end.

Definition deflateCompressionTag : TiffTag :=
  mkTiffTag TAG_COMPRESSION TIFF_TYPE_SHORT (Nums [COMPRESSION_DEFLATE]).

(** "Replace or add Compression tag". *)
Definition setDeflateCompression (tags : list TiffTag) : list TiffTag :=
  match findIndex (fun t => tag t =? TAG_COMPRESSION) tags with
  | Some compIdx => replaceAt compIdx deflateCompressionTag tags
  | None => (tags ++ [deflateCompressionTag])%list
  end.

Section ProcessIfd.
(** The compressed tiles (by byte length) of a tile list: the worker pool
    or [compressDeflateAsync] on each tile, depending on [pool] and
    [level]. *)
Variable compressTiles : list Z -> list Z.

Fixpoint processIfdAsync (ifd : WritableIfd) (compression : Compression)
  : WritableIfd :=
  match ifd with
  | mkWritableIfd tags tiles subIfds =>
      let '(tags', tiles') :=
        match compression with
        | CompDeflate => (setDeflateCompression tags, compressTiles tiles)
        | CompNone => (tags, tiles)
        end in
      mkWritableIfd tags' tiles'
        (match subIfds with
         | None => None
         | Some s => Some (map (fun sub => processIfdAsync sub compression) s)
         end)
  end.
End ProcessIfd.

(* ------------------------------------------------------------------ *)
(** ** DataView writes ([src/src/tiff-writer.ts] setBigUint64, writeHeader)

    A write is a byte offset and the byte stored there; a buffer is a
    function from offsets to bytes, and a list of writes is applied in
    order. *)

Definition ByteWrite : Type := (Z * Z)%type.

Definition applyWrites (ws : list ByteWrite) (mem : Z -> Z) : Z -> Z :=
  fold_left (fun m w => fun x => if x =? fst w then snd w else m x) ws mem.

(** [view.setUint16(off, v, true)]: [ToUint16], little-endian. *)
Definition setUint16LE (off v : Z) : list ByteWrite :=
  let u := v mod 2 ^ 16 in [(off, u mod 256); (off + 1, u / 256)].

(** [view.setUint32(off, v, true)]: [ToUint32], little-endian. *)
Definition setUint32LE (off v : Z) : list ByteWrite :=
  let u := v mod 2 ^ 32 in
  [(off, u mod 256); (off + 1, (u / 2 ^ 8) mod 256);
   (off + 2, (u / 2 ^ 16) mod 256); (off + 3, u / 2 ^ 24)].

(** [setBigUint64]: the low word [value >>> 0] and the high word
    [(value / 0x100000000) >>> 0]; [>>>] truncates the quotient toward
    zero. *)
Definition setBigUint64 (off value : Z) : list ByteWrite :=
  let lo := js_ushr value 0 in
  let hi := js_ushr (Z.quot value 4294967296) 0 in
  (setUint32LE off lo ++ setUint32LE (off + 4) hi)%list.

Definition writeHeader (fmt : TiffFormat) (firstIfdOffset : Z)
  : list ByteWrite :=
  (setUint16LE 0 18761 ++
   if magic fmt =? 42
   then setUint16LE 2 42 ++ setUint32LE 4 firstIfdOffset
   else setUint16LE 2 43 ++ setUint16LE 4 8 ++ setUint16LE 6 0 ++
        setBigUint64 8 firstIfdOffset)%list.

(** The little-endian unsigned integer of [n] bytes at [off]. *)
Fixpoint readLE (mem : Z -> Z) (off : Z) (n : nat) : Z :=
  match n with
  | O => 0
  | S k => mem off + 256 * readLE mem (off + 1) k
  end.
(* ------------------------------------------------------------------ *)
(** ** Writing one IFD ([src/src/tiff-writer.ts] writeIfd)

    [writeIfd] needs what the layout model above abstracts away: the
    count and the value bytes of each resolved tag, the bytes of each
    tile, the offsets of the SubIFDs and the next IFD.  The writes land in
    the one [ArrayBuffer] of [buildTiff]; they are listed in order, and
    which offsets they reach is stated by the theorems (the range checks
    of [DataView] and [new Uint8Array(buffer, off, len)] pass when those
    offsets lie inside the buffer). *)

(** [ResolvedTag]: [count] is an integer (a RATIONAL tag carries an even
    number of values). *)
Record ResolvedTagBytes : Type := mkResolvedTagBytes {
  rb_tag : Z;
  rb_type : Z;
  rb_count : Z;
  rb_valueBytes : list Z
}.

(** [PlacedIfd], with [subIfds.map((s) => s.ifdOffset)] in place of the
    placed SubIFDs (the only thing [writeIfd] reads of them). *)
Record PlacedIfdBytes : Type := mkPlacedIfdBytes {
  pb_ifdOffset : Z;
  pb_tags : list ResolvedTagBytes;
  pb_overflowOffset : Z;
  pb_overflowSize : Z;
  pb_tileDataOffset : Z;
  pb_tiles : list (list Z);
  pb_subIfdOffsets : list Z;
  pb_nextIfdOffset : Z
}.

(** [new Uint8Array(buffer, off, bytes.length).set(bytes)]. *)
Fixpoint writeBytes (off : Z) (bytes : list Z) : list ByteWrite :=
  match bytes with
  | [] => []
  | b :: r => (off, b) :: writeBytes (off + 1) r
  end.

(** [tileOffsets]: [tileCursor] starts at [tileDataOffset] and grows by
    each tile's length. *)
Fixpoint tileOffsetsFrom (tileCursor : Z) (tiles : list (list Z)) : list Z :=
  match tiles with
  | [] => []
  | t :: r => tileCursor :: tileOffsetsFrom (tileCursor + Z.of_nat (List.length t)) r
  end.

(** [tiles.map((t) => t.length)]. *)
Definition tileLengths (tiles : list (list Z)) : list Z :=
  map (fun t => Z.of_nat (List.length t)) tiles.

(** The loop [for (i ...) offsetSize === 8 ? setBigUint64(dv, i * 8, x[i])
    : dv.setUint32(i * 4, x[i], true)], from index [i]. *)
Fixpoint offsetWrites (fmt : TiffFormat) (i : Z) (xs : list Z) : list ByteWrite :=
  match xs with
  | [] => []
  | x :: r =>
      ((if offsetSize fmt =? 8 then setBigUint64 (i * 8) x else setUint32LE (i * 4) x) ++
       offsetWrites fmt (i + 1) r)%list
  end.

(** [valueBytes = new Uint8Array(xs.length * fmt.offsetSize)] filled by
    that loop. *)
Definition encodeOffsets (fmt : TiffFormat) (xs : list Z) : list Z :=
  let m := applyWrites (offsetWrites fmt 0 xs) (fun _ => 0) in
  map m (zrange (Z.to_nat (Z.of_nat (List.length xs) * offsetSize fmt))).

Definition isOffsetTag (t : Z) : bool := (t =? TAG_TILE_OFFSETS) || (t =? TAG_STRIP_OFFSETS).
Definition isByteCountTag (t : Z) : bool :=
  (t =? TAG_TILE_BYTE_COUNTS) || (t =? TAG_STRIP_BYTE_COUNTS).

(** The three patches of [writeIfd], in order: offsets, byte counts,
    SubIFD offsets. *)
Definition patchValueBytes (fmt : TiffFormat) (p : PlacedIfdBytes) (t : ResolvedTagBytes)
  : list Z :=
  let valueBytes := rb_valueBytes t in
  let valueBytes :=
    if isOffsetTag (rb_tag t)
    then encodeOffsets fmt (tileOffsetsFrom (pb_tileDataOffset p) (pb_tiles p))
    else valueBytes in
  let valueBytes :=
    if isByteCountTag (rb_tag t)
    then encodeOffsets fmt (tileLengths (pb_tiles p))
    else valueBytes in
  if (rb_tag t =? TAG_SUB_IFDS) && (0 <? Z.of_nat (List.length (pb_subIfdOffsets p)))
  then encodeOffsets fmt (pb_subIfdOffsets p)
  else valueBytes.

(** One pass of the tag loop, from [(pos, overflowCursor)]. *)
Definition writeEntry (fmt : TiffFormat) (p : PlacedIfdBytes) (st : Z * Z)
  (t : ResolvedTagBytes) : list ByteWrite * (Z * Z) :=
  let '(pos, overflowCursor) := st in
  let isBig := magic fmt =? 43 in
  let head :=
    if isBig
    then (setUint16LE pos (rb_tag t) ++ setUint16LE (pos + 2) (rb_type t) ++
          setBigUint64 (pos + 4) (rb_count t))%list
    else (setUint16LE pos (rb_tag t) ++ setUint16LE (pos + 2) (rb_type t) ++
          setUint32LE (pos + 4) (rb_count t))%list in
  let valueFieldOffset := if isBig then pos + 12 else pos + 8 in
  let valueBytes := patchValueBytes fmt p t in
  let n := Z.of_nat (List.length valueBytes) in
  if n <=? inlineThreshold fmt
  then ((head ++ writeBytes valueFieldOffset (repeat 0 (Z.to_nat (inlineThreshold fmt))) ++
         writeBytes valueFieldOffset valueBytes)%list,
        (pos + ifdEntrySize fmt, overflowCursor))
  else ((head ++ (if offsetSize fmt =? 8 then setBigUint64 valueFieldOffset overflowCursor
                  else setUint32LE valueFieldOffset overflowCursor) ++
         writeBytes overflowCursor valueBytes)%list,
        (pos + ifdEntrySize fmt,
         overflowCursor + n + (if negb (n mod 2 =? 0) then 1 else 0))).

(** How [writeEntry] moves the overflow cursor for a value of [n] bytes. *)
Definition ovStep (fmt : TiffFormat) (c n : Z) : Z :=
  if n <=? inlineThreshold fmt then c
  else c + n + (if negb (n mod 2 =? 0) then 1 else 0).

Fixpoint writeEntries (fmt : TiffFormat) (p : PlacedIfdBytes) (st : Z * Z)
  (tags : list ResolvedTagBytes) : list ByteWrite * (Z * Z) :=
  match tags with
  | [] => ([], st)
  | t :: r =>
      let '(w1, st1) := writeEntry fmt p st t in
      let '(w2, st2) := writeEntries fmt p st1 r in
      ((w1 ++ w2)%list, st2)
  end.

(** The tile loop: [tilePos] starts at [tileDataOffset]. *)
Fixpoint writeTiles (tilePos : Z) (tiles : list (list Z)) : list ByteWrite :=
  match tiles with
  | [] => []
  | t :: r => (writeBytes tilePos t ++ writeTiles (tilePos + Z.of_nat (List.length t)) r)%list
  end.

Definition writeIfd (p : PlacedIfdBytes) (fmt : TiffFormat) : list ByteWrite :=
  let isBig := magic fmt =? 43 in
  let pos := pb_ifdOffset p in
  let numTags := Z.of_nat (List.length (pb_tags p)) in
  let countW := if isBig then setBigUint64 pos numTags else setUint16LE pos numTags in
  let pos := if isBig then pos + 8 else pos + 2 in
  let '(entryW, (pos, _)) := writeEntries fmt p (pos, pb_overflowOffset p) (pb_tags p) in
  let nextW :=
    if isBig then setBigUint64 pos (pb_nextIfdOffset p)
    else setUint32LE pos (pb_nextIfdOffset p) in
  (countW ++ entryW ++ nextW ++ writeTiles (pb_tileDataOffset p) (pb_tiles p))%list.

(** The layout view of a [PlacedIfdBytes]: tags and tiles by length. *)
Definition toResolvedTag (t : ResolvedTagBytes) : ResolvedTag :=
  mkResolvedTag (rb_tag t) (rb_type t) (Z.of_nat (List.length (rb_valueBytes t))).

Definition toPlacedIfd (p : PlacedIfdBytes) : PlacedIfd :=
  mkPlacedIfd (pb_ifdOffset p) (map toResolvedTag (pb_tags p)) (pb_overflowOffset p)
    (pb_overflowSize p) (pb_tileDataOffset p) (tileLengths (pb_tiles p)).

(** The value of every offset, byte-count and SubIFDs tag already has the
    length the patch of [writeIfd] gives it, as the placeholders of
    [resolveIfdInfo] have. *)
Definition placeholdersSized (fmt : TiffFormat) (p : PlacedIfdBytes) : Prop :=
  Forall (fun t =>
    ((isOffsetTag (rb_tag t) || isByteCountTag (rb_tag t)) = true ->
       Z.of_nat (List.length (rb_valueBytes t)) =
         Z.of_nat (List.length (pb_tiles p)) * offsetSize fmt) /\
    (rb_tag t = TAG_SUB_IFDS -> pb_subIfdOffsets p <> [] ->
       Z.of_nat (List.length (rb_valueBytes t)) =
         Z.of_nat (List.length (pb_subIfdOffsets p)) * offsetSize fmt)) (pb_tags p).


(** A classic IFD at offset [8] with two tags (ImageWidth, inline, and
    TileOffsets, whose [8] bytes overflow) and two tiles of [3] bytes:
    entries up to [38], overflow up to [46], tiles up to [52]. *)
Definition sampleIfdBytes : PlacedIfdBytes :=
  mkPlacedIfdBytes 8
    [mkResolvedTagBytes TAG_IMAGE_WIDTH TIFF_TYPE_SHORT 1 [2; 0];
     mkResolvedTagBytes TAG_TILE_OFFSETS TIFF_TYPE_LONG 2 (repeat 0 8)]
    38 8 46 [[1; 2; 3]; [4; 5; 6]] [] 0.
(* ================================================================== *)
(** * Properties *)

Example getIfdIndex_ex :
  getIfdIndex (Fin 1) (Fin 0) (Fin 0)
    (mkOmePixels (Fin 8) (Fin 8) (Fin 2) (Fin 3) (Fin 2) XYTZC "uint8"
       None None None None None None false false [] []) = Fin 4.
Proof. reflexivity. Qed.

Example ifdIndexToPlane_ex :
  ifdIndexToPlane 4 (mkDimensionInfo 8 8 2 3 2) "XYTZC" = (1, 0, 0).
Proof. reflexivity. Qed.

(** Mixed-radix decomposition used by [ifdIndexToPlane]. *)
Lemma mixed_radix_decomp (a b c A B : Z) :
  0 <= a < A -> 0 <= b < B -> 0 <= c ->
  Z.rem (a + A * b + A * B * c) A = a /\
  Z.rem ((a + A * b + A * B * c) / A) B = b /\
  (a + A * b + A * B * c) / (A * B) = c.
Proof.
  intros Ha Hb Hc.
  assert (HAb : 0 <= A * b) by (apply Z.mul_nonneg_nonneg; lia).
  assert (HABc : 0 <= A * B * c) by (apply Z.mul_nonneg_nonneg; [apply Z.mul_nonneg_nonneg|]; lia).
  assert (HBc : 0 <= B * c) by (apply Z.mul_nonneg_nonneg; lia).
  assert (Hdiv : (a + A * b + A * B * c) / A = b + B * c).
  { replace (a + A * b + A * B * c) with (a + (b + B * c) * A) by ring.
    rewrite Z.div_add by lia. rewrite Z.div_small by lia. lia. }
  repeat split.
  - rewrite Z.rem_mod_nonneg by lia.
    replace (a + A * b + A * B * c) with (a + (b + B * c) * A) by ring.
    rewrite Z.mod_add by lia. apply Z.mod_small; lia.
  - rewrite Hdiv. rewrite Z.rem_mod_nonneg by lia.
    replace (b + B * c) with (b + c * B) by ring.
    rewrite Z.mod_add by lia. apply Z.mod_small; lia.
  - rewrite <- Z.div_div by lia. rewrite Hdiv.
    replace (b + B * c) with (b + c * B) by ring.
    rewrite Z.div_add by lia. rewrite Z.div_small by lia. lia.
Qed.

(** C1: for every DimensionOrder and every valid plane selection, the
    writer's [ifdIndexToPlane] inverts [getIfdIndex] (same sizes, same
    order). *)
Theorem ifd_index_roundtrip (p : OmePixels) (dims : DimensionInfo) (c z t : Z) :
  sizeZ p = Fin (di_sizeZ dims) ->
  sizeC p = Fin (di_sizeC dims) ->
  sizeT p = Fin (di_sizeT dims) ->
  0 <= c < di_sizeC dims -> 0 <= z < di_sizeZ dims -> 0 <= t < di_sizeT dims ->
  exists n, getIfdIndex (Fin c) (Fin z) (Fin t) p = Fin n /\
    ifdIndexToPlane n dims (dimensionOrderString (dimensionOrder p)) = (c, z, t).
Proof.
  intros HZ HC HT Hc Hz Ht.
  destruct dims as [sx sy sZ sC sT]; simpl in *.
  unfold getIfdIndex; rewrite HZ, HC, HT.
  destruct (dimensionOrder p); simpl; eexists; split; try reflexivity;
    unfold ifdIndexToPlane, charAt, sizeMapLookup; simpl.
  - destruct (mixed_radix_decomp z c t sZ sC) as (H0 & H1 & H2); try lia.
    rewrite H0, H1, H2; reflexivity.
  - destruct (mixed_radix_decomp z t c sZ sT) as (H0 & H1 & H2); try lia.
    rewrite H0, H1, H2; reflexivity.
  - destruct (mixed_radix_decomp c t z sC sT) as (H0 & H1 & H2); try lia.
    rewrite H0, H1, H2; reflexivity.
  - destruct (mixed_radix_decomp c z t sC sZ) as (H0 & H1 & H2); try lia.
    rewrite H0, H1, H2; reflexivity.
  - destruct (mixed_radix_decomp t c z sT sC) as (H0 & H1 & H2); try lia.
    rewrite H0, H1, H2; reflexivity.
  - destruct (mixed_radix_decomp t z c sT sZ) as (H0 & H1 & H2); try lia.
    rewrite H0, H1, H2; reflexivity.
Qed.

Lemma ifd_index_roundtrip_witness :
  exists n,
    getIfdIndex (Fin 2) (Fin 1) (Fin 1)
      (mkOmePixels (Fin 4) (Fin 4) (Fin 2) (Fin 3) (Fin 2) XYZTC "uint8"
         None None None None None None false false [] []) = Fin n /\
    ifdIndexToPlane n (mkDimensionInfo 4 4 2 3 2) "XYZTC" = (2, 1, 1).
Proof.
  apply (ifd_index_roundtrip
           (mkOmePixels (Fin 4) (Fin 4) (Fin 2) (Fin 3) (Fin 2) XYZTC "uint8"
              None None None None None None false false [] [])
           (mkDimensionInfo 4 4 2 3 2) 2 1 1);
    simpl; try reflexivity; lia.
Defined.

(** The pixels of scenario S4: XYTZC with SizeZ=2, SizeC=3, SizeT=2. *)
(** C5: [getIfdIndex] is the spec's formula
    [i0 + size(d0) * i1 + size(d0) * size(d1) * i2] for every order, and on
    the XYTZC example (SizeZ=2, SizeC=3, SizeT=2) it gives 4, 2, 1, 0 for
    (c,z,t) = (1,0,0), (0,1,0), (0,0,1), (0,0,0). *)
Theorem getIfdIndex_formula :
  (forall c z t p, getIfdIndex c z t p = ifdIndexBySpec c z t p) /\
  getIfdIndex (Fin 1) (Fin 0) (Fin 0) s4Pixels = Fin 4 /\
  getIfdIndex (Fin 0) (Fin 1) (Fin 0) s4Pixels = Fin 2 /\
  getIfdIndex (Fin 0) (Fin 0) (Fin 1) s4Pixels = Fin 1 /\
  getIfdIndex (Fin 0) (Fin 0) (Fin 0) s4Pixels = Fin 0.
Proof.
  split; [| repeat split; reflexivity].
  intros c z t p. unfold getIfdIndex, ifdIndexBySpec.
  destruct (dimensionOrder p); reflexivity.
Qed.

Lemma filter_map_all_true {A B : Type} (f : B -> bool) (g : A -> B) (l : list A) :
  (forall x, f (g x) = true) -> filter f (map g l) = map g l.
Proof.
  intros H. induction l as [|x l IH]; simpl; [reflexivity|].
  rewrite H, IH. reflexivity.
Qed.

Lemma filter_map_all_false {A B : Type} (f : B -> bool) (g : A -> B) (l : list A) :
  (forall x, f (g x) = false) -> filter f (map g l) = [].
Proof.
  intros H. induction l as [|x l IH]; simpl; [reflexivity|].
  rewrite H, IH. reflexivity.
Qed.

Lemma filter_forallb_id {A : Type} (f : A -> bool) (l : list A) :
  forallb f l = true -> filter f l = l.
Proof.
  induction l as [|x l IH]; simpl; [reflexivity|].
  intros H. apply andb_true_iff in H as [H1 H2]. rewrite H1, IH by exact H2.
  reflexivity.
Qed.

Lemma s5_local_filter (ul ur : string) :
  ul <> ur -> ur <> "" ->
  filter (isLocalEntry (Some ul)) (s5Entries ul ur) =
  map (fun t => s5Entry 0 t ul) (zrange 20).
Proof.
  intros Hne Hr. unfold s5Entries. rewrite filter_app.
  rewrite filter_map_all_true.
  - rewrite filter_map_all_false.
    + apply app_nil_r.
    + intros t. unfold isLocalEntry, s5Entry; simpl.
      destruct (String.eqb ur "") eqn:E.
      * apply String.eqb_eq in E. contradiction.
      * apply String.eqb_neq. auto.
  - intros t. unfold isLocalEntry, s5Entry; simpl.
    destruct (String.eqb ul ""); [reflexivity | apply String.eqb_refl].
Qed.

(** C6: on scenario S5 (20 local planes of channel 0, 20 remote planes of
    channel 1), filtering with the local root UUID yields sizeC = 1,
    sizeZ = 1, sizeT = 20, the single channel [Channel:0:0] and the 20-entry
    map ["0,0,t" -> t]; when every entry is local (in particular when there
    are none) the result is [undefined] ([None]). *)
Theorem filterPixelsForFile_s5 :
  (forall (p : OmePixels) (ul ur : string),
     tiffData p = s5Entries ul ur -> ul <> ur -> ur <> "" ->
     match channels p with [] => True | ch :: _ => ch_id ch = "Channel:0:0" end ->
     exists fp,
       filterPixelsForFile p (Some ul) = Some fp /\
       sizeC (fp_pixels fp) = Fin 1 /\
       sizeZ (fp_pixels fp) = Fin 1 /\
       sizeT (fp_pixels fp) = Fin 20 /\
       map ch_id (channels (fp_pixels fp)) = ["Channel:0:0"] /\
       fp_ifdMap fp = map (fun t => ("0,0," ++ Z_to_dec t, Fin t)) (zrange 20)) /\
  (forall (p : OmePixels) (rootUuid : option string),
     forallb (isLocalEntry rootUuid) (tiffData p) = true ->
     filterPixelsForFile p rootUuid = None).
Proof.
  split.
  - intros p ul ur Htd Hne Hr Hch.
    unfold filterPixelsForFile. rewrite Htd, (s5_local_filter ul ur Hne Hr).
    destruct (channels p) as [|ch rest] eqn:Ech.
    + eexists; split; [reflexivity|]. vm_compute. repeat split.
    + destruct ch as [cid cname cspp ccol]; simpl in Hch; subst cid.
      eexists; split; [reflexivity|]. vm_compute. repeat split.
  - intros p rootUuid H. unfold filterPixelsForFile.
    rewrite (filter_forallb_id _ _ H).
    destruct (Nat.eqb (List.length (tiffData p)) 0); [reflexivity|].
    rewrite Nat.eqb_refl. reflexivity.
Qed.

Lemma filterPixelsForFile_s5_witness :
  (exists fp,
     filterPixelsForFile s5Pixels (Some "urn:uuid:a") = Some fp /\
     sizeC (fp_pixels fp) = Fin 1 /\ sizeZ (fp_pixels fp) = Fin 1 /\
     sizeT (fp_pixels fp) = Fin 20 /\
     map ch_id (channels (fp_pixels fp)) = ["Channel:0:0"] /\
     fp_ifdMap fp = map (fun t => ("0,0," ++ Z_to_dec t, Fin t)) (zrange 20)) /\
  filterPixelsForFile
    (mkOmePixels (Fin 8) (Fin 8) (Fin 1) (Fin 1) (Fin 1) XYZCT "uint8"
       None None None None None None false false [] [s5Entry 0 0 "urn:uuid:a"])
    (Some "urn:uuid:a") = None.
Proof.
  split.
  - apply (proj1 filterPixelsForFile_s5 s5Pixels "urn:uuid:a" "urn:uuid:b").
    + reflexivity.
    + discriminate.
    + discriminate.
    + reflexivity.
  - apply (proj2 filterPixelsForFile_s5). vm_compute. reflexivity.
Defined.

(* ------------------------------------------------------------------ *)
(** ** Tiling *)

Section TileProofs.
Local Open Scope list_scope.
Local Open Scope nat_scope.
Import Tiles.

Lemma subarray_length (l : list Z) (b e : nat) :
  List.length (subarray l b e) = Nat.min e (List.length l) - Nat.min b (List.length l).
Proof.
  unfold subarray. rewrite length_firstn, length_skipn. lia.
Qed.

Lemma subarray_nth (l : list Z) (b e j : nat) :
  b <= e -> j < e - b -> nth j (subarray l b e) 0%Z = nth (b + j) l 0%Z.
Proof.
  intros Hbe Hj. destruct (Nat.lt_ge_cases j (List.length (subarray l b e))) as [Hlt|Hge].
  - unfold subarray in *. rewrite nth_firstn.
    rewrite length_firstn, length_skipn in Hlt.
    destruct (Nat.ltb_spec j (Nat.min e (List.length l) - Nat.min b (List.length l)));
      [|lia].
    rewrite nth_skipn. f_equal. lia.
  - rewrite (nth_overflow _ _ Hge). rewrite subarray_length in Hge.
    rewrite nth_overflow; [reflexivity | lia].
Qed.

Lemma u8_set_some (dst src : list Z) (off : nat) :
  off + List.length src <= List.length dst ->
  u8_set dst src off = Some (firstn off dst ++ src ++ skipn (off + List.length src) dst).
Proof.
  intros H. unfold u8_set. destruct (Nat.ltb_spec (List.length dst) (off + List.length src));
    [lia | reflexivity].
Qed.

Lemma u8_set_nth (dst src : list Z) (off i : nat) :
  off + List.length src <= List.length dst ->
  nth i (firstn off dst ++ src ++ skipn (off + List.length src) dst) 0%Z =
  if (off <=? i) && (i <? off + List.length src) then nth (i - off) src 0%Z
  else nth i dst 0%Z.
Proof.
  intros H.
  destruct (Nat.lt_ge_cases i off) as [H1|H1].
  - rewrite app_nth1 by (rewrite length_firstn; lia).
    rewrite nth_firstn. destruct (Nat.ltb_spec i off); [|lia].
    destruct (Nat.leb_spec off i); [lia|reflexivity].
  - rewrite app_nth2 by (rewrite length_firstn; lia).
    rewrite length_firstn. replace (Nat.min off (List.length dst)) with off by lia.
    destruct (Nat.lt_ge_cases (i - off) (List.length src)) as [H2|H2].
    + rewrite app_nth1 by exact H2.
      destruct (Nat.leb_spec off i); [|lia]. destruct (Nat.ltb_spec i (off + List.length src)); [|lia].
      reflexivity.
    + rewrite app_nth2 by exact H2. rewrite nth_skipn.
      destruct (Nat.leb_spec off i); [|lia].
      destruct (Nat.ltb_spec i (off + List.length src)); [lia|].
      simpl. f_equal. lia.
Qed.

Lemma length_u8_set_result (dst src : list Z) (off : nat) :
  off + List.length src <= List.length dst ->
  List.length (firstn off dst ++ src ++ skipn (off + List.length src) dst) = List.length dst.
Proof.
  intros H. rewrite !length_app, length_firstn, length_skipn. lia.
Qed.

Lemma div_eq_of_bounds (i q d : nat) : q * d <= i -> i < q * d + d -> i / d = q.
Proof.
  intros H1 H2. symmetry. apply (Nat.div_unique i d q (i - q * d)); lia.
Qed.

Lemma mod_eq_of_bounds (i q d : nat) : q * d <= i -> i < q * d + d -> i mod d = i - q * d.
Proof.
  intros H1 H2. symmetry. apply (Nat.mod_unique i d q (i - q * d)); lia.
Qed.

(** The content of a tile after its first [n] rows have been copied. *)
Definition tileAfter (planeBytes : list Z) (rowBytes tileRowBytes tileBytes startY
  startXBytes validRowBytes n : nat) : list Z :=
  map (fun i =>
         if (i / tileRowBytes <? n) && (i mod tileRowBytes <? validRowBytes)
         then nth ((startY + i / tileRowBytes) * rowBytes + startXBytes
                   + i mod tileRowBytes) planeBytes 0%Z
         else 0%Z)
    (seq 0 tileBytes).

Lemma tileAfter_nth pb rB tRB tB sY sXB vRB n i :
  i < tB ->
  nth i (tileAfter pb rB tRB tB sY sXB vRB n) 0%Z =
  if (i / tRB <? n) && (i mod tRB <? vRB)
  then nth ((sY + i / tRB) * rB + sXB + i mod tRB) pb 0%Z else 0%Z.
Proof.
  intros Hi. unfold tileAfter.
  set (f := fun i => if (i / tRB <? n) && (i mod tRB <? vRB)
         then nth ((sY + i / tRB) * rB + sXB + i mod tRB) pb 0%Z else 0%Z).
  rewrite (nth_indep (map f (seq 0 tB)) 0%Z (f 0))
    by (rewrite length_map, length_seq; exact Hi).
  rewrite map_nth, seq_nth by exact Hi. reflexivity.
Qed.

Lemma tileAfter_length pb rB tRB tB sY sXB vRB n :
  List.length (tileAfter pb rB tRB tB sY sXB vRB n) = tB.
Proof. unfold tileAfter. rewrite length_map, length_seq. reflexivity. Qed.

Lemma tileAfter_zero pb rB tRB tB sY sXB vRB :
  tileAfter pb rB tRB tB sY sXB vRB 0 = u8_zeros tB.
Proof.
  apply nth_ext with (d := 0%Z) (d' := 0%Z).
  - rewrite tileAfter_length. unfold u8_zeros. rewrite repeat_length. reflexivity.
  - intros i Hi. rewrite tileAfter_length in Hi. rewrite tileAfter_nth by exact Hi.
    unfold u8_zeros. rewrite nth_repeat. reflexivity.
Qed.

Lemma tileAfter_step pb rB tRB tB sY sXB vRB n :
  0 < tRB -> vRB <= tRB -> S n * tRB <= tB ->
  u8_set (tileAfter pb rB tRB tB sY sXB vRB n)
    (subarray pb ((sY + n) * rB + sXB) ((sY + n) * rB + sXB + vRB)) (n * tRB) =
  Some (tileAfter pb rB tRB tB sY sXB vRB (S n)).
Proof.
  intros HtRB HvRB HtB.
  set (src := (sY + n) * rB + sXB).
  set (sub := subarray pb src (src + vRB)).
  assert (Hsub : List.length sub = Nat.min (src + vRB) (List.length pb)
                                   - Nat.min src (List.length pb))
    by apply subarray_length.
  assert (HSn : S n * tRB = tRB + n * tRB) by reflexivity.
  assert (Hfit : n * tRB + List.length sub <= List.length (tileAfter pb rB tRB tB sY sXB vRB n))
    by (rewrite tileAfter_length; lia).
  rewrite (u8_set_some _ _ _ Hfit). f_equal.
  apply nth_ext with (d := 0%Z) (d' := 0%Z).
  - rewrite (length_u8_set_result _ _ _ Hfit), !tileAfter_length. reflexivity.
  - intros i Hi. rewrite (length_u8_set_result _ _ _ Hfit), tileAfter_length in Hi.
    rewrite (u8_set_nth _ _ _ _ Hfit), !tileAfter_nth by exact Hi.
    destruct (Nat.leb_spec (n * tRB) i) as [Hlo|Hlo];
      destruct (Nat.ltb_spec i (n * tRB + List.length sub)) as [Hhi|Hhi]; simpl.
    + rewrite (div_eq_of_bounds i n tRB) by lia.
      rewrite (mod_eq_of_bounds i n tRB) by lia.
      destruct (Nat.ltb_spec n (S n)); [|lia].
      destruct (Nat.ltb_spec (i - n * tRB) vRB); [|lia]. simpl.
      unfold sub. rewrite subarray_nth by lia. unfold src. reflexivity.
    + pose proof (Nat.div_mod_eq i tRB) as Hdm.
      pose proof (Nat.mod_upper_bound i tRB ltac:(lia)) as Hmb.
      destruct (Nat.eq_dec (i / tRB) n) as [Hq|Hq].
      * rewrite Hq in *.
        destruct (Nat.ltb_spec n n); [lia|].
        destruct (Nat.ltb_spec n (S n)); [|lia].
        destruct (Nat.ltb_spec (i mod tRB) vRB); simpl; [|reflexivity].
        rewrite nth_overflow; [reflexivity|]. fold src. lia.
      * destruct (Nat.ltb_spec (i / tRB) n); destruct (Nat.ltb_spec (i / tRB) (S n));
          try lia; reflexivity.
    + pose proof (Nat.div_mod_eq i tRB) as Hdm.
      pose proof (Nat.mod_upper_bound i tRB ltac:(lia)) as Hmb.
      assert (Hq : i / tRB < n).
      { destruct (Nat.lt_ge_cases (i / tRB) n) as [H|H]; [exact H|].
        assert (n * tRB <= i / tRB * tRB) by (apply Nat.mul_le_mono_r; exact H). lia. }
      destruct (Nat.ltb_spec (i / tRB) n); [|lia].
      destruct (Nat.ltb_spec (i / tRB) (S n)); [|lia]. reflexivity.
    + pose proof (Nat.div_mod_eq i tRB) as Hdm.
      pose proof (Nat.mod_upper_bound i tRB ltac:(lia)) as Hmb.
      assert (Hq : i / tRB < n).
      { destruct (Nat.lt_ge_cases (i / tRB) n) as [H|H]; [exact H|].
        assert (n * tRB <= i / tRB * tRB) by (apply Nat.mul_le_mono_r; exact H). lia. }
      destruct (Nat.ltb_spec (i / tRB) n); [|lia].
      destruct (Nat.ltb_spec (i / tRB) (S n)); [|lia]. reflexivity.
Qed.

(** A tile of [sliceTiles], as the [tileAfter] of all its valid rows. *)
Definition tileOf (planeBytes : list Z) (width height bytesPerPixel tileW tileH ty tx : nat)
  : list Z :=
  tileAfter planeBytes (width * bytesPerPixel) (tileW * bytesPerPixel)
    (tileW * tileH * bytesPerPixel) (ty * tileH) (tx * tileW * bytesPerPixel)
    (Nat.min tileW (width - tx * tileW) * bytesPerPixel)
    (Nat.min tileH (height - ty * tileH)).

Lemma sliceTile_eq pb W H bpp tW tH ty tx :
  1 <= bpp -> 1 <= tW ->
  sliceTile pb W H bpp tW tH ty tx = Some (tileOf pb W H bpp tW tH ty tx).
Proof.
  intros Hb HtW. unfold sliceTile, tileOf. cbv zeta.
  set (vR := Nat.min tH (H - ty * tH)).
  set (vRB := Nat.min tW (W - tx * tW) * bpp).
  assert (HvRB : vRB <= tW * bpp) by (apply Nat.mul_le_mono_r; lia).
  assert (HtRB : 0 < tW * bpp) by (apply Nat.mul_pos; lia).
  assert (Hgen : forall n, n <= vR ->
    fold_left
      (fun acc row =>
         match acc with
         | None => None
         | Some tile =>
             u8_set tile
               (subarray pb ((ty * tH + row) * (W * bpp) + tx * tW * bpp)
                  ((ty * tH + row) * (W * bpp) + tx * tW * bpp + vRB))
               (row * (tW * bpp))
         end) (seq 0 n) (Some (u8_zeros (tW * tH * bpp))) =
    Some (tileAfter pb (W * bpp) (tW * bpp) (tW * tH * bpp) (ty * tH) (tx * tW * bpp) vRB n)).
  { induction n as [|n IH]; intros Hn.
    - simpl. rewrite tileAfter_zero. reflexivity.
    - rewrite seq_S, fold_left_app. rewrite IH by lia. simpl.
      apply tileAfter_step; [exact HtRB | exact HvRB |].
      replace (tW * tH * bpp) with (tH * (tW * bpp)) by ring.
      apply Nat.mul_le_mono_r. unfold vR in Hn. lia. }
  apply Hgen. lia.
Qed.

Lemma sliceTiles_eq pb W H bpp tW tH :
  1 <= bpp -> 1 <= tW ->
  sliceTiles pb W H bpp tW tH =
  Some (flat_map (fun ty => map (tileOf pb W H bpp tW tH ty) (seq 0 (ceil_div W tW)))
          (seq 0 (ceil_div H tH))).
Proof.
  intros Hb HtW. unfold sliceTiles.
  generalize (seq 0 (ceil_div H tH)) as lY. generalize (seq 0 (ceil_div W tW)) as lX.
  intros lX lY.
  assert (Hin : forall ty lX acc,
    fold_left
      (fun acc tx =>
         match acc with
         | None => None
         | Some _ => pushTile acc (sliceTile pb W H bpp tW tH ty tx)
         end) lX (Some acc) = Some (acc ++ map (tileOf pb W H bpp tW tH ty) lX)).
  { intros ty l. induction l as [|x l IH]; intros acc; simpl.
    - rewrite app_nil_r. reflexivity.
    - rewrite sliceTile_eq by assumption. simpl. rewrite IH, <- app_assoc. reflexivity. }
  assert (Hout : forall acc,
    fold_left
      (fun acc ty =>
         fold_left
           (fun acc tx =>
              match acc with
              | None => None
              | Some _ => pushTile acc (sliceTile pb W H bpp tW tH ty tx)
              end) lX acc) lY (Some acc) =
    Some (acc ++ flat_map (fun ty => map (tileOf pb W H bpp tW tH ty) lX) lY)).
  { induction lY as [|y lY IH]; intros acc; simpl.
    - rewrite app_nil_r. reflexivity.
    - rewrite Hin, IH, <- app_assoc. reflexivity. }
  apply (Hout []).
Qed.

Lemma grid_length {A : Type} (G : nat -> nat -> A) (X Y : nat) :
  List.length (flat_map (fun ty => map (G ty) (seq 0 X)) (seq 0 Y)) = X * Y.
Proof.
  induction Y as [|Y IH]; [simpl; lia|].
  rewrite seq_S, flat_map_app, length_app, IH. simpl.
  rewrite app_nil_r, length_map, length_seq. ring.
Qed.

Lemma grid_nth {A : Type} (G : nat -> nat -> A) (X Y k : nat) (d : A) :
  k < X * Y ->
  nth k (flat_map (fun ty => map (G ty) (seq 0 X)) (seq 0 Y)) d = G (k / X) (k mod X).
Proof.
  induction Y as [|Y IH]; intros Hk; [lia|].
  rewrite seq_S, flat_map_app.
  destruct (Nat.lt_ge_cases k (X * Y)) as [H|H].
  - rewrite app_nth1 by (rewrite grid_length; exact H). apply IH. exact H.
  - rewrite app_nth2 by (rewrite grid_length; exact H). rewrite grid_length.
    simpl. rewrite app_nil_r.
    assert (HX : k - X * Y < X) by (replace (X * S Y) with (X * Y + X) in Hk by ring; lia).
    rewrite nth_indep with (d' := G Y 0) by (rewrite length_map, length_seq; exact HX).
    rewrite map_nth, seq_nth by exact HX. simpl.
    rewrite (div_eq_of_bounds k Y X) by (rewrite (Nat.mul_comm Y X); lia).
    rewrite (mod_eq_of_bounds k Y X) by (rewrite (Nat.mul_comm Y X); lia).
    f_equal. rewrite Nat.mul_comm. reflexivity.
Qed.

End TileProofs.

Section SliceTilesSpec.
Local Open Scope list_scope.
Local Open Scope nat_scope.
Import Tiles.

(** C7: for [width, height, tileW, tileH >= 1] (and [bytesPerPixel >= 1]),
    [sliceTiles] does not throw and returns [ceil(W/tileW) * ceil(H/tileH)]
    tiles in row-major order: the [k]-th is the tile at column
    [k mod ceil(W/tileW)], row [k / ceil(W/tileW)]. Each has
    [tileW * tileH * bytesPerPixel] bytes; byte [b] of pixel [(r, c)] of a
    tile is the plane's byte of pixel [(startY + r, startX + c)] when that
    pixel lies inside the image, and 0 when it lies past the image boundary. *)
Theorem sliceTiles_spec (planeBytes : list Z) (width height bytesPerPixel tileW tileH : nat) :
  1 <= width -> 1 <= height -> 1 <= bytesPerPixel -> 1 <= tileW -> 1 <= tileH ->
  exists tiles,
    sliceTiles planeBytes width height bytesPerPixel tileW tileH = Some tiles /\
    List.length tiles = ceil_div width tileW * ceil_div height tileH /\
    forall k, k < List.length tiles ->
      let tx := k mod ceil_div width tileW in
      let ty := k / ceil_div width tileW in
      List.length (nth k tiles []) = tileW * tileH * bytesPerPixel /\
      forall r c b, r < tileH -> c < tileW -> b < bytesPerPixel ->
        nth ((r * tileW + c) * bytesPerPixel + b) (nth k tiles []) 0%Z =
        if (ty * tileH + r <? height) && (tx * tileW + c <? width)
        then nth (((ty * tileH + r) * width + (tx * tileW + c)) * bytesPerPixel + b)
               planeBytes 0%Z
        else 0%Z.
Proof.
  intros HW HH Hb HtW HtH.
  eexists. split; [apply sliceTiles_eq; assumption|].
  rewrite grid_length. split; [reflexivity|].
  intros k Hk tx ty.
  rewrite (grid_nth _ _ _ _ _ Hk). fold tx ty.
  unfold tileOf. rewrite tileAfter_length. split; [reflexivity|].
  intros r c b Hr Hc Hbb.
  set (i := (r * tileW + c) * bytesPerPixel + b).
  assert (Hcb : c * bytesPerPixel + b < tileW * bytesPerPixel).
  { assert (S c * bytesPerPixel <= tileW * bytesPerPixel)
      by (apply Nat.mul_le_mono_r; lia).
    simpl in H. lia. }
  assert (Hi1 : i = r * (tileW * bytesPerPixel) + (c * bytesPerPixel + b))
    by (unfold i; ring).
  assert (HrB : S r * (tileW * bytesPerPixel) <= tileH * (tileW * bytesPerPixel))
    by (apply Nat.mul_le_mono_r; lia).
  rewrite tileAfter_nth
    by (replace (tileW * tileH * bytesPerPixel) with (tileH * (tileW * bytesPerPixel))
          by ring; simpl in HrB; lia).
  rewrite (div_eq_of_bounds i r (tileW * bytesPerPixel)) by lia.
  rewrite (mod_eq_of_bounds i r (tileW * bytesPerPixel)) by lia.
  replace (i - r * (tileW * bytesPerPixel)) with (c * bytesPerPixel + b) by lia.
  assert (E1 : (r <? Nat.min tileH (height - ty * tileH)) = (ty * tileH + r <? height)).
  { destruct (Nat.ltb_spec r (Nat.min tileH (height - ty * tileH)));
      destruct (Nat.ltb_spec (ty * tileH + r) height); lia. }
  assert (E2 : (c * bytesPerPixel + b <? Nat.min tileW (width - tx * tileW) * bytesPerPixel)
               = (tx * tileW + c <? width)).
  { set (v := Nat.min tileW (width - tx * tileW)).
    destruct (Nat.ltb_spec (c * bytesPerPixel + b) (v * bytesPerPixel)) as [H1|H1];
      destruct (Nat.ltb_spec (tx * tileW + c) width) as [H2|H2]; try reflexivity.
    - exfalso. assert (v <= c) by (unfold v; lia).
      assert (v * bytesPerPixel <= c * bytesPerPixel) by (apply Nat.mul_le_mono_r; lia).
      lia.
    - exfalso. assert (S c <= v) by (unfold v; lia).
      assert (S c * bytesPerPixel <= v * bytesPerPixel) by (apply Nat.mul_le_mono_r; lia).
      simpl in H0. lia. }
  rewrite E1, E2.
  destruct ((ty * tileH + r <? height) && (tx * tileW + c <? width)); [|reflexivity].
  f_equal. ring.
Qed.

End SliceTilesSpec.

Lemma sliceTiles_spec_witness :
  exists tiles,
    Tiles.sliceTiles (map Z.of_nat (seq 1 15)) 5 3 1 2 2 = Some tiles /\
    List.length tiles = 6%nat /\
    nth 1%nat (nth 2%nat tiles []) 0 = 0 /\
    nth 0%nat (nth 2%nat tiles []) 0 = 5.
Proof.
  destruct (sliceTiles_spec (map Z.of_nat (seq 1 15)) 5 3 1 2 2)
    as [tiles [Hs [Hl Hk]]]; try lia.
  exists tiles. split; [exact Hs|]. split; [rewrite Hl; reflexivity|].
  assert (H2 : (2 < List.length tiles)%nat) by (rewrite Hl; vm_compute; lia).
  destruct (Hk 2%nat H2) as [_ Hb]. split.
  - assert (E := Hb 0%nat 1%nat 0%nat ltac:(lia) ltac:(lia) ltac:(lia)).
    simpl in E. exact E.
  - assert (E := Hb 0%nat 0%nat 0%nat ltac:(lia) ltac:(lia) ltac:(lia)).
    simpl in E. exact E.
Defined.

(* ------------------------------------------------------------------ *)
(** ** Tiled or stripped layout *)

Lemma findTag_app (t : Z) (l1 l2 : list TiffTag) :
  findTag t (l1 ++ l2)%list =
  match findTag t l1 with Some x => Some x | None => findTag t l2 end.
Proof.
  unfold findTag. induction l1 as [|x l1 IH]; simpl; [reflexivity|].
  destruct (Z.eqb (tag x) t); [reflexivity | exact IH].
Qed.

Lemma findTag_description (t : Z) (d : option string) :
  t <> TAG_IMAGE_DESCRIPTION ->
  findTag t (match d with
             | Some d => if String.eqb d "" then []
                         else [mkTiffTag TAG_IMAGE_DESCRIPTION TIFF_TYPE_ASCII (Text d)]
             | None => [] end) = None.
Proof.
  intros Ht. destruct d as [d|]; [|reflexivity].
  destruct (String.eqb d ""); [reflexivity|].
  unfold findTag; cbn [find tag]. destruct (Z.eqb_spec TAG_IMAGE_DESCRIPTION t); [|reflexivity].
  congruence.
Qed.

Lemma findTag_subfile (t : Z) (b : bool) :
  t <> TAG_NEW_SUBFILE_TYPE ->
  findTag t (if b then [mkTiffTag TAG_NEW_SUBFILE_TYPE TIFF_TYPE_LONG (Nums [1])] else []) = None.
Proof.
  intros Ht. destruct b; [|reflexivity].
  unfold findTag; cbn [find tag]. destruct (Z.eqb_spec TAG_NEW_SUBFILE_TYPE t); [congruence|reflexivity].
Qed.

(** C10: for every [tileSize > 0], [makeImageTags] emits TileWidth and
    TileLength (and no RowsPerStrip) exactly when [width > tileSize] or
    [height > tileSize], and [slicePlane] then slices into
    [tileSize x tileSize] tiles; when [width <= tileSize] and
    [height <= tileSize] it emits RowsPerStrip = [height] and no tile tags, and
    [slicePlane] returns the whole plane as one strip. In particular a
    256 x 256 image with the default tile size 256 is stripped. *)
Theorem makeImageTags_layout :
  (forall (width height bitsPerSample sampleFormat : Z) (compression : Compression)
     (imageDescription : option string) (isSubResolution : bool) (tileSize : Z)
     (planeBytes : list Z) (bpe : Z),
   0 < tileSize ->
   let tags := makeImageTags width height bitsPerSample sampleFormat compression
                 imageDescription isSubResolution tileSize in
   ((tileSize < width \/ tileSize < height) ->
      findTag TAG_TILE_WIDTH tags = Some (mkTiffTag TAG_TILE_WIDTH TIFF_TYPE_LONG (Nums [tileSize])) /\
      findTag TAG_TILE_LENGTH tags = Some (mkTiffTag TAG_TILE_LENGTH TIFF_TYPE_LONG (Nums [tileSize])) /\
      findTag TAG_ROWS_PER_STRIP tags = None /\
      slicePlane planeBytes width height bpe tileSize =
        Tiles.sliceTiles planeBytes (Z.to_nat width) (Z.to_nat height) (Z.to_nat bpe)
          (Z.to_nat tileSize) (Z.to_nat tileSize)) /\
   (width <= tileSize -> height <= tileSize ->
      findTag TAG_TILE_WIDTH tags = None /\
      findTag TAG_TILE_LENGTH tags = None /\
      findTag TAG_ROWS_PER_STRIP tags = Some (mkTiffTag TAG_ROWS_PER_STRIP TIFF_TYPE_LONG (Nums [height])) /\
      slicePlane planeBytes width height bpe tileSize = Some [planeBytes])) /\
  (forall (planeBytes : list Z),
   let tags := makeImageTags 256 256 16 1 CompNone None false DEFAULT_TILE_SIZE in
   findTag TAG_TILE_WIDTH tags = None /\
   findTag TAG_ROWS_PER_STRIP tags = Some (mkTiffTag TAG_ROWS_PER_STRIP TIFF_TYPE_LONG (Nums [256])) /\
   slicePlane planeBytes 256 256 2 DEFAULT_TILE_SIZE = Some [planeBytes]).
Proof.
  split.
  - intros width height bps sf comp desc sub ts pb bpe Hts tags.
    assert (Hts' : (0 <? ts) = true) by (apply Z.ltb_lt; exact Hts).
    unfold tags, makeImageTags, slicePlane. rewrite Hts'. simpl andb.
    split.
    + intros Hbig.
      assert (Hc : ((ts <? width) || (ts <? height)) = true).
      { apply orb_true_iff. destruct Hbig as [H|H]; [left|right]; apply Z.ltb_lt; exact H. }
      rewrite Hc.
      rewrite !findTag_app, !findTag_subfile by (unfold TAG_NEW_SUBFILE_TYPE; discriminate).
      rewrite !findTag_description by (unfold TAG_IMAGE_DESCRIPTION; discriminate).
      repeat split; reflexivity.
    + intros Hw Hh.
      assert (Hc : ((ts <? width) || (ts <? height)) = false).
      { apply orb_false_iff. split; apply Z.ltb_ge; assumption. }
      rewrite Hc.
      rewrite !findTag_app, !findTag_subfile by (unfold TAG_NEW_SUBFILE_TYPE; discriminate).
      rewrite !findTag_description by (unfold TAG_IMAGE_DESCRIPTION; discriminate).
      repeat split; reflexivity.
  - intros pb. repeat split; reflexivity.
Qed.

Lemma makeImageTags_layout_witness :
  findTag TAG_TILE_WIDTH (makeImageTags 300 100 16 1 CompNone None false 256) =
    Some (mkTiffTag TAG_TILE_WIDTH TIFF_TYPE_LONG (Nums [256])) /\
  findTag TAG_ROWS_PER_STRIP (makeImageTags 200 80 8 1 CompDeflate (Some "x") true 256) =
    Some (mkTiffTag TAG_ROWS_PER_STRIP TIFF_TYPE_LONG (Nums [80])).
Proof.
  split.
  - destruct (proj1 makeImageTags_layout 300 100 16 1 CompNone None false 256 [] 2
                ltac:(lia)) as [Hbig _].
    apply (Hbig ltac:(lia)).
  - destruct (proj1 makeImageTags_layout 200 80 8 1 CompDeflate (Some "x") true 256 [] 1
                ltac:(lia)) as [_ Hsmall].
    apply (Hsmall ltac:(lia) ltac:(lia)).
Defined.

Example parseStoreKey_ex :
  parseStoreKey "0/c/0/0/3/5" = mkParsedKey 0 false false (Some [0; 0; 3; 5]) /\
  parseStoreKey "abc/zarr.json" = rejectedKey /\
  parseStoreKey "2/zarr.json" = mkParsedKey 2 true false None /\
  parseStoreKey "0/c/" = rejectedKey /\
  parseStoreKey " -3/zarr.json" = mkParsedKey (-3) true false None.
Proof. vm_compute. repeat split. Qed.

(* ------------------------------------------------------------------ *)
(** ** Store keys *)

Fixpoint all_ws (w : string) : bool :=
  match w with
  | String c r => (is_js_ws c && all_ws r)%bool
  | EmptyString => true
  end.

Lemma trimStart_decomp (s : string) :
  exists w, s = (w ++ trimStart s)%string /\ all_ws w = true.
Proof.
  induction s as [|c r IH]; simpl.
  - exists EmptyString. split; reflexivity.
  - destruct (is_js_ws c) eqn:E.
    + destruct IH as [w [Hw Hall]]. exists (String c w). simpl.
      rewrite E, Hall. split; [rewrite <- Hw; reflexivity | reflexivity].
    + exists EmptyString. split; reflexivity.
Qed.

Lemma trimStart_ws_app (w t : string) :
  all_ws w = true -> trimStart (w ++ t) = trimStart t.
Proof.
  induction w as [|c w IH]; simpl; [reflexivity|].
  intros H. apply andb_true_iff in H as [H1 H2]. rewrite H1. apply IH, H2.
Qed.

Lemma digitPrefix_nonempty (t : string) :
  digitPrefix t <> "" <-> exists d r, t = String d r /\ is_digit d = true.
Proof.
  split.
  - destruct t as [|d r]; simpl; [congruence|].
    destruct (is_digit d) eqn:E; [|congruence]. intros _. exists d, r. split; auto.
  - intros [d [r [-> Hd]]]. simpl. rewrite Hd. discriminate.
Qed.

Lemma parseInt10_NaN_iff (s : string) :
  parseInt10 s = NaN <->
  ~ exists w sg d r,
      s = (w ++ sg ++ String d r)%string /\ all_ws w = true /\
      (sg = "" \/ sg = "+" \/ sg = "-") /\ is_digit d = true.
Proof.
  split.
  - intros Hn [w [sg [d [r [Hs [Hw [Hsg Hd]]]]]]].
    unfold parseInt10 in Hn. rewrite Hs, trimStart_ws_app in Hn by exact Hw.
    destruct Hsg as [ -> | [ -> | -> ] ]; simpl in Hn.
    + assert (Hws : is_js_ws d = false).
      { unfold is_digit in Hd. unfold is_js_ws. cbv zeta.
        apply andb_true_iff in Hd as [H1 H2]. apply Nat.leb_le in H1, H2.
        repeat match goal with
               | |- context [Nat.eqb ?a ?b] => destruct (Nat.eqb_spec a b); [lia|]
               end.
        reflexivity. }
      rewrite Hws in Hn.
      destruct (Ascii.eqb d "-") eqn:Em.
      { apply Ascii.eqb_eq in Em. subst d. discriminate Hd. }
      destruct (Ascii.eqb d "+") eqn:Ep.
      { apply Ascii.eqb_eq in Ep. subst d. discriminate Hd. }
      simpl in Hn. rewrite Hd in Hn. discriminate Hn.
    + simpl in Hn. rewrite Hd in Hn. discriminate Hn.
    + simpl in Hn. rewrite Hd in Hn. discriminate Hn.
  - intros Hno. destruct (trimStart_decomp s) as [w [Hs Hw]].
    unfold parseInt10.
    destruct (trimStart s) as [|c r] eqn:Et; [reflexivity|].
    destruct (Ascii.eqb c "-") eqn:Em; [|destruct (Ascii.eqb c "+") eqn:Ep].
    + apply Ascii.eqb_eq in Em. subst c.
      destruct (String.eqb (digitPrefix r) "") eqn:Ez; [reflexivity|].
      exfalso. apply String.eqb_neq, digitPrefix_nonempty in Ez as [d [r' [-> Hd]]].
      apply Hno. exists w, "-", d, r'. split; [exact Hs|]; split; [exact Hw|]; split; [|exact Hd]; auto.
    + apply Ascii.eqb_eq in Ep. subst c.
      destruct (String.eqb (digitPrefix r) "") eqn:Ez; [reflexivity|].
      exfalso. apply String.eqb_neq, digitPrefix_nonempty in Ez as [d [r' [-> Hd]]].
      apply Hno. exists w, "+", d, r'. split; [exact Hs|]; split; [exact Hw|]; split; [|exact Hd]; auto.
    + destruct (String.eqb (digitPrefix (String c r)) "") eqn:Ez; [reflexivity|].
      exfalso. apply String.eqb_neq, digitPrefix_nonempty in Ez as [d [r' [Heq Hd]]].
      injection Heq as -> ->.
      apply Hno. exists w, "", d, r'. split; [exact Hs|]; split; [exact Hw|]; split; [|exact Hd]; auto.
Qed.

(** C8 (counterexample): the level component ["1x"] is not a number (it holds
    the non-digit ['x']), yet ["1x/zarr.json"] is accepted as level-1 array
    metadata, and the chunk key ["0/c/1x/0"] with the non-numeric index
    ["1x"] is accepted as chunk [[1; 0]]: [parseInt] ignores what follows a
    leading number. *)
Lemma parseStoreKey_numeric_prefix_accepted :
  forallb is_digit (list_ascii_of_string "1x") = false /\
  parseStoreKey "1x/zarr.json" = mkParsedKey 1 true false None /\
  parseStoreKey "1x/zarr.json" <> rejectedKey /\
  parseStoreKey "0/c/1x/0" = mkParsedKey 0 false false (Some [1; 0]).
Proof.
  split; [reflexivity|]. split; [reflexivity|]. split; [discriminate|]. reflexivity.
Qed.

(** C8 (amended): ["zarr.json"] and ["/zarr.json"] both parse as the root
    metadata. A key of two segments [p0/zarr.json] is level metadata at
    [parseInt(p0)], and is rejected exactly when [parseInt(p0)] is [NaN]; a
    key [p0/c/i1/.../in] ([n >= 1]) is a chunk key at level [parseInt(p0)]
    with indices [parseInt(ik)], rejected exactly when one of them is [NaN];
    every other key (wrong separator segment or segment count) is rejected.
    [parseInt(s)] is [NaN] exactly when [s] does not start, after white space
    and an optional sign, with a decimal digit: components with no leading
    number (such as ["abc"] or [""]) are rejected, while a component with a
    leading number followed by other characters (["1x"]) is accepted. *)
Theorem parseStoreKey_amended :
  parseStoreKey "zarr.json" = rootKey /\
  parseStoreKey "/zarr.json" = rootKey /\
  (forall key p0,
     splitSlash (normalizeKey key) = [p0; "zarr.json"] ->
     parseStoreKey key =
       match parseInt10 p0 with
       | NaN => rejectedKey
       | Fin lvl => mkParsedKey lvl true false None
       end) /\
  (forall key p0 rest,
     splitSlash (normalizeKey key) = p0 :: "c" :: rest -> rest <> [] ->
     parseStoreKey key =
       match parseInt10 p0, allFin (map parseInt10 rest) with
       | Fin lvl, Some idx => mkParsedKey lvl false false (Some idx)
       | _, _ => rejectedKey
       end) /\
  (forall key,
     normalizeKey key <> "zarr.json" ->
     (forall p0, splitSlash (normalizeKey key) <> [p0; "zarr.json"]) ->
     (forall p0 rest, rest <> [] -> splitSlash (normalizeKey key) <> p0 :: "c" :: rest) ->
     parseStoreKey key = rejectedKey) /\
  (forall l, allFin l = None <-> In NaN l) /\
  (forall s,
     parseInt10 s = NaN <->
     ~ exists w sg d r,
         s = (w ++ sg ++ String d r)%string /\ all_ws w = true /\
         (sg = "" \/ sg = "+" \/ sg = "-") /\ is_digit d = true).
Proof.
  split; [reflexivity|]. split; [reflexivity|].
  assert (Hroot : forall key, String.eqb (normalizeKey key) "zarr.json" = true ->
                  splitSlash (normalizeKey key) = ["zarr.json"]).
  { intros key E. apply String.eqb_eq in E. rewrite E. reflexivity. }
  split.
  - intros key p0 Hp. unfold parseStoreKey.
    destruct (String.eqb (normalizeKey key) "zarr.json") eqn:E.
    + rewrite (Hroot key E) in Hp. discriminate Hp.
    + rewrite Hp. reflexivity.
  - split.
    + intros key p0 rest Hp Hr. unfold parseStoreKey.
      destruct (String.eqb (normalizeKey key) "zarr.json") eqn:E.
      * rewrite (Hroot key E) in Hp. discriminate Hp.
      * rewrite Hp. destruct rest as [|i rest]; [contradiction|].
        destruct (parseInt10 p0), (allFin (map parseInt10 (i :: rest))); reflexivity.
    + split.
      * intros key Hn H2 H3. unfold parseStoreKey.
        destruct (String.eqb (normalizeKey key) "zarr.json") eqn:E.
        { apply String.eqb_eq in E. contradiction. }
        destruct (splitSlash (normalizeKey key)) as [|p0 [|p1 [|i rest]]] eqn:Es;
          try reflexivity.
        -- destruct (String.eqb p1 "zarr.json") eqn:E1; [|reflexivity].
           apply String.eqb_eq in E1. subst p1. exfalso. apply (H2 p0). reflexivity.
        -- destruct (String.eqb p1 "c") eqn:E1; [|reflexivity].
           apply String.eqb_eq in E1. subst p1. exfalso.
           apply (H3 p0 (i :: rest)); [discriminate | reflexivity].
      * split.
        -- intros l. induction l as [|[z|] l IH]; simpl.
           ++ split; [discriminate | intros []].
           ++ destruct (allFin l) eqn:E; split; intros H.
              ** discriminate H.
              ** destruct H as [H|H]; [discriminate H|]. apply IH in H. discriminate H.
              ** right. apply IH. reflexivity.
              ** reflexivity.
           ++ split; [intros _; left; reflexivity | reflexivity].
        -- exact parseInt10_NaN_iff.
Qed.

Lemma parseStoreKey_amended_witness :
  parseStoreKey "0/zarr.json" = mkParsedKey 0 true false None /\
  parseStoreKey "0/c/x/1" = rejectedKey /\
  parseStoreKey "0/d/1/1" = rejectedKey.
Proof.
  destruct parseStoreKey_amended as [_ [_ [Hmeta [Hchunk [Hother _]]]]].
  split; [|split].
  - rewrite (Hmeta "0/zarr.json" "0"); reflexivity.
  - rewrite (Hchunk "0/c/x/1" "0" ["x"; "1"]); [reflexivity | reflexivity | discriminate].
  - apply Hother.
    + discriminate.
    + intros p0. discriminate.
    + intros p0 rest _. vm_compute. discriminate.
Defined.

(* ------------------------------------------------------------------ *)
(** ** Metadata caching of TiffStore.get *)

Lemma zmapGet_zmapSet_same {A : Type} (m : list (Z * A)) k v :
  zmapGet (zmapSet m k v) k = Some v.
Proof.
  induction m as [|[k' v'] m IH]; simpl; [rewrite Z.eqb_refl; reflexivity|].
  destruct (Z.eqb_spec k k') as [->|Hne]; simpl.
  - rewrite Z.eqb_refl. reflexivity.
  - apply Z.eqb_neq in Hne. rewrite Hne. exact IH.
Qed.

Lemma zmapGet_zmapSet_other {A : Type} (m : list (Z * A)) k k2 v :
  k <> k2 -> zmapGet (zmapSet m k v) k2 = zmapGet m k2.
Proof.
  intros Hne. induction m as [|[k' v'] m IH]; simpl.
  - apply Z.eqb_neq in Hne. rewrite Z.eqb_sym, Hne. reflexivity.
  - destruct (Z.eqb_spec k k') as [->|Hne']; simpl.
    + apply Z.eqb_neq in Hne. rewrite Z.eqb_sym, Hne. reflexivity.
    + destruct (Z.eqb k2 k'); [reflexivity | exact IH].
Qed.

Section TiffStoreCache.
Variable Json : Type.
Variable encodeJson : nat -> Json -> list Z.
Variable rootGroupJson : Json.
Variable arrayJsonOf : Z -> Json.
Variable levels : Z.
Variable chunkRead : Z -> list Z -> option (list Z).

Let get' := get Json encodeJson rootGroupJson arrayJsonOf levels chunkRead.
Let runGets' := runGets Json encodeJson rootGroupJson arrayJsonOf levels chunkRead.

(** The keys the claim is about: the root document, or an in-range level. *)
Definition metadataKey (key : string) : Prop :=
  isRootMetadata (parseStoreKey key) = true \/
  (isRootMetadata (parseStoreKey key) = false /\ isMetadata (parseStoreKey key) = true /\
   0 <= level (parseStoreKey key) < levels).

(** The cache slot a metadata key reads, holding [b]. *)
Definition cachedFor (st : StoreState) (key : string) (b : list Z) : Prop :=
  if isRootMetadata (parseStoreKey key) then rootJsonBytes st = Some b
  else zmapGet (arrayJsonCache st) (level (parseStoreKey key)) = Some b.

Lemma get_preserves_root (st : StoreState) (k : string) (b : list Z) :
  rootJsonBytes st = Some b -> rootJsonBytes (snd (get' st k)) = Some b.
Proof.
  intros H. unfold get', get, getRootGroupJson, getArrayJson, encode.
  destruct (isRootMetadata (parseStoreKey k)).
  - rewrite H. exact H.
  - destruct (isMetadata (parseStoreKey k) && (0 <=? level (parseStoreKey k)))%bool.
    + destruct ((level (parseStoreKey k) <? 0) || (levels <=? level (parseStoreKey k)))%bool;
        [exact H|].
      destruct (zmapHas (arrayJsonCache st) (level (parseStoreKey k))); [exact H|].
      exact H.
    + destruct (chunkIndices (parseStoreKey k)); [|exact H].
      destruct (0 <=? level (parseStoreKey k)); exact H.
Qed.

Lemma get_preserves_array (st : StoreState) (k : string) (l : Z) (b : list Z) :
  zmapGet (arrayJsonCache st) l = Some b ->
  zmapGet (arrayJsonCache (snd (get' st k))) l = Some b.
Proof.
  intros H. unfold get', get, getRootGroupJson, getArrayJson, encode.
  destruct (isRootMetadata (parseStoreKey k)).
  - destruct (rootJsonBytes st); exact H.
  - destruct (isMetadata (parseStoreKey k) && (0 <=? level (parseStoreKey k)))%bool.
    + destruct ((level (parseStoreKey k) <? 0) || (levels <=? level (parseStoreKey k)))%bool;
        [exact H|].
      destruct (zmapHas (arrayJsonCache st) (level (parseStoreKey k))) eqn:Eh; [exact H|].
      simpl. rewrite zmapGet_zmapSet_other; [exact H|].
      intros Heq. unfold zmapHas in Eh. rewrite Heq, H in Eh. discriminate Eh.
    + destruct (chunkIndices (parseStoreKey k)); [|exact H].
      destruct (0 <=? level (parseStoreKey k)); exact H.
Qed.

Lemma runGets_preserves (st : StoreState) (ks : list string) (key : string) (b : list Z) :
  cachedFor st key b -> cachedFor (runGets' st ks) key b.
Proof.
  revert st. induction ks as [|k ks IH]; intros st H; simpl; [exact H|].
  apply IH. unfold cachedFor in *.
  destruct (isRootMetadata (parseStoreKey key));
    [apply get_preserves_root | apply get_preserves_array]; exact H.
Qed.

Lemma get_first (st : StoreState) (key : string) :
  metadataKey key ->
  exists b, fst (get' st key) = Some b /\ cachedFor (snd (get' st key)) key b.
Proof.
  intros Hk. unfold cachedFor, get', get.
  destruct Hk as [Hr | [Hr [Hm [Hl1 Hl2]]]].
  - rewrite Hr. unfold getRootGroupJson, encode.
    destruct (rootJsonBytes st) as [b|] eqn:E.
    + exists b. split; [reflexivity | exact E].
    + eexists. split; reflexivity.
  - rewrite Hr, Hm. simpl.
    assert (E0 : (0 <=? level (parseStoreKey key)) = true) by (apply Z.leb_le; lia).
    assert (E1 : ((level (parseStoreKey key) <? 0) || (levels <=? level (parseStoreKey key)))%bool
                 = false).
    { apply orb_false_iff. split; [apply Z.ltb_ge | apply Z.leb_gt]; lia. }
    rewrite E0. unfold getArrayJson. rewrite E1.
    destruct (zmapHas (arrayJsonCache st) (level (parseStoreKey key))) eqn:Eh.
    + unfold zmapHas in Eh.
      destruct (zmapGet (arrayJsonCache st) (level (parseStoreKey key))) as [b|] eqn:Eg;
        [|discriminate Eh].
      exists b. simpl. rewrite Eg. split; reflexivity.
    + unfold encode. simpl. rewrite zmapGet_zmapSet_same.
      eexists. split; reflexivity.
Qed.

Lemma get_cached (st : StoreState) (key : string) (b : list Z) :
  metadataKey key -> cachedFor st key b -> get' st key = (Some b, st).
Proof.
  intros Hk Hc. unfold cachedFor in Hc. unfold get', get.
  destruct Hk as [Hr | [Hr [Hm [Hl1 Hl2]]]].
  - rewrite Hr in *. unfold getRootGroupJson. rewrite Hc. reflexivity.
  - rewrite Hr, Hm in *. simpl.
    assert (E0 : (0 <=? level (parseStoreKey key)) = true) by (apply Z.leb_le; lia).
    assert (E1 : ((level (parseStoreKey key) <? 0) || (levels <=? level (parseStoreKey key)))%bool
                 = false).
    { apply orb_false_iff. split; [apply Z.ltb_ge | apply Z.leb_gt]; lia. }
    rewrite E0. unfold getArrayJson. rewrite E1.
    unfold zmapHas. rewrite Hc. rewrite Hc. reflexivity.
Qed.

End TiffStoreCache.

(** C9: on one store instance, a [get] of a metadata key (["zarr.json"], or
    ["{L}/zarr.json"] with [L] in [[0, levels)]) returns bytes, and after any
    further [get] calls (of any keys) a [get] of the same key returns the same
    bytes and leaves the store unchanged: no new serialisation is made, the
    cached byte string is returned. This holds whatever [encodeJson] returns
    on each call, so the identity comes from the caches. *)
Theorem get_metadata_cached (Json : Type) (encodeJson : nat -> Json -> list Z)
  (rootGroupJson : Json) (arrayJsonOf : Z -> Json) (levels : Z)
  (chunkRead : Z -> list Z -> option (list Z))
  (st : StoreState) (key : string) (ks : list string) :
  metadataKey levels key ->
  let r1 := fst (get Json encodeJson rootGroupJson arrayJsonOf levels chunkRead st key) in
  let st2 := runGets Json encodeJson rootGroupJson arrayJsonOf levels chunkRead
               (snd (get Json encodeJson rootGroupJson arrayJsonOf levels chunkRead st key)) ks in
  (exists b, r1 = Some b) /\
  get Json encodeJson rootGroupJson arrayJsonOf levels chunkRead st2 key = (r1, st2).
Proof.
  intros Hk r1 st2.
  destruct (get_first Json encodeJson rootGroupJson arrayJsonOf levels chunkRead st key Hk)
    as [b [H1 H2]].
  unfold r1. rewrite H1. split; [exists b; reflexivity|].
  apply get_cached; [exact Hk|].
  apply runGets_preserves. exact H2.
Qed.

Lemma get_metadata_cached_witness :
  let enc := fun (n : nat) (_ : unit) => [Z.of_nat n] in
  (exists b, fst (get unit enc tt (fun _ => tt) 2 (fun _ _ => None) (mkStoreState None [] 0)
                    "1/zarr.json") = Some b) /\
  get unit enc tt (fun _ => tt) 2 (fun _ _ => None)
    (runGets unit enc tt (fun _ => tt) 2 (fun _ _ => None)
       (snd (get unit enc tt (fun _ => tt) 2 (fun _ _ => None) (mkStoreState None [] 0)
               "1/zarr.json")) ["zarr.json"; "0/zarr.json"])
    "1/zarr.json" =
  (fst (get unit enc tt (fun _ => tt) 2 (fun _ _ => None) (mkStoreState None [] 0)
          "1/zarr.json"),
   runGets unit enc tt (fun _ => tt) 2 (fun _ _ => None)
     (snd (get unit enc tt (fun _ => tt) 2 (fun _ _ => None) (mkStoreState None [] 0)
             "1/zarr.json")) ["zarr.json"; "0/zarr.json"]).
Proof.
  intros enc.
  apply (get_metadata_cached unit enc tt (fun _ => tt) 2 (fun _ _ => None)
           (mkStoreState None [] 0) "1/zarr.json" ["zarr.json"; "0/zarr.json"]).
  right. split; [reflexivity | split; [reflexivity|]].
  assert (E : level (parseStoreKey "1/zarr.json") = 1) by reflexivity.
  rewrite E. lia.
Defined.

(* ------------------------------------------------------------------ *)
(** ** Chunk byte lengths *)

Example chunk_model_ex :
  buildAxesDimNames (Some s5Pixels) = ["t"; "c"; "y"; "x"] /\
  computeChunkShape (Fin 256) (Fin 128) 4 = [Fin 1; Fin 1; Fin 128; Fin 256] /\
  computePixelWindow (Fin 1) (Fin 2) (Fin 256) (Fin 256) (Fin 300) (Fin 1000) =
    (Fin 256, Fin 512, Fin 300, Fin 768) /\
  padEdgeChunk [1; 2; 3; 4] (Fin 2) (Fin 2) (Fin 3) (Fin 2) 1 = Some [1; 2; 0; 3; 4; 0] /\
  subarrayN [1; 2; 3] NaN (Fin (-1)) = [1; 2].
Proof. vm_compute. repeat split. Qed.

Lemma u8_setZ_length (dst src : list Z) (off : Z) (r : list Z) :
  u8_setZ dst src off = Some r -> List.length r = List.length dst.
Proof.
  unfold u8_setZ.
  destruct ((off <? 0) || (Z.of_nat (List.length dst) <? off + Z.of_nat (List.length src)))%bool
    eqn:E; [discriminate|].
  intros H. injection H as <-.
  apply orb_false_iff in E as [E1 E2]. apply Z.ltb_ge in E1, E2.
  rewrite !length_app, length_firstn, length_skipn. lia.
Qed.

Lemma u8_new_length (k : Z) (r : list Z) :
  u8_new (Fin k) = Some r -> Z.of_nat (List.length r) = k /\ Forall (eq 0) r.
Proof.
  unfold u8_new. destruct (Z.ltb_spec k 0) as [Hk|Hk]; [discriminate|].
  intros H. injection H as <-. rewrite repeat_length. split; [lia|].
  apply Forall_forall. intros x Hx. apply repeat_spec in Hx. symmetry. exact Hx.
Qed.

Lemma fold_setZ_length (f : Z -> list Z -> option (list Z)) (rows : list Z) (o r : list Z) :
  (forall row out r', f row out = Some r' -> List.length r' = List.length out) ->
  fold_left (fun acc row => match acc with None => None | Some out => f row out end)
    rows (Some o) = Some r -> List.length r = List.length o.
Proof.
  intros Hf. revert o. induction rows as [|row rows IH]; intros o; simpl.
  - intros H. injection H as <-. reflexivity.
  - destruct (f row o) as [o'|] eqn:E.
    + intros H. rewrite (IH o' H). exact (Hf _ _ _ E).
    + intros H. exfalso. clear - H. induction rows as [|x rows IH]; simpl in H;
        [discriminate | exact (IH H)].
Qed.

Lemma padEdgeChunk_length data sw sh dw dh bpe r :
  padEdgeChunk data sw sh (Fin dw) (Fin dh) bpe = Some r ->
  Z.of_nat (List.length r) = dw * dh * bpe.
Proof.
  unfold padEdgeChunk. simpl num_mul at 1.
  destruct (u8_new (Fin (dw * dh * bpe))) as [out|] eqn:En; [|discriminate].
  intros H. apply fold_setZ_length in H.
  - rewrite H. apply (proj1 (u8_new_length _ _ En)).
  - intros row o r'. apply u8_setZ_length.
Qed.

Lemma encodeChunkBytes_length data e bpe r :
  encodeChunkBytes data (Fin e) bpe = Some r -> Z.of_nat (List.length r) = e * bpe.
Proof.
  unfold encodeChunkBytes. simpl num_mul.
  destruct (num_same (Fin (Z.of_nat (List.length data))) (Fin (e * bpe))) eqn:Es.
  - intros H. injection H as <-. unfold num_same in Es. apply Z.eqb_eq in Es. exact Es.
  - destruct (u8_new (Fin (e * bpe))) as [out|] eqn:En; [|discriminate].
    intros H. rewrite (u8_setZ_length _ _ _ _ H). apply (proj1 (u8_new_length _ _ En)).
Qed.

Lemma readChunk_length readRasters sel lvl cy cx ch cw iw ih dtype r :
  readChunk readRasters sel lvl cy cx (Fin ch) (Fin cw) iw ih dtype = Some r ->
  Z.of_nat (List.length r) = cw * ch * bytesPerElement dtype.
Proof.
  unfold readChunk, computePixelWindow.
  destruct (num_le (num_sub (num_min (num_add (num_mul cx (Fin cw)) (Fin cw)) iw)
                        (num_mul cx (Fin cw))) (Fin 0)
            || num_le (num_sub (num_min (num_add (num_mul cy (Fin ch)) (Fin ch)) ih)
                         (num_mul cy (Fin ch))) (Fin 0))%bool.
  - simpl num_mul. intros H. apply (proj1 (u8_new_length _ _ H)).
  - destruct (readRasters sel lvl _) as [data|]; [|discriminate].
    destruct (_ || _)%bool.
    + apply padEdgeChunk_length.
    + apply encodeChunkBytes_length.
Qed.

Lemma readChunk_outside readRasters sel lvl y x ch cw iw ih dtype :
  0 <= x -> 0 <= y -> 0 <= cw -> 0 <= ch ->
  (iw <= x * cw \/ ih <= y * ch) ->
  readChunk readRasters sel lvl (Fin y) (Fin x) (Fin ch) (Fin cw) (Fin iw) (Fin ih) dtype =
  u8_new (Fin (cw * ch * bytesPerElement dtype)).
Proof.
  intros Hx Hy Hcw Hch Hout. unfold readChunk, computePixelWindow. simpl.
  assert (E : ((Z.min (x * cw + cw) iw - x * cw <=? 0) || (Z.min (y * ch + ch) ih - y * ch <=? 0))%bool
              = true).
  { apply orb_true_iff. destruct Hout as [H|H]; [left|right]; apply Z.leb_le; lia. }
  rewrite E. reflexivity.
Qed.

Lemma nth_map_zrange {A : Type} (g : Z -> A) (n : nat) (i : Z) (d : A) :
  0 <= i < Z.of_nat n -> nth (Z.to_nat i) (map g (zrange n)) d = g i.
Proof.
  intros Hi. unfold zrange. rewrite map_map.
  rewrite (nth_indep _ d (g (Z.of_nat 0))) by (rewrite length_map, length_seq; lia).
  rewrite (map_nth (fun x => g (Z.of_nat x))), seq_nth by lia.
  f_equal. lia.
Qed.

Lemma numAt_map_Fin (l : list Z) (i : Z) :
  0 <= i < Z.of_nat (List.length l) -> numAt (map Fin l) i = Fin (nth (Z.to_nat i) l 0).
Proof.
  intros Hi. unfold numAt, arrayAt.
  destruct (Z.ltb_spec i 0); [lia|].
  rewrite nth_error_map.
  rewrite (nth_error_nth' l 0) by lia. reflexivity.
Qed.

(** [dimNames] ends with [y], [x]; the shape built for it is all ones but
    for the tile height and width there. *)
Lemma dimNames_chunkShape (pixels : option OmePixels) (cw ch : Z) :
  let dims := buildAxesDimNames pixels in
  let cs := computeChunkShape (Fin cw) (Fin ch) (List.length dims) in
  numAt cs (indexOfStr dims "y") = Fin ch /\
  numAt cs (indexOfStr dims "x") = Fin cw /\
  num_prod cs = Fin (ch * cw) /\
  indexOfStr dims "y" = Z.of_nat (List.length dims) - 2 /\
  indexOfStr dims "x" = Z.of_nat (List.length dims) - 1.
Proof.
  intros dims cs. unfold cs, dims, buildAxesDimNames.
  destruct pixels as [p|];
    [destruct (num_lt (Fin 1) (sizeT p)), (num_lt (Fin 1) (sizeC p)),
       (num_lt (Fin 1) (sizeZ p))|];
    cbv -[Z.mul]; repeat split; try reflexivity; f_equal; ring.
Qed.

Lemma ts_chunkShape_at (f : TiffStoreFields) (lvl : Z) :
  Z.of_nat (List.length (ts_widths f)) = ts_levels f ->
  Z.of_nat (List.length (ts_heights f)) = ts_levels f ->
  0 <= lvl < ts_levels f ->
  nth (Z.to_nat lvl) (ts_chunkShapes f) [] =
  computeChunkShape
    (Fin (Z.min (ts_tileWidth f) (nth (Z.to_nat lvl) (ts_widths f) 0)))
    (Fin (Z.min (ts_tileHeight f) (nth (Z.to_nat lvl) (ts_heights f) 0)))
    (List.length (ts_dimNames f)).
Proof.
  intros Hw Hh Hl. unfold ts_chunkShapes.
  rewrite nth_map_zrange by lia.
  rewrite !numAt_map_Fin by lia. reflexivity.
Qed.

(** C2: a chunk key ["{L}/c/{i...}"] with [L] in [[0, levels)] is routed by
    [get] to [getChunkData], whose returned buffer (when it returns one; the
    raster read itself is external) has exactly
    [prod(chunkShapes[L]) * bytesPerElement(dtype)] bytes, on every path
    (fill, edge padding, full chunk). When the chunk's indices are grid
    coordinates ([>= 0], one per dimension) and its pixel window starts at or
    past the right or bottom edge of the image, the buffer is all zeros of
    that length. The pyramid's [widths] and [heights] have one entry per
    level, as [detectPyramid] builds them. *)
Theorem getChunkData_bytes
  (readRasters : PlaneSelection -> Z -> num * num * num * num -> option (list Z))
  (f : TiffStoreFields) (key : string) (lvl : Z) (idx : list Z) :
  Z.of_nat (List.length (ts_widths f)) = ts_levels f ->
  Z.of_nat (List.length (ts_heights f)) = ts_levels f ->
  parseStoreKey key = mkParsedKey lvl false false (Some idx) ->
  0 <= lvl < ts_levels f ->
  let chunkShape := nth (Z.to_nat lvl) (ts_chunkShapes f) [] in
  let bpe := bytesPerElement (ts_dtype f) in
  (forall (Json : Type) encodeJson rootGroupJson arrayJsonOf chunkRead st,
     get Json encodeJson rootGroupJson arrayJsonOf (ts_levels f) chunkRead st key =
     (chunkRead lvl idx, st)) /\
  (forall bytes, getChunkData readRasters f lvl idx = Some (Some bytes) ->
     Fin (Z.of_nat (List.length bytes)) = num_mul (num_prod chunkShape) (Fin bpe)) /\
  (let n := List.length (ts_dimNames f) in
   let shape := nth (Z.to_nat lvl) (ts_shapes f) [] in
   let cw := Z.min (ts_tileWidth f) (nth (Z.to_nat lvl) (ts_widths f) 0) in
   let ch := Z.min (ts_tileHeight f) (nth (Z.to_nat lvl) (ts_heights f) 0) in
   List.length idx = n -> List.length shape = n -> Forall (Z.le 0) idx ->
   0 <= cw -> 0 <= ch ->
   (nth (n - 1) shape 0 <= nth (n - 1) idx 0 * cw \/
    nth (n - 2) shape 0 <= nth (n - 2) idx 0 * ch) ->
   exists z, getChunkData readRasters f lvl idx = Some (Some z) /\ Forall (eq 0) z /\
     Fin (Z.of_nat (List.length z)) = num_mul (num_prod chunkShape) (Fin bpe)).
Proof.
  intros Hw Hh Hkey Hl chunkShape bpe.
  assert (Hcs := ts_chunkShape_at f lvl Hw Hh Hl).
  set (cw := Z.min (ts_tileWidth f) (nth (Z.to_nat lvl) (ts_widths f) 0)) in *.
  set (ch := Z.min (ts_tileHeight f) (nth (Z.to_nat lvl) (ts_heights f) 0)) in *.
  destruct (dimNames_chunkShape (ts_pixels f) cw ch) as [Hy [Hx [Hp [Hiy Hix]]]].
  fold (ts_dimNames f) in Hy, Hx, Hp, Hiy, Hix.
  assert (Hrange : ((lvl <? 0) || (ts_levels f <=? lvl))%bool = false).
  { apply orb_false_iff. split; [apply Z.ltb_ge | apply Z.leb_gt]; lia. }
  assert (Hprod : num_mul (num_prod chunkShape) (Fin bpe) = Fin (cw * ch * bpe)).
  { unfold chunkShape. rewrite Hcs, Hp. simpl. f_equal. ring. }
  split; [|split].
  - intros Json enc rj aj cr st. unfold get. rewrite Hkey. simpl.
    assert (E : (0 <=? lvl) = true) by (apply Z.leb_le; lia). rewrite E. reflexivity.
  - intros bytes H. rewrite Hprod. unfold getChunkData in H. rewrite Hrange in H.
    cbv zeta in H. rewrite Hcs, Hy, Hx in H.
    destruct (readChunk _ _ _ _ _ _ _ _ _ _) as [r|] eqn:Er; [|discriminate].
    injection H as <-. f_equal. rewrite (readChunk_length _ _ _ _ _ _ _ _ _ _ _ Er).
    reflexivity.
  - intros n shape cw' ch' Hli Hls Hnn Hcw Hch Hout.
    unfold cw', ch' in *. clear cw' ch'.
    unfold getChunkData. rewrite Hrange. cbv zeta. rewrite Hcs, Hy, Hx.
    fold (ts_dimNames f). fold shape. fold n in Hiy, Hix. rewrite Hiy, Hix.
    assert (Hn : (2 <= n)%nat).
    { unfold n, ts_dimNames, buildAxesDimNames. destruct (ts_pixels f) as [p|]; [|simpl; lia].
      rewrite !length_app. simpl. lia. }
    assert (Hat : forall l : list Z, List.length l = n -> forall k, (k < n)%nat ->
              numAt (map Fin l) (Z.of_nat n - Z.of_nat (n - k)) = Fin (nth (k) l 0)).
    { intros l Hl' k Hk. rewrite numAt_map_Fin by lia. f_equal. f_equal. lia. }
    replace (Z.of_nat n - 2) with (Z.of_nat n - Z.of_nat (n - (n - 2))) by lia.
    replace (Z.of_nat n - 1) with (Z.of_nat n - Z.of_nat (n - (n - 1))) by lia.
    rewrite !Hat by (assumption || lia).
    assert (Hidx : forall k, 0 <= nth k idx 0).
    { intros k. destruct (Nat.lt_ge_cases k (List.length idx)).
      - apply (proj1 (Forall_forall _ _) Hnn). apply nth_In. exact H.
      - rewrite nth_overflow by exact H. lia. }
    rewrite readChunk_outside by (try apply Hidx; assumption).
    destruct (u8_new (Fin (cw * ch * bytesPerElement (ts_dtype f)))) as [z|] eqn:Ez.
    + exists z. destruct (u8_new_length _ _ Ez) as [Hlz Hz].
      split; [reflexivity|]. split; [exact Hz|]. rewrite Hprod, Hlz. reflexivity.
    + exfalso. unfold u8_new in Ez.
      assert (0 <= cw * ch * bytesPerElement (ts_dtype f)).
      { apply Z.mul_nonneg_nonneg; [apply Z.mul_nonneg_nonneg; assumption|].
        destruct (ts_dtype f); simpl; lia. }
      destruct (Z.ltb_spec (cw * ch * bytesPerElement (ts_dtype f)) 0); [lia | discriminate].
Qed.

Lemma getChunkData_bytes_witness :
  let f := mkTiffStoreFields 1 [300] [200] 256 256 None Uint16 [[200; 300]] in
  exists z,
    getChunkData (fun _ _ _ => None) f 0 [1; 0] = Some (Some z) /\ Forall (eq 0) z /\
    Fin (Z.of_nat (List.length z)) =
      num_mul (num_prod (nth 0 (ts_chunkShapes f) [])) (Fin 2).
Proof.
  intros f.
  destruct (getChunkData_bytes (fun _ _ _ => None) f "0/c/1/0" 0 [1; 0]
              eq_refl eq_refl eq_refl ltac:(simpl; lia)) as [_ [_ H3]].
  apply H3.
  - reflexivity.
  - reflexivity.
  - repeat constructor; lia.
  - simpl. lia.
  - simpl. lia.
  - right. simpl. lia.
Defined.

(* ------------------------------------------------------------------ *)
(** ** C3: the classic-format size check *)

(** A 65280 x 65792 uint8 plane cut into 256 x 256 tiles: 255 * 257 =
    65535 uncompressed tiles of 65536 bytes, with the tags of
    [makeImageTags]. *)
Definition largeTiledIfd : WritableIfd :=
  mkWritableIfd (makeImageTags 65280 65792 8 1 CompNone None false 256)
                (repeat 65536 65535) None.

(** C3 (code bug): [buildTiff] with [format = "classic"] does not throw on
    [largeTiledIfd], although the classic layout it computes is
    4295426198 bytes, more than 2^32 - 2.  The check compares
    [estimateRawSize] (4294902032) with [0xfffffffe], and the estimate
    leaves out the 524280 bytes of the TileOffsets and TileByteCounts
    arrays.  On the same input [format = "auto"] selects BigTIFF (magic 43). *)
Theorem buildTiff_classic_oversize :
  estimateRawSize (largeTiledIfd :: nil) = 4294902032 /\
  buildTiff (largeTiledIfd :: nil) FmtClassic =
    Built CLASSIC_FORMAT 4295426198 /\
  2 ^ 32 - 2 < 4295426198 /\
  (exists total, buildTiff (largeTiledIfd :: nil) FmtAuto =
                   Built BIGTIFF_FORMAT total) /\
  magic BIGTIFF_FORMAT = 43.
Proof.
  split; [vm_compute; reflexivity |].
  split; [vm_compute; reflexivity |].
  split; [reflexivity |].
  split; [eexists; vm_compute; reflexivity | reflexivity].
Qed.

(* ------------------------------------------------------------------ *)
(** ** C4: OME-XML round trip *)

(** C4 (code bug): [buildOmeXml] writes both channels of
    [twoChannelDims] as [Channel:0:0] and [Channel:0:1].  When the first
    channel is labelled "DAPI/405", [parseOmeXml] of that XML returns a
    single channel [Channel:0:1].  [escapeXml] leaves the slash in the
    [Name] attribute, and the channel regex cannot match an element
    whose attributes contain a slash.  The sizes, the
    dimension order and the type do survive.  With the label "DAPI" the
    same image keeps both channel IDs. *)
Theorem buildOmeXml_slash_label_drops_channel :
  parseOmeXml (buildOmeXml twoChannelDims noPhysicalSizes None slashLabels
                 Uint16 None None None) =
    Some (mkParsedImage "Image:0" (Fin 64) (Fin 32) (Fin 1) (Fin 2) (Fin 1)
            XYZCT (zarrToOmePixelType Uint16) ("Channel:0:1" :: nil) :: nil) /\
  parseOmeXml (buildOmeXml twoChannelDims noPhysicalSizes None plainLabels
                 Uint16 None None None) =
    Some (mkParsedImage "Image:0" (Fin 64) (Fin 32) (Fin 1) (Fin 2) (Fin 1)
            XYZCT (zarrToOmePixelType Uint16)
            ("Channel:0:0" :: "Channel:0:1" :: nil) :: nil).
Proof. split; vm_compute; reflexivity. Qed.

(* ================================================================== *)
(** * Further properties of the sources *)

(* ------------------------------------------------------------------ *)
(** ** Data types *)

(** [tiffDtypeToZarr] returns a type for exactly the eight pairs
    (SampleFormat, BitsPerSample) of its table and throws on every other
    pair. *)
Theorem tiffDtypeToZarr_supported (sampleFormat bitsPerSample : Z) :
  (exists d, tiffDtypeToZarr sampleFormat bitsPerSample = Some d) <->
  In (sampleFormat, bitsPerSample)
     [(1, 8); (1, 16); (1, 32); (2, 8); (2, 16); (2, 32); (3, 32); (3, 64)].
Proof.
  unfold tiffDtypeToZarr, SAMPLE_FORMAT_UINT, SAMPLE_FORMAT_INT,
    SAMPLE_FORMAT_FLOAT.
  split.
  - intros [d Hd].
    destruct (Z.eqb_spec sampleFormat 1);
    [| destruct (Z.eqb_spec sampleFormat 2);
       [| destruct (Z.eqb_spec sampleFormat 3)]]; subst;
    repeat match goal with
           | H : context [Z.eqb bitsPerSample ?k] |- _ =>
               destruct (Z.eqb_spec bitsPerSample k); [subst | ]
           end; try discriminate; simpl; tauto.
  - simpl. intros H.
    repeat destruct H as [H | H]; try contradiction;
      inversion H; subst; eexists; reflexivity.
Qed.

(** When [tiffDtypeToZarr] returns a type, that type has
    [bitsPerSample / 8] bytes per element. *)
Theorem tiffDtypeToZarr_bytesPerElement (sampleFormat bitsPerSample : Z)
  (d : ZarrDataType) :
  tiffDtypeToZarr sampleFormat bitsPerSample = Some d ->
  bytesPerElement d * 8 = bitsPerSample.
Proof.
  unfold tiffDtypeToZarr, SAMPLE_FORMAT_UINT, SAMPLE_FORMAT_INT,
    SAMPLE_FORMAT_FLOAT.
  intros Hd.
  repeat match goal with
         | H : context [Z.eqb ?x ?k] |- _ =>
             destruct (Z.eqb_spec x k); [subst | ]
         end; try discriminate; inversion Hd; reflexivity.
Qed.

Lemma tiffDtypeToZarr_bytesPerElement_witness :
  tiffDtypeToZarr 3 64 = Some Float64 /\ bytesPerElement Float64 * 8 = 64.
Proof.
  split; [reflexivity |].
  apply (tiffDtypeToZarr_bytesPerElement 3 64 Float64). reflexivity.
Defined.


(** [omePixelTypeToZarr] returns a Zarr type exactly when the lowercase
    spelling of its argument is one of int8, int16, int32, uint8, uint16,
    uint32, float and double, mapped as its table does (float to float32,
    double to float64).  It throws exactly when the lowercase spelling is
    neither in the table nor a member name of [Object.prototype]. *)
Theorem omePixelTypeToZarr_lookup (omeType : string) :
  (forall d, omePixelTypeToZarr omeType = Some (Own d) <->
             In (toLowerCase omeType, d) omePixelTypeMap) /\
  (omePixelTypeToZarr omeType = None <->
   (forall d, ~ In (toLowerCase omeType, d) omePixelTypeMap) /\
   ~ In (toLowerCase omeType) objectProtoKeys).
Proof.
  unfold omePixelTypeToZarr, jsObjGet, omePixelTypeMap, objectProtoKeys.
  generalize (toLowerCase omeType) as l. intros l.
  cbn [find fst snd In existsb].
  repeat match goal with
         | |- context [String.eqb ?a l] =>
             destruct (String.eqb_spec a l); [subst | ]
         | |- context [String.eqb l ?a] =>
             destruct (String.eqb_spec l a); [subst | ]
         end; cbn [orb].
  all: split; [intros d; split; intros H | split; intros H].
  all: repeat match goal with
           | H : _ \/ _ |- _ => destruct H as [H | H]
           | H : _ /\ _ |- _ => destruct H
           end;
    try (inversion H; subst; tauto); try tauto; try congruence;
    try discriminate.
  all: try (exfalso; eapply H; repeat (try (left; reflexivity); right)).
  all: try (split; [intros d0 Hd | intros Hk];
            repeat match goal with
                   | H : _ \/ _ |- _ => destruct H as [H | H]
                   end; try (inversion Hd; congruence); try congruence;
            try contradiction).
Qed.
Lemma hasChar_app (c : ascii) (s t : string) :
  hasChar c (s ++ t) = hasChar c s || hasChar c t.
Proof.
  induction s as [| d r IH]; simpl; [reflexivity |].
  rewrite IH. apply orb_assoc.
Qed.

Lemma replaceChar_removes (c : ascii) (rep s : string) :
  hasChar c rep = false -> hasChar c (replaceChar c rep s) = false.
Proof.
  intros Hrep. induction s as [| d r IH]; simpl; [reflexivity |].
  destruct (Ascii.eqb_spec d c).
  - rewrite hasChar_app, Hrep, IH. reflexivity.
  - simpl. rewrite IH. destruct (Ascii.eqb_spec d c); [contradiction | reflexivity].
Qed.

Lemma replaceChar_keeps (c d : ascii) (rep s : string) :
  hasChar d rep = false -> hasChar d s = false ->
  hasChar d (replaceChar c rep s) = false.
Proof.
  intros Hrep. induction s as [| e r IH]; simpl; [reflexivity |].
  intros H. apply orb_false_iff in H as [H1 H2].
  destruct (Ascii.eqb e c).
  - rewrite hasChar_app, Hrep, IH by exact H2. reflexivity.
  - simpl. rewrite H1, IH by exact H2. reflexivity.
Qed.

Lemma replaceChar_absent (c : ascii) (rep s : string) :
  hasChar c s = false -> replaceChar c rep s = s.
Proof.
  induction s as [| d r IH]; simpl; [reflexivity |].
  intros H. apply orb_false_iff in H as [H1 H2].
  rewrite H1, IH by exact H2. reflexivity.
Qed.

(** The output of [escapeXml] never contains [<], [>], a double quote or
    an apostrophe, whatever its input: an escaped value cannot end an
    attribute or a tag. *)
Theorem escapeXml_no_markup (str : string) :
  hasChar "<"%char (escapeXml str) = false /\
  hasChar ">"%char (escapeXml str) = false /\
  hasChar dq (escapeXml str) = false /\
  hasChar "'"%char (escapeXml str) = false.
Proof.
  unfold escapeXml.
  repeat split.
  - apply replaceChar_keeps; [reflexivity |].
    apply replaceChar_keeps; [reflexivity |].
    apply replaceChar_keeps; [reflexivity |].
    apply replaceChar_removes. reflexivity.
  - apply replaceChar_keeps; [reflexivity |].
    apply replaceChar_keeps; [reflexivity |].
    apply replaceChar_removes. reflexivity.
  - apply replaceChar_keeps; [reflexivity |].
    apply replaceChar_removes. reflexivity.
  - apply replaceChar_removes. reflexivity.
Qed.

(** [escapeXml] leaves a string without [&], [<], [>], double quotes and
    apostrophes unchanged. *)
Theorem escapeXml_plain (str : string) :
  hasChar "&"%char str = false -> hasChar "<"%char str = false ->
  hasChar ">"%char str = false -> hasChar dq str = false ->
  hasChar "'"%char str = false ->
  escapeXml str = str.
Proof.
  intros H1 H2 H3 H4 H5. unfold escapeXml.
  rewrite (replaceChar_absent "&"%char _ str H1).
  rewrite (replaceChar_absent "<"%char _ str H2).
  rewrite (replaceChar_absent ">"%char _ str H3).
  rewrite (replaceChar_absent dq _ str H4).
  apply replaceChar_absent. exact H5.
Qed.

Lemma escapeXml_plain_witness : escapeXml "DAPI 405" = "DAPI 405".
Proof. apply escapeXml_plain; reflexivity. Defined.

(** [hexColorToOmeInt] always returns a signed 32-bit integer, whatever
    the string (malformed digits are [NaN], which the bit operations
    read as 0). *)
Theorem hexColorToOmeInt_int32 (hex : string) :
  - 2 ^ 31 <= hexColorToOmeInt hex < 2 ^ 31.
Proof.
  unfold hexColorToOmeInt.
  match goal with
  | |- context [?x mod 2 ^ 32] =>
      pose proof (Z.mod_pos_bound x (2 ^ 32) ltac:(lia)) as Hb;
      generalize dependent (x mod 2 ^ 32)
  end.
  intros u Hb. destruct (Z.ltb_spec 2147483647 u); lia.
Qed.

(** [normalizeUnit] is idempotent: a unit it has normalised to a string
    normalises to the same string again.  A missing or empty unit gives
    [undefined]. *)
Theorem normalizeUnit_idempotent (unit : option string) (v : string) :
  normalizeUnit unit = Some (Own v) -> normalizeUnit (Some v) = Some (Own v).
Proof.
  destruct unit as [u |]; [| discriminate].
  unfold normalizeUnit.
  destruct (String.eqb u "") eqn:He; [discriminate |].
  unfold jsObjGet, normalizeUnitMap, objectProtoKeys.
  cbn [find fst].
  repeat match goal with
         | |- context [String.eqb ?a u] =>
             destruct (String.eqb_spec a u); [subst | ]
         end; intros H; inversion H; subst; try reflexivity.
  clear H1.
  destruct (existsb (String.eqb u) _) eqn:Ep in H; [discriminate |].
  inversion H; subst. rewrite He.
  cbn [find fst].
  repeat match goal with
         | |- context [String.eqb ?a v] =>
             destruct (String.eqb_spec a v); [congruence | ]
         end.
  rewrite Ep. reflexivity.
Qed.

Lemma normalizeUnit_idempotent_witness :
  normalizeUnit (Some "um") = Some (Own "micrometer") /\
  normalizeUnit (Some "micrometer") = Some (Own "micrometer").
Proof.
  split; [reflexivity |].
  apply (normalizeUnit_idempotent (Some "um")). reflexivity.
Defined.
Lemma hexPair_check :
  forallb (fun n =>
    let x := Z.of_nat n in
    let h := hexPair x in
    Nat.eqb (String.length h) 2 &&
    match parseInt16 h with Fin y => Z.eqb y x | NaN => false end &&
    negb (String.prefix "#" h))
  (seq 0 256) = true.
Proof. vm_compute. reflexivity. Qed.

Lemma hexPair_facts (x : Z) : 0 <= x < 256 ->
  String.length (hexPair x) = 2%nat /\ parseInt16 (hexPair x) = Fin x /\
  String.prefix "#" (hexPair x) = false.
Proof.
  intros Hx.
  pose proof hexPair_check as H. rewrite forallb_forall in H.
  specialize (H (Z.to_nat x)). rewrite Z2Nat.id in H by lia.
  assert (Hin : In (Z.to_nat x) (seq 0 256)) by (apply in_seq; lia).
  specialize (H Hin). cbv zeta in H.
  apply andb_prop in H as [H H3]. apply andb_prop in H as [H1 H2].
  apply Nat.eqb_eq in H1. apply negb_true_iff in H3.
  destruct (parseInt16 (hexPair x)) as [y |]; [| discriminate].
  apply Z.eqb_eq in H2. subst. auto.
Qed.

Lemma toInt32_mod (x : Z) : toInt32 (Fin x) mod 2 ^ 32 = x mod 2 ^ 32.
Proof.
  unfold toInt32. destruct (x mod 2 ^ 32 <? 2 ^ 31).
  - apply Z.mod_mod. lia.
  - rewrite <- Zminus_mod_idemp_l, Z.mod_mod by lia.
    replace (x mod 2 ^ 32 - 2 ^ 32) with (x mod 2 ^ 32 + (-1) * 2 ^ 32) by lia.
    rewrite Z.mod_add by lia. apply Z.mod_mod. lia.
Qed.

Lemma lor_mod32 (a b : Z) :
  Z.lor a b mod 2 ^ 32 = Z.lor (a mod 2 ^ 32) (b mod 2 ^ 32).
Proof.
  rewrite <- !Z.land_ones by lia. apply Z.land_lor_distr_l.
Qed.

Lemma lor_shiftl_low (a c k : Z) : 0 <= k -> 0 <= c < 2 ^ k ->
  Z.lor (a * 2 ^ k) c = a * 2 ^ k + c.
Proof.
  intros Hk Hc.
  assert (Hl : Z.land (a * 2 ^ k) c = 0).
  { apply Z.bits_inj'. intros i Hi. rewrite Z.land_spec, Z.bits_0.
    rewrite <- Z.shiftl_mul_pow2 by lia.
    destruct (Z.lt_ge_cases i k).
    - rewrite Z.shiftl_spec_low by lia. reflexivity.
    - rewrite <- (Z.mod_small c (2 ^ k)) by lia.
      rewrite Z.mod_pow2_bits_high by lia. apply andb_false_r. }
  rewrite (Z.add_nocarry_lxor _ _ Hl).
  symmetry. apply Z.lxor_lor. exact Hl.
Qed.

Lemma js_or_mod32 (a b : Z) :
  js_or a b mod 2 ^ 32 = Z.lor (a mod 2 ^ 32) (b mod 2 ^ 32).
Proof. unfold js_or. rewrite toInt32_mod. apply lor_mod32. Qed.

Lemma js_shl_small (x k : Z) : 0 <= k < 32 -> 0 <= x -> x * 2 ^ k < 2 ^ 31 ->
  js_shl (Fin x) k mod 2 ^ 32 = x * 2 ^ k.
Proof.
  intros Hk Hx Hs. unfold js_shl. rewrite toInt32_mod.
  assert (E : toInt32 (Fin x) = x).
  { unfold toInt32. assert (x < 2 ^ 31) by nia.
    rewrite Z.mod_small by lia. destruct (Z.ltb_spec x (2 ^ 31)); lia. }
  rewrite E, (Z.mod_small k 32) by lia. apply Z.mod_small.
  split; [nia | lia].
Qed.

Lemma js_shl_24 (x : Z) : 0 <= x < 256 ->
  js_shl (Fin x) 24 mod 2 ^ 32 = x * 2 ^ 24.
Proof.
  intros Hx. unfold js_shl. rewrite toInt32_mod.
  assert (E : toInt32 (Fin x) = x).
  { unfold toInt32. rewrite Z.mod_small by lia.
    destruct (Z.ltb_spec x (2 ^ 31)); lia. }
  rewrite E. change (24 mod 32) with 24. apply Z.mod_small. lia.
Qed.

Lemma hexColor_unsigned (r g b : Z) :
  0 <= r < 256 -> 0 <= g < 256 -> 0 <= b < 256 ->
  js_or (js_or (js_or (js_shl (Fin r) 24) (js_shl (Fin g) 16))
               (js_shl (Fin b) 8)) (toInt32 (Fin 255)) mod 2 ^ 32 =
  r * 2 ^ 24 + g * 2 ^ 16 + b * 2 ^ 8 + 255.
Proof.
  intros Hr Hg Hb.
  rewrite !js_or_mod32.
  rewrite js_shl_24, (js_shl_small g 16), (js_shl_small b 8) by lia.
  change (toInt32 (Fin 255) mod 2 ^ 32) with 255.
  rewrite (lor_shiftl_low r (g * 2 ^ 16) 24) by lia.
  replace (r * 2 ^ 24 + g * 2 ^ 16) with ((r * 2 ^ 8 + g) * 2 ^ 16) by ring.
  rewrite (lor_shiftl_low _ (b * 2 ^ 8) 16) by lia.
  replace ((r * 2 ^ 8 + g) * 2 ^ 16 + b * 2 ^ 8)
    with ((r * 2 ^ 16 + g * 2 ^ 8 + b) * 2 ^ 8) by ring.
  rewrite (lor_shiftl_low _ 255 8) by lia.
  ring.
Qed.

Lemma toUpperCase_app (s t : string) :
  toUpperCase (s ++ t) = toUpperCase s ++ toUpperCase t.
Proof. induction s as [| c r IH]; simpl; [reflexivity | rewrite IH; reflexivity]. Qed.

Lemma hexPair_shape (x : Z) : 0 <= x < 256 ->
  exists c d, hexPair x = String c (String d EmptyString) /\
    parseInt16 (String c (String d EmptyString)) = Fin x /\ c <> "#"%char.
Proof.
  intros Hx. destruct (hexPair_facts x Hx) as (Hl & Hp & Hh).
  destruct (hexPair x) as [| c [| d [| e s]]]; try discriminate.
  exists c, d. split; [reflexivity | split; [exact Hp |]].
  intros ->. discriminate.
Qed.

Lemma ushr_land_byte (u k : Z) : 0 <= u < 2 ^ 32 -> 0 <= k < 32 ->
  Z.land (js_ushr u k) 255 = (u / 2 ^ k) mod 256.
Proof.
  intros Hu Hk. unfold js_ushr. rewrite Z.mod_small, (Z.mod_small k) by lia.
  rewrite Z.shiftr_div_pow2 by lia.
  change 255 with (Z.ones 8). rewrite Z.land_ones by lia. reflexivity.
Qed.

(** [omeIntToHexColor] inverts [hexColorToOmeInt] on six-digit colours as
    it writes them (two uppercase hex digits per component), and a leading
    [#] does not change the parsed value. *)
Theorem hexColor_roundtrip (r g b : Z) :
  0 <= r < 256 -> 0 <= g < 256 -> 0 <= b < 256 ->
  let h := (hexPair r ++ hexPair g ++ hexPair b)%string in
  omeIntToHexColor (hexColorToOmeInt h) = h /\
  hexColorToOmeInt ("#" ++ h) = hexColorToOmeInt h.
Proof.
  intros Hr Hg Hb h.
  destruct (hexPair_shape r Hr) as (c1 & d1 & E1 & P1 & H1).
  destruct (hexPair_shape g Hg) as (c2 & d2 & E2 & P2 & H2).
  destruct (hexPair_shape b Hb) as (c3 & d3 & E3 & P3 & H3).
  assert (Hv : hexColorToOmeInt h =
    let u := r * 2 ^ 24 + g * 2 ^ 16 + b * 2 ^ 8 + 255 in
    if 2147483647 <? u then u - 4294967296 else u).
  { unfold hexColorToOmeInt, h. rewrite E1, E2, E3. cbn [append].
    assert (Hp : String.prefix "#" (String c1 (String d1 (String c2
      (String d2 (String c3 (String d3 EmptyString))))))  = false).
    { cbn [String.prefix]. destruct (ascii_dec "#" c1); [congruence | reflexivity]. }
    rewrite Hp. cbn [substring String.length Nat.leb].
    rewrite P1, P2, P3. rewrite hexColor_unsigned by assumption. reflexivity. }
  split.
  - rewrite Hv. cbv zeta.
    set (u := r * 2 ^ 24 + g * 2 ^ 16 + b * 2 ^ 8 + 255).
    assert (Hu : 0 <= u < 2 ^ 32) by (unfold u; lia).
    unfold omeIntToHexColor.
    assert (Eu : (if (if 2147483647 <? u then u - 4294967296 else u) <? 0
                  then (if 2147483647 <? u then u - 4294967296 else u)
                       + 4294967296
                  else (if 2147483647 <? u then u - 4294967296 else u)) = u).
    { destruct (Z.ltb_spec 2147483647 u); destruct (Z.ltb_spec (u - 4294967296) 0);
        destruct (Z.ltb_spec u 0); lia. }
    rewrite Eu, !ushr_land_byte by lia.
    assert (Rr : (u / 2 ^ 24) mod 256 = r).
    { unfold u. replace (r * 2 ^ 24 + g * 2 ^ 16 + b * 2 ^ 8 + 255)
        with ((g * 2 ^ 16 + b * 2 ^ 8 + 255) + r * 2 ^ 24) by ring.
      rewrite Z.div_add by lia. rewrite Z.div_small by lia.
      apply Z.mod_small. lia. }
    assert (Rg : (u / 2 ^ 16) mod 256 = g).
    { unfold u. replace (r * 2 ^ 24 + g * 2 ^ 16 + b * 2 ^ 8 + 255)
        with ((b * 2 ^ 8 + 255) + (r * 2 ^ 8 + g) * 2 ^ 16) by ring.
      rewrite Z.div_add by lia. rewrite (Z.div_small (b * 2 ^ 8 + 255)) by lia.
      replace (0 + (r * 2 ^ 8 + g)) with (g + r * 256) by ring.
      rewrite Z.mod_add by lia. apply Z.mod_small. lia. }
    assert (Rb : (u / 2 ^ 8) mod 256 = b).
    { unfold u. replace (r * 2 ^ 24 + g * 2 ^ 16 + b * 2 ^ 8 + 255)
        with (255 + (r * 2 ^ 16 + g * 2 ^ 8 + b) * 2 ^ 8) by ring.
      rewrite Z.div_add by lia. rewrite (Z.div_small 255) by lia.
      replace (0 + (r * 2 ^ 16 + g * 2 ^ 8 + b)) with (b + (r * 256 + g) * 256) by ring.
      rewrite Z.mod_add by lia. apply Z.mod_small. lia. }
    rewrite Rr, Rg, Rb, !toUpperCase_app. reflexivity.
  - rewrite Hv. unfold h. rewrite E1, E2, E3. cbn [append].
    unfold hexColorToOmeInt.
    cbn [String.prefix]. destruct (ascii_dec "#" "#") as [_ | n]; [| congruence].
    cbn [String.prefix substring String.length Nat.sub Nat.leb].
    rewrite P1, P2, P3. rewrite hexColor_unsigned by assumption. reflexivity.
Qed.

Lemma hexColor_roundtrip_witness :
  (0 <= 255 < 256 /\ 0 <= 128 < 256 /\ 0 <= 0 < 256) /\
  omeIntToHexColor (hexColorToOmeInt "FF8000") = "FF8000" /\
  hexColorToOmeInt "#FF8000" = hexColorToOmeInt "FF8000".
Proof.
  split; [lia |].
  exact (hexColor_roundtrip 255 128 0 ltac:(lia) ltac:(lia) ltac:(lia)).
Defined.
Lemma chainFrom_app a l b m c :
  chainFrom a l b -> chainFrom b m c -> chainFrom a (l ++ m)%list c.
Proof.
  revert a. induction l as [| p r IH]; simpl; intros a H1 H2.
  - subst. exact H2.
  - destruct H1 as [H0 H1]. split; [exact H0 | apply IH; assumption].
Qed.

Lemma placeIfdInfo_chain fmt info : infoWf fmt info -> forall cur,
  chainFrom cur (fst (placeIfdInfo info cur)) (snd (placeIfdInfo info cur)) /\
  Forall (placedWf fmt) (fst (placeIfdInfo info cur)).
Proof.
  induction info as [tags tiles subs ebs ov ts IHs] using IfdInfo_ind2.
  intros Hwf cur. inversion Hwf as [tags' tiles' subs' Hsubs]; subst.
  cbn [placeIfdInfo].
  match goal with
  | |- context [let '(_, _) := ?t in _] => destruct t as [rest c4] eqn:E
  end.
  match type of E with
  | ?F _ ?c3 = _ =>
      assert (Hrest : forall c rest' c', F subs c = (rest', c') ->
                chainFrom c rest' c' /\ Forall (placedWf fmt) rest')
  end.
  { clear E. induction subs as [| s r IHr]; intros c rest' c' Ec.
    - inversion Ec; subst. split; [reflexivity | constructor].
    - inversion IHs as [| ? ? IHa IHs']; subst.
      inversion Hsubs as [| ? ? Ha Hr]; subst.
      cbn in Ec. destruct (IHa Ha c) as [Hc Hf].
      destruct (placeIfdInfo s c) as [p cp] eqn:Ep.
      match type of Ec with
      | (let '(_, _) := ?t in _) = _ => destruct t as [q cq] eqn:Eq
      end.
      inversion Ec; subst. cbn [fst snd] in Hc, Hf.
      destruct (IHr IHs' (infoWf_intro fmt tags tiles r Hr) Hr cp q c' Eq)
        as [Hq Hfq].
      split; [eapply chainFrom_app; eassumption |
              apply Forall_app; split; assumption]. }
  destruct (Hrest _ _ _ E) as [Hc Hf].
  cbn [fst snd chainFrom]. split; [split; [reflexivity | exact Hc] |].
  constructor; [| exact Hf]. unfold placedWf; cbn. repeat split; ring.
Qed.

Lemma resolveIfdInfo_wf fmt w info :
  resolveIfdInfo fmt w = Some info -> infoWf fmt info.
Proof.
  revert info.
  induction w as [tags tiles subs IHs] using WritableIfd_ind2.
  intros info H. cbn [resolveIfdInfo] in H.
  destruct (mapOption resolveTag tags) as [userTags |]; [| discriminate].
  match type of H with
  | match ?m with _ => _ end = _ => destruct m as [subInfos |] eqn:Es
  end; [| discriminate].
  inversion H; subst. clear H. constructor.
  destruct subs as [s |]; [| inversion Es; constructor].
  revert subInfos Es. induction s as [| x r IHr]; intros subInfos Es.
  - inversion Es. constructor.
  - inversion IHs as [| ? ? IHx IHr']; subst.
    destruct (resolveIfdInfo fmt x) as [i |] eqn:Ex; [| discriminate].
    match type of Es with
    | match ?m with _ => _ end = _ => destruct m as [is |] eqn:Er
    end; [| discriminate].
    inversion Es; subst. constructor; [apply IHx; reflexivity |].
    apply (IHr IHr' is). reflexivity.
Qed.

Lemma mapOption_resolve_wf fmt ifds infos :
  mapOption (resolveIfdInfo fmt) ifds = Some infos -> Forall (infoWf fmt) infos.
Proof.
  revert infos. induction ifds as [| w r IH]; intros infos H; cbn in H.
  - inversion H. constructor.
  - destruct (resolveIfdInfo fmt w) as [i |] eqn:Ew; [| discriminate].
    destruct (mapOption (resolveIfdInfo fmt) r) as [is |]; [| discriminate].
    inversion H; subst. constructor; [eapply resolveIfdInfo_wf; eassumption |].
    apply IH; reflexivity.
Qed.

Lemma placeInfos_chain fmt infos : Forall (infoWf fmt) infos ->
  forall ps cur, chainFrom (headerSize fmt) ps cur ->
  Forall (placedWf fmt) ps ->
  let r := fold_left (fun acc info =>
             let '(ps, cur) := acc in
             let '(p, cur') := placeIfdInfo info cur in
             ((ps ++ p)%list, cur')) infos (ps, cur) in
  chainFrom (headerSize fmt) (fst r) (snd r) /\ Forall (placedWf fmt) (fst r).
Proof.
  induction infos as [| i r IH]; intros Hw ps cur Hc Hf; cbn [fold_left].
  - split; assumption.
  - inversion Hw as [| ? ? Hi Hr]; subst.
    destruct (placeIfdInfo_chain fmt i Hi cur) as [Hc' Hf'].
    destruct (placeIfdInfo i cur) as [p cur'] eqn:Ep. cbn [fst snd] in *.
    apply IH; [exact Hr | eapply chainFrom_app; eassumption |
               apply Forall_app; split; assumption].
Qed.

Lemma placeIfds_chain fmt ifds placed :
  placeIfds ifds fmt = Some placed ->
  exists stop, chainFrom (headerSize fmt) placed stop /\
               Forall (placedWf fmt) placed.
Proof.
  unfold placeIfds, placeInfos. intros H.
  destruct (mapOption (resolveIfdInfo fmt) ifds) as [infos |] eqn:Ei;
    [| discriminate].
  inversion H; subst. clear H.
  destruct (placeInfos_chain fmt infos (mapOption_resolve_wf _ _ _ Ei) nil
              (headerSize fmt) eq_refl (Forall_nil _)) as [Hc Hf].
  eexists. split; [exact Hc | exact Hf].
Qed.

Lemma chainFrom_nth a l b : chainFrom a l b ->
  (forall p, nth_error l 0 = Some p -> ifdOffset p = a) /\
  (forall i p q, nth_error l i = Some p -> nth_error l (S i) = Some q ->
     ifdOffset q = tileDataOffset p + totalTileSize (p_tiles p)).
Proof.
  revert a. induction l as [| x r IH]; intros a H; cbn in H.
  - split; [intros p Hp | intros i p q Hp Hq; destruct i]; discriminate.
  - destruct H as [H0 H1]. split.
    + intros p Hp. inversion Hp; subst. reflexivity.
    + intros i p q Hp Hq. destruct i as [| i].
      * inversion Hp; subst. destruct r as [| y r']; [discriminate |].
        inversion Hq; subst. apply H1.
      * apply (proj2 (IH _ H1) i); assumption.
Qed.

(** [placeIfds] lays the IFDs out back to back from the end of the header,
    in the order it pushes them: each IFD's entry block, then its overflow
    block of [overflowSize] bytes, then its tile data, and the next IFD
    starts right where the previous one's tile data ends. *)
Theorem placeIfds_layout fmt ifds placed :
  placeIfds ifds fmt = Some placed ->
  (forall p, nth_error placed 0 = Some p -> ifdOffset p = headerSize fmt) /\
  (forall i p q, nth_error placed i = Some p -> nth_error placed (S i) = Some q ->
     ifdOffset q = tileDataOffset p + totalTileSize (p_tiles p)) /\
  (forall p, In p placed ->
     overflowOffset p =
       ifdOffset p + ifdEntryBlockSize (Z.of_nat (List.length (p_tags p))) fmt /\
     p_overflowSize p = overflowSize (p_tags p) fmt /\
     tileDataOffset p = overflowOffset p + p_overflowSize p).
Proof.
  intros H. destruct (placeIfds_chain fmt ifds placed H) as (stop & Hc & Hf).
  destruct (chainFrom_nth _ _ _ Hc) as [H0 H1].
  split; [exact H0 | split; [exact H1 |]].
  intros p Hp. rewrite Forall_forall in Hf. exact (Hf p Hp).
Qed.

Lemma fold_add_acc (l : list Z) (a : Z) :
  fold_left Z.add l a = a + fold_left Z.add l 0.
Proof.
  revert a. induction l as [| x r IH]; intros a; cbn; [ring |].
  rewrite (IH (a + x)), (IH x). ring.
Qed.

Lemma overflowSize_nonneg tags fmt : 0 <= inlineThreshold fmt ->
  0 <= overflowSize tags fmt.
Proof.
  intros Ht. unfold overflowSize.
  assert (G : forall a, 0 <= a -> 0 <= fold_left (fun size t =>
    let n := rt_valueBytesLength t in
    if inlineThreshold fmt <? n
    then size + n + (if negb (n mod 2 =? 0) then 1 else 0)
    else size) tags a).
  { induction tags as [| t r IH]; intros a Ha; cbn; [exact Ha |].
    apply IH. destruct (Z.ltb_spec (inlineThreshold fmt) (rt_valueBytesLength t));
      [destruct (negb _) |]; lia. }
  apply G. lia.
Qed.

Lemma chainFrom_max fmt a l b :
  chainFrom a l b -> Forall (placedWf fmt) l ->
  0 <= inlineThreshold fmt -> (forall n, 0 <= n -> 0 <= ifdEntryBlockSize n fmt) ->
  Forall (fun p => Forall (Z.le 0) (p_tiles p)) l ->
  fold_left (fun maxEnd p =>
    Z.max maxEnd (tileDataOffset p + totalTileSize (p_tiles p))) l a = b /\
  b = a + sum_list (map (fun p =>
        ifdEntryBlockSize (Z.of_nat (List.length (p_tags p))) fmt +
        p_overflowSize p + totalTileSize (p_tiles p)) l).
Proof.
  revert a. induction l as [| p r IH]; intros a Hc Hf Ht He Hn; cbn in Hc |- *.
  - subst. unfold sum_list. cbn. split; ring.
  - destruct Hc as [H0 Hc].
    inversion Hf as [| ? ? (Ho & Hov & Htd) Hf']; subst.
    inversion Hn as [| ? ? Hp Hn']; subst.
    assert (Htile : 0 <= totalTileSize (p_tiles p)).
    { unfold totalTileSize, sum_list. clear -Hp.
      assert (G : forall a, 0 <= a -> 0 <= fold_left Z.add (p_tiles p) a).
      { induction (p_tiles p) as [| x r IH]; intros a Ha; cbn; [exact Ha |].
        inversion Hp; subst. apply IH; [assumption | lia]. }
      apply G. lia. }
    pose proof (overflowSize_nonneg (p_tags p) fmt Ht) as Hov0.
    pose proof (He (Z.of_nat (List.length (p_tags p))) ltac:(lia)) as He0.
    rewrite Z.max_r by lia.
    destruct (IH _ Hc Hf' Ht He Hn') as [Hm Hs]. split; [exact Hm |].
    rewrite Hs. unfold sum_list. cbn [map fold_left].
    rewrite (fold_add_acc _ (ifdEntryBlockSize _ _ + _ + _)). lia.
Qed.

(** With the classic or the BigTIFF format, the buffer size
    [computeTotalSize] returns for the IFDs [placeIfds] placed is exactly
    the header plus, for each placed IFD, its entry block, its overflow
    block and its tile data: no gap and no byte outside these regions. *)
Theorem computeTotalSize_exact fmt ifds placed :
  fmt = CLASSIC_FORMAT \/ fmt = BIGTIFF_FORMAT ->
  placeIfds ifds fmt = Some placed ->
  Forall (fun p => Forall (Z.le 0) (p_tiles p)) placed ->
  computeTotalSize placed fmt =
    headerSize fmt + sum_list (map (fun p =>
      ifdEntryBlockSize (Z.of_nat (List.length (p_tags p))) fmt +
      p_overflowSize p + totalTileSize (p_tiles p)) placed).
Proof.
  intros Hfmt H Hn.
  destruct (placeIfds_chain fmt ifds placed H) as (stop & Hc & Hf).
  assert (Ht : 0 <= inlineThreshold fmt) by (destruct Hfmt; subst; cbn; lia).
  assert (He : forall n, 0 <= n -> 0 <= ifdEntryBlockSize n fmt).
  { intros n Hn0. unfold ifdEntryBlockSize. destruct (magic fmt =? 42); lia. }
  destruct (chainFrom_max fmt _ _ _ Hc Hf Ht He Hn) as [Hm Hs].
  unfold computeTotalSize. destruct placed as [| p r].
  - cbn in Hc |- *. unfold sum_list. cbn. ring.
  - rewrite Hm. exact Hs.
Qed.

Lemma placeIfds_layout_witness :
  exists placed, placeIfds pyramidIfds CLASSIC_FORMAT = Some placed /\
  ((forall p, nth_error placed 0 = Some p -> ifdOffset p = headerSize CLASSIC_FORMAT) /\
   (forall i p q, nth_error placed i = Some p -> nth_error placed (S i) = Some q ->
      ifdOffset q = tileDataOffset p + totalTileSize (p_tiles p)) /\
   (forall p, In p placed ->
      overflowOffset p =
        ifdOffset p +
        ifdEntryBlockSize (Z.of_nat (List.length (p_tags p))) CLASSIC_FORMAT /\
      p_overflowSize p = overflowSize (p_tags p) CLASSIC_FORMAT /\
      tileDataOffset p = overflowOffset p + p_overflowSize p)).
Proof.
  eexists. split; [reflexivity |].
  exact (placeIfds_layout CLASSIC_FORMAT pyramidIfds _ eq_refl).
Defined.

Lemma computeTotalSize_exact_witness :
  exists placed, placeIfds pyramidIfds CLASSIC_FORMAT = Some placed /\
  Forall (fun p => Forall (Z.le 0) (p_tiles p)) placed /\
  computeTotalSize placed CLASSIC_FORMAT =
    headerSize CLASSIC_FORMAT + sum_list (map (fun p =>
      ifdEntryBlockSize (Z.of_nat (List.length (p_tags p))) CLASSIC_FORMAT +
      p_overflowSize p + totalTileSize (p_tiles p)) placed).
Proof.
  eexists. split; [reflexivity |].
  assert (Hn : Forall (fun p => Forall (Z.le 0) (p_tiles p))
     (placeInfos (match mapOption (resolveIfdInfo CLASSIC_FORMAT) pyramidIfds
                  with Some i => i | None => nil end) CLASSIC_FORMAT)).
  { vm_compute. repeat constructor; discriminate. }
  split; [exact Hn |].
  exact (computeTotalSize_exact CLASSIC_FORMAT pyramidIfds _
           (or_introl eq_refl) eq_refl Hn).
Defined.

Lemma insertByTag_perm x l : Permutation (insertByTag x l) (x :: l).
Proof.
  induction l as [| y r IH]; cbn; [reflexivity |].
  destruct (rt_tag y <=? rt_tag x).
  - rewrite IH. apply perm_swap.
  - reflexivity.
Qed.

Lemma sortByTag_perm l : Permutation (sortByTag l) l.
Proof.
  induction l as [| x r IH]; cbn; [reflexivity |].
  rewrite insertByTag_perm. apply perm_skip. exact IH.
Qed.

Lemma insertByTag_sorted x l :
  Sorted (fun a b => rt_tag a <= rt_tag b) l ->
  Sorted (fun a b => rt_tag a <= rt_tag b) (insertByTag x l).
Proof.
  induction l as [| y r IH]; intros Hs; cbn.
  - repeat constructor.
  - destruct (Z.leb_spec (rt_tag y) (rt_tag x)).
    + inversion Hs as [| ? ? Hr Hhd]; subst.
      constructor; [apply IH; exact Hr |].
      destruct r as [| z r']; cbn.
      * constructor. exact H.
      * inversion Hhd; subst.
        destruct (rt_tag z <=? rt_tag x); constructor; lia.
    + constructor; [exact Hs | constructor; lia].
Qed.

Lemma sortByTag_sorted l : Sorted (fun a b => rt_tag a <= rt_tag b) (sortByTag l).
Proof.
  induction l as [| x r IH]; cbn; [constructor | apply insertByTag_sorted; exact IH].
Qed.

(** Every IFD [resolveIfdInfo] builds has its entries in ascending tag
    order, and they are exactly the resolved user tags, the offsets and
    byte-counts placeholders (TileOffsets and TileByteCounts when the user
    tags have a TileWidth, StripOffsets and StripByteCounts otherwise), and
    a SubIFDs entry when the IFD has SubIFDs. *)
Theorem resolveIfdInfo_tags fmt tags tiles subs info :
  resolveIfdInfo fmt (mkWritableIfd tags tiles subs) = Some info ->
  match info with
  | mkIfdInfo allTags _ subInfos _ _ _ =>
      let tiled := existsb (fun t => tag t =? TAG_TILE_WIDTH) tags in
      let n := Z.of_nat (List.length tiles) in
      exists userTags, mapOption resolveTag tags = Some userTags /\
      Sorted (fun a b => rt_tag a <= rt_tag b) allTags /\
      Permutation allTags
        (userTags ++
         mkResolvedTag (if tiled then TAG_TILE_OFFSETS else TAG_STRIP_OFFSETS)
           (offsetType fmt) (n * offsetSize fmt) ::
         mkResolvedTag (if tiled then TAG_TILE_BYTE_COUNTS else TAG_STRIP_BYTE_COUNTS)
           (offsetType fmt) (n * offsetSize fmt) ::
         match subInfos with
         | nil => nil
         | _ => mkResolvedTag TAG_SUB_IFDS (offsetType fmt)
                  (Z.of_nat (List.length subInfos) * offsetSize fmt) :: nil
         end)%list
  end.
Proof.
  intros H. cbn [resolveIfdInfo] in H.
  destruct (mapOption resolveTag tags) as [userTags |] eqn:Eu; [| discriminate].
  match type of H with
  | match ?m with _ => _ end = _ => destruct m as [subInfos |]
  end; [| discriminate].
  inversion H; subst; clear H. exists userTags.
  split; [reflexivity | split; [apply sortByTag_sorted |]].
  rewrite sortByTag_perm.
  destruct subInfos as [| s r]; cbn [List.length Z.of_nat Z.ltb].
  - reflexivity.
  - replace (0 <? Z.of_nat (List.length (s :: r))) with true
      by (symmetry; apply Z.ltb_lt; cbn [List.length]; lia).
    rewrite <- !app_assoc. reflexivity.
Qed.

Lemma resolveIfdInfo_tags_witness :
  let tags := makeImageTags 512 512 8 1 CompNone (Some "<OME/>") false 256 in
  let tiles := [65536; 65536; 65536; 65536] in
  let subs := Some [mkWritableIfd (makeImageTags 256 256 8 1 CompNone None true 256)
                      [65536] None] in
  exists info,
  resolveIfdInfo CLASSIC_FORMAT (mkWritableIfd tags tiles subs) = Some info /\
  match info with
  | mkIfdInfo allTags _ subInfos _ _ _ =>
      let tiled := existsb (fun t => tag t =? TAG_TILE_WIDTH) tags in
      let n := Z.of_nat (List.length tiles) in
      exists userTags, mapOption resolveTag tags = Some userTags /\
      Sorted (fun a b => rt_tag a <= rt_tag b) allTags /\
      Permutation allTags
        (userTags ++
         mkResolvedTag (if tiled then TAG_TILE_OFFSETS else TAG_STRIP_OFFSETS)
           (offsetType CLASSIC_FORMAT) (n * offsetSize CLASSIC_FORMAT) ::
         mkResolvedTag (if tiled then TAG_TILE_BYTE_COUNTS else TAG_STRIP_BYTE_COUNTS)
           (offsetType CLASSIC_FORMAT) (n * offsetSize CLASSIC_FORMAT) ::
         match subInfos with
         | nil => nil
         | _ => mkResolvedTag TAG_SUB_IFDS (offsetType CLASSIC_FORMAT)
                  (Z.of_nat (List.length subInfos) * offsetSize CLASSIC_FORMAT) :: nil
         end)%list
  end.
Proof.
  intros tags tiles subs. eexists. split; [reflexivity |].
  exact (resolveIfdInfo_tags CLASSIC_FORMAT tags tiles subs _ eq_refl).
Defined.

Lemma overflowSize_even tags fmt : overflowSize tags fmt mod 2 = 0.
Proof.
  unfold overflowSize.
  assert (G : forall a, a mod 2 = 0 -> fold_left (fun size t =>
    let n := rt_valueBytesLength t in
    if inlineThreshold fmt <? n
    then size + n + (if negb (n mod 2 =? 0) then 1 else 0)
    else size) tags a mod 2 = 0).
  { induction tags as [| t r IH]; intros a Ha; cbn; [exact Ha |].
    apply IH. destruct (inlineThreshold fmt <? rt_valueBytesLength t); [| exact Ha].
    destruct (Z.eqb_spec (rt_valueBytesLength t mod 2) 0) as [E | E]; cbn.
    - rewrite Z.add_0_r, Zplus_mod, Ha, E. reflexivity.
    - assert (E1 : rt_valueBytesLength t mod 2 = 1)
        by (pose proof (Z.mod_pos_bound (rt_valueBytesLength t) 2); lia).
      rewrite Zplus_mod, (Zplus_mod a), Ha, E1. reflexivity. }
  apply G. reflexivity.
Qed.

Lemma ifdEntryBlockSize_even n fmt : ifdEntryBlockSize n fmt mod 2 = 0.
Proof.
  unfold ifdEntryBlockSize. destruct (magic fmt =? 42).
  - replace (2 + n * 12 + 4) with (0 + (3 + n * 6) * 2) by ring.
    rewrite Z.mod_add by lia. reflexivity.
  - replace (8 + n * 20 + 8) with (0 + (8 + n * 10) * 2) by ring.
    rewrite Z.mod_add by lia. reflexivity.
Qed.

Lemma sum_even (l : list Z) : Forall (fun t => t mod 2 = 0) l ->
  sum_list l mod 2 = 0.
Proof.
  unfold sum_list. intros H.
  assert (G : forall a, a mod 2 = 0 -> fold_left Z.add l a mod 2 = 0).
  { induction H as [| x r Hx Hr IH]; intros a Ha; cbn; [exact Ha |].
    apply IH. rewrite Zplus_mod, Ha, Hx. reflexivity. }
  apply G. reflexivity.
Qed.

Lemma chainFrom_even fmt a l b :
  chainFrom a l b -> a mod 2 = 0 -> Forall (placedWf fmt) l ->
  Forall (fun p => Forall (fun t => t mod 2 = 0) (p_tiles p)) l ->
  Forall (fun p => ifdOffset p mod 2 = 0 /\ overflowOffset p mod 2 = 0 /\
                   tileDataOffset p mod 2 = 0) l.
Proof.
  revert a. induction l as [| p r IH]; intros a Hc Ha Hf Ht; [constructor |].
  cbn in Hc. destruct Hc as [H0 Hc].
  inversion Hf as [| ? ? (Ho & Hov & Htd) Hf']; subst.
  inversion Ht as [| ? ? Hp Ht']; subst.
  assert (E1 : overflowOffset p mod 2 = 0).
  { rewrite Ho, Zplus_mod, Ha, ifdEntryBlockSize_even. reflexivity. }
  assert (E2 : tileDataOffset p mod 2 = 0).
  { rewrite Htd, Zplus_mod, E1, Hov, overflowSize_even. reflexivity. }
  constructor; [split; [exact Ha | split; assumption] |].
  apply (IH _ Hc); [| exact Hf' | exact Ht'].
  unfold totalTileSize. rewrite Zplus_mod, E2, sum_even by exact Hp. reflexivity.
Qed.

(** [placeIfds] keeps every region word-aligned as long as the tiles are:
    overflow blocks are padded to an even size and entry blocks are even
    in both formats, so when every tile has an even byte length, every IFD
    offset, overflow offset and tile-data offset is even. *)
Theorem placeIfds_word_aligned fmt ifds placed :
  fmt = CLASSIC_FORMAT \/ fmt = BIGTIFF_FORMAT ->
  placeIfds ifds fmt = Some placed ->
  Forall (fun p => Forall (fun t => t mod 2 = 0) (p_tiles p)) placed ->
  forall p, In p placed ->
    ifdOffset p mod 2 = 0 /\ overflowOffset p mod 2 = 0 /\
    tileDataOffset p mod 2 = 0.
Proof.
  intros Hfmt H Ht.
  destruct (placeIfds_chain fmt ifds placed H) as (stop & Hc & Hf).
  assert (Hh : headerSize fmt mod 2 = 0) by (destruct Hfmt; subst; reflexivity).
  apply Forall_forall. exact (chainFrom_even fmt _ _ _ Hc Hh Hf Ht).
Qed.

Lemma placeIfds_word_aligned_witness :
  exists placed, placeIfds pyramidIfds BIGTIFF_FORMAT = Some placed /\
  Forall (fun p => Forall (fun t => t mod 2 = 0) (p_tiles p)) placed /\
  (forall p, In p placed ->
     ifdOffset p mod 2 = 0 /\ overflowOffset p mod 2 = 0 /\
     tileDataOffset p mod 2 = 0).
Proof.
  eexists. split; [reflexivity |].
  assert (Ht : Forall (fun p => Forall (fun t => t mod 2 = 0) (p_tiles p))
     (placeInfos (match mapOption (resolveIfdInfo BIGTIFF_FORMAT) pyramidIfds
                  with Some i => i | None => nil end) BIGTIFF_FORMAT)).
  { vm_compute. repeat constructor. }
  split; [exact Ht |].
  exact (placeIfds_word_aligned BIGTIFF_FORMAT pyramidIfds _
           (or_intror eq_refl) eq_refl Ht).
Defined.
(** A unit the writer converts with [ngffUnitToOmeUnit] and the reader
    normalises again with [normalizeUnit] comes back as the same NGFF name
    exactly for micrometer, nanometer, millimeter, centimeter and meter;
    the other 21 NGFF units of the table come back as their OME symbol. *)
Theorem ngffUnit_normalize_roundtrip (u v : string) :
  In (u, v) ngffUnitMap ->
  ngffUnitToOmeUnit u = Own v /\
  (normalizeUnit (Some v) = Some (Own u) <->
   In u ["micrometer"; "nanometer"; "millimeter"; "centimeter"; "meter"]) /\
  (normalizeUnit (Some v) <> Some (Own u) -> normalizeUnit (Some v) = Some (Own v)).
Proof.
  intros H. unfold ngffUnitMap in H.
  repeat (destruct H as [H | H]; [inversion H; subst; clear H;
    vm_compute; split; [reflexivity |];
    split; [split; intros Hx; [try discriminate | ];
            repeat (destruct Hx as [Hx | Hx]; try discriminate); try reflexivity;
            try contradiction;
            try (repeat (try (left; reflexivity); right)) |];
    intros Hn; try reflexivity; exfalso; apply Hn; reflexivity |]).
  contradiction.
Qed.

Lemma ngffUnit_normalize_roundtrip_witness :
  In ("micrometer", mu_m) ngffUnitMap /\
  ngffUnitToOmeUnit "micrometer" = Own mu_m /\
  (normalizeUnit (Some mu_m) = Some (Own "micrometer") <->
   In "micrometer" ["micrometer"; "nanometer"; "millimeter"; "centimeter"; "meter"]) /\
  (normalizeUnit (Some mu_m) <> Some (Own "micrometer") ->
   normalizeUnit (Some mu_m) = Some (Own mu_m)).
Proof.
  assert (H : In ("micrometer", mu_m) ngffUnitMap)
    by (unfold ngffUnitMap; repeat (try (left; reflexivity); right)).
  split; [exact H | exact (ngffUnit_normalize_roundtrip _ _ H)].
Defined.

Lemma hasNonWs_app a b : hasNonWs (a ++ b) = hasNonWs a || hasNonWs b.
Proof. induction a as [| c r IH]; cbn; [reflexivity | rewrite IH, orb_assoc; reflexivity]. Qed.

Lemma trimEnd_nonempty s : hasNonWs s = true -> trimEnd s <> "".
Proof.
  induction s as [| c r IH]; cbn; [discriminate |]. intros H.
  destruct (String.eqb_spec (trimEnd r) "") as [E | E]; cbn.
  - destruct (is_js_ws c) eqn:Ec; [| discriminate].
    cbn in H. apply IH in H. contradiction.
  - discriminate.
Qed.

Lemma trimEnd_app a b : hasNonWs b = true -> trimEnd (a ++ b) = a ++ trimEnd b.
Proof.
  intros Hb. induction a as [| c r IH]; cbn; [reflexivity |].
  rewrite IH. destruct (String.eqb_spec (r ++ trimEnd b) "") as [E | E].
  - exfalso. destruct r; [| discriminate]. cbn in E.
    exact (trimEnd_nonempty b Hb E).
  - reflexivity.
Qed.

(** Every description [buildOmeXml] writes is recognised by [isOmeXml]:
    it starts with the XML declaration, whatever the dimensions, names,
    channels and units. *)
Theorem isOmeXml_buildOmeXml dims phys metadataName omero dtype
    optDimensionOrder optCreator optImageName :
  isOmeXml (buildOmeXml dims phys metadataName omero dtype
              optDimensionOrder optCreator optImageName) = true.
Proof.
  unfold buildOmeXml.
  match goal with
  | |- isOmeXml (lit ?a ++ (nl ++ (lit ?b ++ ?rest))) = true =>
      set (A := lit a); set (R := nl ++ (lit b ++ rest));
      assert (HR : hasNonWs R = true)
        by (unfold R; rewrite !hasNonWs_app; reflexivity)
  end.
  assert (HA : exists r, A = String "<"%char r) by (eexists; reflexivity).
  destruct HA as [r HA].
  unfold isOmeXml, trim. rewrite HA. cbn [append String.eqb].
  change (trimStart (String "<"%char (r ++ R))) with (String "<"%char (r ++ R)).
  replace (String "<"%char (r ++ R)) with (A ++ R) by (rewrite HA; reflexivity).
  rewrite (trimEnd_app A R HR).
  unfold A. reflexivity.
Qed.

(** [isOmeXml] ignores leading white space: [isOmeXml (w ++ s)] is
    [isOmeXml s] when [w] is only white space, so in particular a string of
    white space alone is not OME-XML. *)
Theorem isOmeXml_leading_ws w s :
  all_ws w = true -> isOmeXml (w ++ s) = isOmeXml s.
Proof.
  intros Hw. unfold isOmeXml, trim.
  rewrite (trimStart_ws_app w s Hw).
  destruct (String.eqb_spec (w ++ s) "") as [E | E];
    destruct (String.eqb_spec s "") as [E' | E']; subst.
  - reflexivity.
  - destruct w; [| discriminate]. contradiction.
  - reflexivity.
  - reflexivity.
Qed.

Lemma isOmeXml_leading_ws_witness :
  isOmeXml (String (ascii_of_nat 10) "  " ++ "<OME/>") = isOmeXml "<OME/>".
Proof. apply isOmeXml_leading_ws. reflexivity. Defined.









(** [processIfdAsync] with [compression = "none"] returns the IFD as it
    was, at every depth. *)
Theorem processIfdAsync_none compressTiles ifd :
  processIfdAsync compressTiles ifd CompNone = ifd.
Proof.
  induction ifd as [tags tiles subs IHs] using WritableIfd_ind2.
  cbn. f_equal. destruct subs as [s |]; [| reflexivity].
  f_equal. induction IHs as [| x r Hx Hr IH]; cbn; [reflexivity |].
  rewrite Hx, IH. reflexivity.
Qed.


Lemma applyWrites_app ws1 ws2 mem :
  applyWrites (ws1 ++ ws2) mem = applyWrites ws2 (applyWrites ws1 mem).
Proof. unfold applyWrites. apply fold_left_app. Qed.

Lemma applyWrites_cons w ws mem x :
  applyWrites (w :: ws) mem x =
  applyWrites ws (fun y => if y =? fst w then snd w else mem y) x.
Proof. reflexivity. Qed.

Lemma applyWrites_outside ws mem x :
  Forall (fun w => fst w <> x) ws -> applyWrites ws mem x = mem x.
Proof.
  revert mem. induction ws as [| w r IH]; intros mem H; [reflexivity |].
  inversion H as [| ? ? Hw Hr]; subst. rewrite applyWrites_cons, IH by exact Hr.
  destruct (Z.eqb_spec x (fst w)); [congruence | reflexivity].
Qed.

Lemma applyWrites_last ws mem x b :
  Forall (fun w => fst w <> x) ws ->
  applyWrites ((x, b) :: ws) mem x = b.
Proof.
  intros H. rewrite applyWrites_cons, applyWrites_outside by exact H.
  cbn. rewrite Z.eqb_refl. reflexivity.
Qed.

Lemma bytes4 (u : Z) : 0 <= u < 2 ^ 32 ->
  u mod 256 + 256 * ((u / 2 ^ 8) mod 256 + 256 * ((u / 2 ^ 16) mod 256 +
  256 * (u / 2 ^ 24 + 256 * 0))) = u.
Proof.
  intros Hu.
  assert (E16 : u / 2 ^ 16 = (u / 2 ^ 8) / 256)
    by (rewrite Z.div_div by lia; reflexivity).
  assert (E24 : u / 2 ^ 24 = (u / 2 ^ 16) / 256)
    by (rewrite Z.div_div by lia; reflexivity).
  pose proof (Z.div_mod u 256 ltac:(lia)) as D0.
  pose proof (Z.div_mod (u / 2 ^ 8) 256 ltac:(lia)) as D1.
  pose proof (Z.div_mod (u / 2 ^ 16) 256 ltac:(lia)) as D2.
  change (2 ^ 8) with 256 in *. rewrite <- E16 in D1. rewrite <- E24 in D2.
  lia.
Qed.

Lemma bytes2 (u : Z) : 0 <= u < 2 ^ 16 ->
  u mod 256 + 256 * (u / 256 + 256 * 0) = u.
Proof. intros Hu. pose proof (Z.div_mod u 256 ltac:(lia)). lia. Qed.

Ltac solve_addr :=
  repeat constructor; cbn [fst]; lia.


Ltac decide_addr :=
  repeat match goal with
         | |- context [?a =? ?b] => destruct (Z.eqb_spec a b); try lia
         end.

Lemma setUint32LE_read mem off v : 0 <= v < 2 ^ 32 ->
  readLE (applyWrites (setUint32LE off v) mem) off 4 = v.
Proof.
  intros Hv. unfold setUint32LE, applyWrites. rewrite (Z.mod_small v) by lia.
  cbn [readLE fold_left fst snd]. decide_addr. apply bytes4. exact Hv.
Qed.

Lemma setUint16LE_read mem off v : 0 <= v < 2 ^ 16 ->
  readLE (applyWrites (setUint16LE off v) mem) off 2 = v.
Proof.
  intros Hv. unfold setUint16LE, applyWrites. rewrite (Z.mod_small v) by lia.
  cbn [readLE fold_left fst snd]. decide_addr. apply bytes2. exact Hv.
Qed.

Lemma readLE_outside ws mem off n :
  Forall (fun w => fst w < off \/ off + Z.of_nat n <= fst w) ws ->
  readLE (applyWrites ws mem) off n = readLE mem off n.
Proof.
  revert off. induction n as [| k IH]; intros off H; [reflexivity |].
  cbn [readLE]. rewrite applyWrites_outside.
  - rewrite IH; [reflexivity |].
    eapply Forall_impl; [| exact H]. intros w Hw. cbn beta in Hw. lia.
  - eapply Forall_impl; [| exact H]. intros w Hw. cbn beta in Hw. lia.
Qed.

Lemma readLE_split mem off a b :
  readLE mem off (a + b) = readLE mem off a + 256 ^ Z.of_nat a * readLE mem (off + Z.of_nat a) b.
Proof.
  revert off. induction a as [| a IH]; intros off.
  - cbn [readLE Nat.add Z.of_nat]. rewrite Z.add_0_r, Z.pow_0_r. ring.
  - cbn [Nat.add readLE]. rewrite IH.
    replace (off + 1 + Z.of_nat a) with (off + Z.of_nat (S a)) by lia.
    rewrite Nat2Z.inj_succ, Z.pow_succ_r by lia. ring.
Qed.

Lemma setUint32LE_addrs off v :
  Forall (fun w => off <= fst w < off + 4) (setUint32LE off v).
Proof. unfold setUint32LE. repeat constructor; cbn [fst]; lia. Qed.

Lemma setUint16LE_addrs off v :
  Forall (fun w => off <= fst w < off + 2) (setUint16LE off v).
Proof. unfold setUint16LE. repeat constructor; cbn [fst]; lia. Qed.

Lemma setBigUint64_readLE mem off value : 0 <= value < 2 ^ 64 ->
  readLE (applyWrites (setBigUint64 off value) mem) off 8 = value.
Proof.
  intros Hv. unfold setBigUint64.
  rewrite applyWrites_app.
  change 8%nat with (4 + 4)%nat. rewrite readLE_split.
  rewrite readLE_outside.
  2: { eapply Forall_impl; [| apply setUint32LE_addrs]. intros w Hw. cbn in *. lia. }
  rewrite setUint32LE_read.
  2: { unfold js_ushr. rewrite Z.shiftr_0_r. apply Z.mod_pos_bound. lia. }
  rewrite setUint32LE_read.
  2: { unfold js_ushr. rewrite Z.shiftr_0_r. apply Z.mod_pos_bound. lia. }
  unfold js_ushr. rewrite !Z.shiftr_0_r. change (0 mod 32) with 0.
  rewrite Z.quot_div_nonneg by lia.
  rewrite (Z.mod_small (value / 4294967296)).
  2: { split; [apply Z.div_pos; lia | apply Z.div_lt_upper_bound; lia]. }
  change (Z.of_nat 4) with 4. change (256 ^ 4) with 4294967296.
  change (2 ^ 32) with 4294967296.
  pose proof (Z.div_mod value 4294967296 ltac:(lia)). lia.
Qed.

(** [setBigUint64] stores an offset or count below [2^64] as the eight
    little-endian bytes of that value, so a reader of the 8-byte field
    gets the value back. *)
Theorem setBigUint64_read mem off value : 0 <= value < 2 ^ 64 ->
  readLE (applyWrites (setBigUint64 off value) mem) off 8 = value.
Proof. apply setBigUint64_readLE. Qed.

Lemma setBigUint64_read_witness :
  0 <= 5000000000 < 2 ^ 64 /\
  readLE (applyWrites (setBigUint64 8 5000000000) (fun _ => 0)) 8 8 = 5000000000.
Proof. split; [lia | apply setBigUint64_read; lia]. Defined.

Ltac away H := eapply Forall_impl; [| apply H]; cbn beta; intros; cbn [Z.of_nat]; lia.

(** [writeHeader] writes only inside the header ([headerSize] bytes) and
    lays it out as a reader expects: the byte order mark [II] (0x4949),
    the magic number, and, for classic TIFF, the first IFD offset as a
    4-byte field; for BigTIFF the offset size 8, a zero word and the first
    IFD offset as an 8-byte field. *)
Theorem writeHeader_layout mem off :
  (0 <= off < 2 ^ 32 ->
   let m := applyWrites (writeHeader CLASSIC_FORMAT off) mem in
   readLE m 0 2 = 18761 /\ readLE m 2 2 = 42 /\ readLE m 4 4 = off /\
   Forall (fun w => 0 <= fst w < headerSize CLASSIC_FORMAT)
     (writeHeader CLASSIC_FORMAT off)) /\
  (0 <= off < 2 ^ 64 ->
   let m := applyWrites (writeHeader BIGTIFF_FORMAT off) mem in
   readLE m 0 2 = 18761 /\ readLE m 2 2 = 43 /\ readLE m 4 2 = 8 /\
   readLE m 6 2 = 0 /\ readLE m 8 8 = off /\
   Forall (fun w => 0 <= fst w < headerSize BIGTIFF_FORMAT)
     (writeHeader BIGTIFF_FORMAT off)).
Proof.
  assert (A16 : forall o v, Forall (fun w => o <= fst w < o + 2) (setUint16LE o v))
    by apply setUint16LE_addrs.
  assert (A32 : forall o v, Forall (fun w => o <= fst w < o + 4) (setUint32LE o v))
    by apply setUint32LE_addrs.
  assert (A64 : forall o v, Forall (fun w => o <= fst w < o + 8) (setBigUint64 o v)).
  { intros o v. unfold setBigUint64. apply Forall_app. split.
    - eapply Forall_impl; [| apply A32]. cbn beta. intros; unfold CLASSIC_FORMAT, BIGTIFF_FORMAT; cbn [headerSize]; lia.
    - eapply Forall_impl; [| apply A32]. cbn beta. intros; unfold CLASSIC_FORMAT, BIGTIFF_FORMAT; cbn [headerSize]; lia. }
  split; intros Hoff m; unfold m, writeHeader; cbn [magic CLASSIC_FORMAT BIGTIFF_FORMAT Z.eqb Pos.eqb];
    cbn [headerSize]; rewrite ?applyWrites_app.
  - split; [| split; [| split]].
    + rewrite readLE_outside by away A32. rewrite readLE_outside by away A16.
      apply setUint16LE_read. lia.
    + rewrite readLE_outside by away A32. apply setUint16LE_read. lia.
    + apply setUint32LE_read. exact Hoff.
    + apply Forall_app. split; [| apply Forall_app; split].
      * eapply Forall_impl; [| apply A16]. cbn beta. intros; unfold CLASSIC_FORMAT, BIGTIFF_FORMAT; cbn [headerSize]; lia.
      * eapply Forall_impl; [| apply A16]. cbn beta. intros; unfold CLASSIC_FORMAT, BIGTIFF_FORMAT; cbn [headerSize]; lia.
      * eapply Forall_impl; [| apply A32]. cbn beta. intros; unfold CLASSIC_FORMAT, BIGTIFF_FORMAT; cbn [headerSize]; lia.
  - split; [| split; [| split; [| split; [| split]]]].
    + rewrite readLE_outside by away A64. rewrite readLE_outside by away A16.
      rewrite readLE_outside by away A16. rewrite readLE_outside by away A16.
      apply setUint16LE_read. lia.
    + rewrite readLE_outside by away A64. rewrite readLE_outside by away A16.
      rewrite readLE_outside by away A16. apply setUint16LE_read. lia.
    + rewrite readLE_outside by away A64. rewrite readLE_outside by away A16.
      apply setUint16LE_read. lia.
    + rewrite readLE_outside by away A64. apply setUint16LE_read. lia.
    + apply setBigUint64_readLE. exact Hoff.
    + apply Forall_app. split; [| apply Forall_app; split;
        [| apply Forall_app; split; [| apply Forall_app; split]]].
      all: eapply Forall_impl; [| first [apply A16 | apply A64]];
        cbn beta; intros; unfold BIGTIFF_FORMAT; cbn [headerSize]; lia.
Qed.

Lemma writeHeader_layout_witness :
  let m := applyWrites (writeHeader CLASSIC_FORMAT 8) (fun _ => 0) in
  readLE m 0 2 = 18761 /\ readLE m 2 2 = 42 /\ readLE m 4 4 = 8 /\
  Forall (fun w => 0 <= fst w < headerSize CLASSIC_FORMAT)
    (writeHeader CLASSIC_FORMAT 8).
Proof. apply (proj1 (writeHeader_layout (fun _ => 0) 8)). lia. Defined.
Lemma nth_splice (l s : list Z) (o i : nat) :
  (o + List.length s <= List.length l)%nat ->
  nth i (firstn o l ++ s ++ skipn (o + List.length s) l)%list 0 =
  if (i <? o)%nat then nth i l 0
  else if (i <? o + List.length s)%nat then nth (i - o) s 0 else nth i l 0.
Proof.
  intros H.
  assert (Hf : List.length (firstn o l) = o) by (rewrite length_firstn; lia).
  destruct (Nat.ltb_spec i o) as [Hi|Hi].
  - rewrite app_nth1 by lia. rewrite nth_firstn. destruct (Nat.ltb_spec i o); [reflexivity|lia].
  - rewrite app_nth2 by lia. rewrite Hf.
    destruct (Nat.ltb_spec i (o + List.length s)) as [Hj|Hj].
    + rewrite app_nth1 by lia. reflexivity.
    + rewrite app_nth2 by lia. rewrite nth_skipn. f_equal. lia.
Qed.

Lemma padEdgeChunk_content (data : list Z) (sw sh dw dh bpe : Z) :
  0 < bpe -> 0 <= sw <= dw -> 0 <= sh <= dh ->
  sh * (sw * bpe) <= Z.of_nat (List.length data) ->
  exists out, padEdgeChunk data (Fin sw) (Fin sh) (Fin dw) (Fin dh) bpe = Some out /\
    Z.of_nat (List.length out) = dw * dh * bpe /\
    forall r j, 0 <= r < dh -> 0 <= j < dw * bpe ->
      nth (Z.to_nat (r * (dw * bpe) + j)) out 0 =
        if (r <? sh) && (j <? sw * bpe) then nth (Z.to_nat (r * (sw * bpe) + j)) data 0 else 0.
Proof.
  intros Hb Hw Hh Hd.
  set (sR := sw * bpe). set (dR := dw * bpe).
  assert (HsR : 0 <= sR <= dR) by (unfold sR, dR; nia).
  unfold padEdgeChunk, u8_new, num_mul.
  destruct (Z.ltb_spec (dw * dh * bpe) 0) as [Hn|Hn]; [nia|].
  set (out0 := repeat 0 (Z.to_nat (dw * dh * bpe))).
  change (sw * bpe) with sR. change (dw * bpe) with dR.
  unfold loopRows, zrange.
  (* invariant over the first k rows *)
  assert (Inv : forall k : nat, (Z.of_nat k <= sh) ->
    exists out, fold_left
      (fun acc row =>
         match acc with
         | None => None
         | Some out =>
             u8_setZ out (subarrayN data (Fin (row * sR)) (num_add (Fin (row * sR)) (Fin sR)))
               (row * dR)
         end) (map Z.of_nat (seq 0 k)) (Some out0) = Some out /\
      Z.of_nat (List.length out) = dw * dh * bpe /\
      forall r j, 0 <= r < dh -> 0 <= j < dR ->
        nth (Z.to_nat (r * dR + j)) out 0 =
          if (r <? Z.of_nat k) && (j <? sR) then nth (Z.to_nat (r * sR + j)) data 0 else 0).
  { induction k as [|k IH]; intros Hk.
    - exists out0. split; [reflexivity|]. split.
      + unfold out0. rewrite repeat_length. lia.
      + intros r j Hr Hj. unfold out0. rewrite nth_repeat.
        destruct (Z.ltb_spec r (Z.of_nat 0)); [lia|reflexivity].
    - destruct (IH ltac:(lia)) as [out [Ef [Hl Hc]]].
      rewrite seq_S, map_app, fold_left_app, Ef. cbn [map fold_left num_add].
      set (kz := Z.of_nat (0 + k)).
      assert (Hkz : kz = Z.of_nat k) by (unfold kz; lia).
      assert (Hsub : subarrayN data (Fin (kz * sR)) (Fin (kz * sR + sR)) =
                     firstn (Z.to_nat sR) (skipn (Z.to_nat (kz * sR)) data)).
      { unfold subarrayN, relIndex.
        assert (kz * sR + sR <= Z.of_nat (List.length data)) by nia.
        destruct (Z.ltb_spec (kz * sR) 0); [nia|].
        destruct (Z.ltb_spec (kz * sR + sR) 0); [nia|].
        rewrite (Z.min_l (kz * sR)) by nia. rewrite Z.min_l by nia.
        f_equal. f_equal. lia. }
      rewrite Hsub.
      set (src := firstn (Z.to_nat sR) (skipn (Z.to_nat (kz * sR)) data)).
      assert (Hsl : List.length src = Z.to_nat sR).
      { unfold src. rewrite length_firstn, length_skipn. nia. }
      assert (Hfit : kz * dR + sR <= dw * dh * bpe).
      { assert (kz + 1 <= dh) by lia.
        assert ((kz + 1) * dR <= dh * dR) by nia. unfold dR in *. nia. }
      unfold u8_setZ.
      destruct (Z.ltb_spec (kz * dR) 0); [nia|].
      destruct (Z.ltb_spec (Z.of_nat (List.length out)) (kz * dR + Z.of_nat (List.length src)));
        [lia|].
      cbn [orb]. eexists. split; [reflexivity|]. split.
      + rewrite !length_app, length_firstn, length_skipn. lia.
      + intros r j Hr Hj.
        rewrite nth_splice by lia.
        rewrite Hsl.
        destruct (Nat.ltb_spec (Z.to_nat (r * dR + j)) (Z.to_nat (kz * dR))) as [H1|H1].
        * rewrite Hc by lia.
          assert (r < kz) by nia.
          destruct (Z.ltb_spec r (Z.of_nat k)); destruct (Z.ltb_spec r (Z.of_nat (S k))); try lia; reflexivity.
        * destruct (Nat.ltb_spec (Z.to_nat (r * dR + j)) (Z.to_nat (kz * dR) + Z.to_nat sR))
            as [H2|H2].
          -- assert (r = kz) by nia. subst r.
             assert (Hj' : j < sR) by lia.
             destruct (Z.ltb_spec kz (Z.of_nat (S k))); [|lia].
             destruct (Z.ltb_spec j sR); [|lia]. cbn [andb].
             unfold src. rewrite nth_firstn.
             destruct (Nat.ltb_spec (Z.to_nat (kz * dR + j) - Z.to_nat (kz * dR)) (Z.to_nat sR));
               [|lia].
             rewrite nth_skipn. f_equal. lia.
          -- rewrite Hc by lia.
             assert (r > kz \/ (r = kz /\ j >= sR)) by nia.
             destruct (Z.ltb_spec r (Z.of_nat k)); destruct (Z.ltb_spec r (Z.of_nat (S k)));
               destruct (Z.ltb_spec j sR); cbn [andb]; try reflexivity; lia. }
  destruct (Inv (Z.to_nat sh) ltac:(lia)) as [out [Ef [Hl Hc]]].
  exists out. split; [exact Ef|]. split; [exact Hl|].
  intros r j Hr Hj. rewrite Hc by lia. rewrite Z2Nat.id by lia. reflexivity.
Qed.

Lemma bytesPerElement_pos (d : ZarrDataType) : 0 < bytesPerElement d.
Proof. destruct d; cbn; lia. Qed.

Theorem readChunk_layout
  (readRasters : PlaneSelection -> Z -> num * num * num * num -> option (list Z))
  (sel : PlaneSelection) (lvl cy cx ch cw iw ih : Z) (dtype : ZarrDataType) (data : list Z) :
  0 <= cx -> 0 <= cy -> 0 < cw -> 0 < ch ->
  let bpe := bytesPerElement dtype in
  let right' := Z.min (cx * cw + cw) iw in
  let bottom := Z.min (cy * ch + ch) ih in
  let ww := right' - cx * cw in
  let wh := bottom - cy * ch in
  0 < ww -> 0 < wh ->
  readRasters sel lvl (Fin (cx * cw), Fin (cy * ch), Fin right', Fin bottom) = Some data ->
  Z.of_nat (List.length data) = ww * wh * bpe ->
  exists out,
    readChunk readRasters sel lvl (Fin cy) (Fin cx) (Fin ch) (Fin cw) (Fin iw) (Fin ih) dtype
      = Some out /\
    Z.of_nat (List.length out) = cw * ch * bpe /\
    forall r j, 0 <= r < ch -> 0 <= j < cw * bpe ->
      nth (Z.to_nat (r * (cw * bpe) + j)) out 0 =
        if (r <? wh) && (j <? ww * bpe) then nth (Z.to_nat (r * (ww * bpe) + j)) data 0 else 0.
Proof.
  intros Hcx Hcy Hcw Hch bpe right' bottom ww wh Hww Hwh Hr Hl.
  assert (Hb : 0 < bpe) by apply bytesPerElement_pos.
  assert (Hww' : ww <= cw) by (unfold ww, right'; lia).
  assert (Hwh' : wh <= ch) by (unfold wh, bottom; lia).
  unfold readChunk, computePixelWindow. cbn [num_mul num_add num_min num_sub].
  fold right' bottom. fold ww wh.
  cbn [num_le]. destruct (Z.leb_spec ww 0); [lia|]. destruct (Z.leb_spec wh 0); [lia|].
  cbn [orb]. rewrite Hr. fold bpe. cbn [num_lt num_mul].
  destruct (Z.ltb_spec ww cw); destruct (Z.ltb_spec wh ch); cbn [orb].
  1-3: destruct (padEdgeChunk_content data ww wh cw ch bpe Hb ltac:(lia) ltac:(lia)
                   ltac:(nia)) as [out [E [L C]]];
       exists out; split; [exact E|]; split; [exact L|exact C].
  assert (Ew : ww = cw) by lia. assert (Eh : wh = ch) by lia.
  clearbody ww wh. subst ww wh.
  unfold encodeChunkBytes. cbn [num_mul num_same].
  rewrite Hl, Z.eqb_refl.
  exists data. split; [reflexivity|]. split; [exact Hl|].
  intros r j Hr' Hj.
  destruct (Z.ltb_spec r ch); [|lia]. destruct (Z.ltb_spec j (cw * bpe)); [|lia].
  reflexivity.
Qed.

Lemma padEdgeChunk_content_witness :
  exists out, padEdgeChunk [1; 2; 3; 4] (Fin 2) (Fin 2) (Fin 3) (Fin 2) 1 = Some out /\
    Z.of_nat (List.length out) = 3 * 2 * 1 /\
    forall r j, 0 <= r < 2 -> 0 <= j < 3 * 1 ->
      nth (Z.to_nat (r * (3 * 1) + j)) out 0 =
        if (r <? 2) && (j <? 2 * 1) then nth (Z.to_nat (r * (2 * 1) + j)) [1; 2; 3; 4] 0 else 0.
Proof.
  apply padEdgeChunk_content; cbn; lia.
Defined.

Lemma readChunk_layout_witness :
  exists out,
    readChunk (fun _ _ _ => Some [7; 8]) (mkPlaneSelection (Fin 0) (Fin 0) (Fin 0)) 0
      (Fin 0) (Fin 1) (Fin 2) (Fin 2) (Fin 3) (Fin 2) Uint8 = Some out /\
    Z.of_nat (List.length out) = 2 * 2 * 1 /\
    forall r j, 0 <= r < 2 -> 0 <= j < 2 * 1 ->
      nth (Z.to_nat (r * (2 * 1) + j)) out 0 =
        if (r <? 2) && (j <? 1 * 1) then nth (Z.to_nat (r * (1 * 1) + j)) [7; 8] 0 else 0.
Proof.
  exact (readChunk_layout (fun _ _ _ => Some [7; 8]) (mkPlaneSelection (Fin 0) (Fin 0) (Fin 0))
           0 0 1 2 2 3 2 Uint8 [7; 8] ltac:(lia) ltac:(lia) ltac:(lia) ltac:(lia)
           ltac:(cbn; lia) ltac:(cbn; lia) eq_refl ltac:(cbn; lia)).
Defined.
Lemma writeBytes_addrs (bs : list Z) (off : Z) :
  Forall (fun w => off <= fst w < off + Z.of_nat (List.length bs)) (writeBytes off bs).
Proof.
  revert off. induction bs as [| b r IH]; intros off; cbn [writeBytes]; constructor.
  - cbn [fst List.length]. lia.
  - eapply Forall_impl; [| apply IH]. cbn beta. intros w Hw. cbn [List.length]. lia.
Qed.

Lemma writeBytes_read (bs : list Z) (off : Z) (mem : Z -> Z) (i : Z) :
  0 <= i < Z.of_nat (List.length bs) ->
  applyWrites (writeBytes off bs) mem (off + i) = nth (Z.to_nat i) bs 0.
Proof.
  revert off mem i. induction bs as [| b r IH]; intros off mem i Hi; cbn [List.length] in Hi;
    [lia |].
  cbn [writeBytes]. rewrite applyWrites_cons.
  destruct (Z.eqb_spec i 0) as [E|E].
  - subst i. rewrite applyWrites_outside.
    + cbn [fst snd]. rewrite Z.add_0_r, Z.eqb_refl. reflexivity.
    + eapply Forall_impl; [| apply writeBytes_addrs]. cbn beta. intros w Hw. lia.
  - replace (off + i) with (off + 1 + (i - 1)) by lia. rewrite IH by lia.
    replace (Z.to_nat i) with (S (Z.to_nat (i - 1))) by lia. reflexivity.
Qed.

Lemma tileOffsetsFrom_length (c : Z) (tiles : list (list Z)) :
  List.length (tileOffsetsFrom c tiles) = List.length tiles.
Proof.
  revert c. induction tiles as [| t r IH]; intros c; cbn; [reflexivity | rewrite IH; reflexivity].
Qed.

Lemma tileOffsetsFrom_ge (c : Z) (tiles : list (list Z)) (k : nat) :
  (k < List.length tiles)%nat -> c <= nth k (tileOffsetsFrom c tiles) 0.
Proof.
  revert c k. induction tiles as [| t r IH]; intros c k Hk; cbn [List.length] in Hk; [lia |].
  destruct k as [| k]; cbn [tileOffsetsFrom nth]; [lia |].
  specialize (IH (c + Z.of_nat (List.length t)) k ltac:(lia)). lia.
Qed.

Lemma sum_list_cons (x : Z) (r : list Z) : sum_list (x :: r) = x + sum_list r.
Proof. unfold sum_list. cbn [fold_left]. rewrite fold_add_acc. ring. Qed.

Lemma tileLengths_nonneg (tiles : list (list Z)) : 0 <= sum_list (tileLengths tiles).
Proof.
  induction tiles as [| t r IH]; [reflexivity |].
  unfold tileLengths in *. cbn [map]. rewrite sum_list_cons. lia.
Qed.

Lemma writeTiles_addrs (tp : Z) (tiles : list (list Z)) :
  Forall (fun w => tp <= fst w < tp + sum_list (tileLengths tiles)) (writeTiles tp tiles).
Proof.
  revert tp. induction tiles as [| t r IH]; intros tp; cbn [writeTiles]; [constructor |].
  unfold tileLengths at 1. cbn [map]. rewrite sum_list_cons. fold (tileLengths r).
  pose proof (tileLengths_nonneg r).
  apply Forall_app. split.
  - eapply Forall_impl; [| apply writeBytes_addrs]. cbn beta. intros; lia.
  - eapply Forall_impl; [| apply IH]. cbn beta. intros; lia.
Qed.

Lemma writeTiles_read (tiles : list (list Z)) (tp : Z) (mem : Z -> Z) (k : nat) (b : Z) :
  (k < List.length tiles)%nat -> 0 <= b < Z.of_nat (List.length (nth k tiles [])) ->
  applyWrites (writeTiles tp tiles) mem (nth k (tileOffsetsFrom tp tiles) 0 + b) =
  nth (Z.to_nat b) (nth k tiles []) 0.
Proof.
  revert tp mem k. induction tiles as [| t r IH]; intros tp mem k Hk Hb;
    cbn [List.length] in Hk; [lia |].
  cbn [writeTiles]. rewrite applyWrites_app.
  destruct k as [| k]; cbn [nth tileOffsetsFrom] in *.
  - rewrite applyWrites_outside.
    + apply writeBytes_read. exact Hb.
    + eapply Forall_impl; [| apply writeTiles_addrs]. cbn beta. intros; lia.
  - apply IH; lia.
Qed.

Lemma setBigUint64_addrs off v :
  Forall (fun w => off <= fst w < off + 8) (setBigUint64 off v).
Proof.
  unfold setBigUint64. apply Forall_app. split.
  - eapply Forall_impl; [| apply setUint32LE_addrs]. cbn beta. intros; lia.
  - eapply Forall_impl; [| apply setUint32LE_addrs]. cbn beta. intros; lia.
Qed.

Lemma writeEntry_shape fmt p pos oc t :
  fmt = CLASSIC_FORMAT \/ fmt = BIGTIFF_FORMAT ->
  let n := Z.of_nat (List.length (patchValueBytes fmt p t)) in
  fst (snd (writeEntry fmt p (pos, oc) t)) = pos + ifdEntrySize fmt /\
  snd (snd (writeEntry fmt p (pos, oc) t)) = ovStep fmt oc n /\
  Forall (fun w => pos <= fst w < pos + ifdEntrySize fmt \/
                   oc <= fst w < ovStep fmt oc n) (fst (writeEntry fmt p (pos, oc) t)).
Proof.
  intros Hfmt n. unfold writeEntry. fold n. unfold ovStep.
  assert (Hn : 0 <= n) by lia.
  destruct Hfmt as [-> | ->]; cbn [magic inlineThreshold offsetSize ifdEntrySize
    CLASSIC_FORMAT BIGTIFF_FORMAT Z.eqb Pos.eqb Z.to_nat Pos.to_nat];
    [destruct (Z.leb_spec n 4) | destruct (Z.leb_spec n 8)];
    cbn [fst snd]; (split; [reflexivity | split; [reflexivity |]]).
  all: repeat (apply Forall_app; split).
  all: try (eapply Forall_impl; [| first [apply setUint16LE_addrs | apply setUint32LE_addrs
             | apply setBigUint64_addrs | apply writeBytes_addrs]]; cbn beta; intros;
             rewrite ?repeat_length in *; try (destruct (negb _)); lia).
Qed.

Lemma ovStep_ge fmt c n : 0 <= n -> c <= ovStep fmt c n.
Proof. intros Hn. unfold ovStep. destruct (_ <=? _); [lia | destruct (negb _); lia]. Qed.

Lemma fold_ovStep_ge fmt (f : ResolvedTagBytes -> Z) l c :
  (forall t, 0 <= f t) -> c <= fold_left (fun c t => ovStep fmt c (f t)) l c.
Proof.
  intros Hf. revert c. induction l as [| t r IH]; intros c; cbn [fold_left]; [lia |].
  specialize (IH (ovStep fmt c (f t))). pose proof (ovStep_ge fmt c (f t) (Hf t)). lia.
Qed.

Lemma writeEntries_shape fmt p l pos oc :
  fmt = CLASSIC_FORMAT \/ fmt = BIGTIFF_FORMAT ->
  let oc' := fold_left (fun c t => ovStep fmt c (Z.of_nat (List.length (patchValueBytes fmt p t))))
               l oc in
  fst (snd (writeEntries fmt p (pos, oc) l)) = pos + Z.of_nat (List.length l) * ifdEntrySize fmt /\
  snd (snd (writeEntries fmt p (pos, oc) l)) = oc' /\
  Forall (fun w => pos <= fst w < pos + Z.of_nat (List.length l) * ifdEntrySize fmt \/
                   oc <= fst w < oc') (fst (writeEntries fmt p (pos, oc) l)).
Proof.
  intros Hfmt. revert pos oc. induction l as [| t r IH]; intros pos oc oc'.
  - cbn. split; [lia | split; [reflexivity | constructor]].
  - cbn [writeEntries].
    destruct (writeEntry_shape fmt p pos oc t Hfmt) as [A1 [B1 C1]].
    destruct (writeEntry fmt p (pos, oc) t) as [w1 [pos1 oc1]]. cbn [fst snd] in A1, B1, C1.
    destruct (IH pos1 oc1) as [A2 [B2 C2]].
    destruct (writeEntries fmt p (pos1, oc1) r) as [w2 [pos2 oc2]]. cbn [fst snd] in *.
    assert (Hes : 0 < ifdEntrySize fmt) by (destruct Hfmt as [-> | ->]; cbn; lia).
    unfold oc'. cbn [fold_left]. rewrite <- B1.
    pose proof (Hge := fold_ovStep_ge fmt (fun t => Z.of_nat (List.length (patchValueBytes fmt p t))) r oc1
                  ltac:(intros; cbn beta; lia)). cbn beta in Hge.
    assert (oc <= oc1) by (rewrite B1; apply ovStep_ge; lia).
    cbn [List.length]. rewrite Nat2Z.inj_succ.
    split; [lia | split; [exact B2 |]].
    apply Forall_app. split.
    + eapply Forall_impl; [| exact C1]. cbn beta. intros; nia.
    + eapply Forall_impl; [| exact C2]. cbn beta. intros; nia.
Qed.

Lemma encodeOffsets_length fmt xs : 0 <= offsetSize fmt ->
  Z.of_nat (List.length (encodeOffsets fmt xs)) = Z.of_nat (List.length xs) * offsetSize fmt.
Proof.
  intros Ho. unfold encodeOffsets, zrange. rewrite !length_map, length_seq. lia.
Qed.

Lemma patchValueBytes_length fmt p t : 0 <= offsetSize fmt ->
  ((isOffsetTag (rb_tag t) || isByteCountTag (rb_tag t)) = true ->
     Z.of_nat (List.length (rb_valueBytes t)) =
       Z.of_nat (List.length (pb_tiles p)) * offsetSize fmt) ->
  (rb_tag t = TAG_SUB_IFDS -> pb_subIfdOffsets p <> [] ->
     Z.of_nat (List.length (rb_valueBytes t)) =
       Z.of_nat (List.length (pb_subIfdOffsets p)) * offsetSize fmt) ->
  List.length (patchValueBytes fmt p t) = List.length (rb_valueBytes t).
Proof.
  intros Ho H1 H2. unfold patchValueBytes. cbv zeta.
  destruct ((rb_tag t =? TAG_SUB_IFDS) && (0 <? Z.of_nat (List.length (pb_subIfdOffsets p))))
    eqn:Es.
  { apply andb_true_iff in Es. destruct Es as [E L].
    apply Z.eqb_eq in E. apply Z.ltb_lt in L.
    apply Nat2Z.inj. rewrite encodeOffsets_length by exact Ho. symmetry. apply H2; [exact E|].
    intros En. rewrite En in L. cbn in L. lia. }
  destruct (isByteCountTag (rb_tag t)) eqn:Eb.
  { apply Nat2Z.inj. rewrite encodeOffsets_length by exact Ho. unfold tileLengths.
    rewrite length_map. symmetry. apply H1; rewrite ?orb_true_r; reflexivity. }
  destruct (isOffsetTag (rb_tag t)) eqn:Eo; [| reflexivity].
  apply Nat2Z.inj. rewrite encodeOffsets_length by exact Ho.
  rewrite tileOffsetsFrom_length. symmetry. apply H1; rewrite ?orb_true_r; reflexivity.
Qed.

Lemma overflowSize_acc (tags : list ResolvedTag) fmt (a : Z) :
  fold_left (fun size t =>
    let n := rt_valueBytesLength t in
    if inlineThreshold fmt <? n
    then size + n + (if negb (n mod 2 =? 0) then 1 else 0)
    else size) tags a = a + overflowSize tags fmt.
Proof.
  unfold overflowSize. revert a.
  induction tags as [| t r IH]; intros a; cbn [fold_left]; [ring |].
  rewrite (IH (if _ <? _ then _ else _)), (IH (if _ <? _ then 0 + _ + _ else 0)).
  destruct (Z.ltb_spec (inlineThreshold fmt) (rt_valueBytesLength t)); ring.
Qed.

Lemma fold_ovStep_overflowSize fmt p (l : list ResolvedTagBytes) (c : Z) :
  Forall (fun t => List.length (patchValueBytes fmt p t) = List.length (rb_valueBytes t)) l ->
  fold_left (fun c t => ovStep fmt c (Z.of_nat (List.length (patchValueBytes fmt p t)))) l c =
  c + overflowSize (map toResolvedTag l) fmt.
Proof.
  intros H. rewrite <- overflowSize_acc. revert c.
  induction H as [| t r Ht Hr IH]; intros c; cbn [fold_left map]; [reflexivity |].
  rewrite IH. f_equal. unfold ovStep, toResolvedTag. cbn [rt_valueBytesLength]. rewrite Ht.
  destruct (Z.leb_spec (Z.of_nat (List.length (rb_valueBytes t))) (inlineThreshold fmt));
    destruct (Z.ltb_spec (inlineThreshold fmt) (Z.of_nat (List.length (rb_valueBytes t))));
    try lia; reflexivity.
Qed.

Lemma placeholdersSized_length fmt p : 0 <= offsetSize fmt -> placeholdersSized fmt p ->
  Forall (fun t => List.length (patchValueBytes fmt p t) = List.length (rb_valueBytes t))
    (pb_tags p).
Proof.
  intros Ho H. eapply Forall_impl; [| exact H]. cbn beta. intros t [H1 H2].
  apply patchValueBytes_length; assumption.
Qed.

(** [writeIfd] writes only inside the block laid out for its IFD: from
    [ifdOffset] (the entry count) to the end of its tile data, through the
    entries, the next-IFD pointer, the overflow values and the tiles. *)
Theorem writeIfd_footprint (p : PlacedIfdBytes) (fmt : TiffFormat) :
  fmt = CLASSIC_FORMAT \/ fmt = BIGTIFF_FORMAT ->
  placedWf fmt (toPlacedIfd p) ->
  placeholdersSized fmt p ->
  Forall (fun w => pb_ifdOffset p <= fst w <
                   pb_tileDataOffset p + totalTileSize (tileLengths (pb_tiles p)))
    (writeIfd p fmt).
Proof.
  intros Hfmt [Hov [Hos Htd]] Hps. cbn [toPlacedIfd ifdOffset p_tags overflowOffset
    p_overflowSize tileDataOffset] in Hov, Hos, Htd.
  rewrite length_map in Hov.
  assert (Ho : 0 <= offsetSize fmt) by (destruct Hfmt as [-> | ->]; cbn; lia).
  assert (Hth : 0 <= inlineThreshold fmt) by (destruct Hfmt as [-> | ->]; cbn; lia).
  pose proof (placeholdersSized_length fmt p Ho Hps) as Hlen.
  pose proof (overflowSize_nonneg (map toResolvedTag (pb_tags p)) fmt Hth) as Hon.
  pose proof (tileLengths_nonneg (pb_tiles p)) as Htn. unfold totalTileSize.
  unfold writeIfd.
  set (pos1 := if magic fmt =? 43 then pb_ifdOffset p + 8 else pb_ifdOffset p + 2).
  destruct (writeEntries_shape fmt p (pb_tags p) pos1 (pb_overflowOffset p) Hfmt)
    as [A [B C]].
  destruct (writeEntries fmt p (pos1, pb_overflowOffset p) (pb_tags p)) as [ew [pos2 oc2]].
  cbn [fst snd] in A, B, C.
  rewrite fold_ovStep_overflowSize in C by exact Hlen.
  set (n := Z.of_nat (List.length (pb_tags p))) in *.
  assert (Hn : 0 <= n) by (unfold n; lia).
  destruct Hfmt as [-> | ->]; unfold ifdEntryBlockSize in Hov; unfold pos1 in *;
    cbn [magic ifdEntrySize CLASSIC_FORMAT BIGTIFF_FORMAT Z.eqb Pos.eqb] in *.
  all: repeat (apply Forall_app; split).
  all: try (eapply Forall_impl; [| first [apply setUint16LE_addrs | apply setUint32LE_addrs
             | apply setBigUint64_addrs | apply writeTiles_addrs]]; cbn beta; intros; nia).
  all: eapply Forall_impl; [| exact C]; cbn beta; intros; nia.
Qed.

(** Whatever the tags, the tiles come out intact: byte [b] of tile [k] is
    found at the tile's offset (the value [writeIfd] puts in the offsets
    tag) plus [b]. *)
Theorem writeIfd_tiles (p : PlacedIfdBytes) (fmt : TiffFormat) (mem : Z -> Z)
  (k : nat) (b : Z) :
  (k < List.length (pb_tiles p))%nat ->
  0 <= b < Z.of_nat (List.length (nth k (pb_tiles p) [])) ->
  applyWrites (writeIfd p fmt) mem
    (nth k (tileOffsetsFrom (pb_tileDataOffset p) (pb_tiles p)) 0 + b) =
  nth (Z.to_nat b) (nth k (pb_tiles p) []) 0.
Proof.
  intros Hk Hb. unfold writeIfd.
  destruct (writeEntries fmt p _ (pb_tags p)) as [ew [pos2 oc2]].
  rewrite !applyWrites_app. apply writeTiles_read; assumption.
Qed.

Lemma setUint16LE_readmod mem off v :
  readLE (applyWrites (setUint16LE off v) mem) off 2 = v mod 2 ^ 16.
Proof.
  unfold setUint16LE, applyWrites. cbn [readLE fold_left fst snd]. decide_addr.
  apply bytes2. apply Z.mod_pos_bound. lia.
Qed.

Lemma setUint32LE_readmod mem off v :
  readLE (applyWrites (setUint32LE off v) mem) off 4 = v mod 2 ^ 32.
Proof.
  unfold setUint32LE, applyWrites. cbn [readLE fold_left fst snd]. decide_addr.
  apply bytes4. apply Z.mod_pos_bound. lia.
Qed.

Lemma setBigUint64_readmod mem off v : 0 <= v ->
  readLE (applyWrites (setBigUint64 off v) mem) off 8 = v mod 2 ^ 64.
Proof.
  intros Hv. unfold setBigUint64. rewrite applyWrites_app.
  change 8%nat with (4 + 4)%nat. rewrite readLE_split.
  rewrite readLE_outside.
  2: { eapply Forall_impl; [| apply setUint32LE_addrs]. intros w Hw. cbn in *. lia. }
  rewrite !setUint32LE_readmod.
  unfold js_ushr. rewrite !Z.shiftr_0_r. change (0 mod 32) with 0.
  rewrite Z.quot_div_nonneg by lia.
  rewrite !Z.mod_mod by lia.
  change (Z.of_nat 4) with 4. change (256 ^ 4) with (2 ^ 32).
  change (2 ^ 64) with (2 ^ 32 * 2 ^ 32). rewrite Z.rem_mul_r by lia.
  change 4294967296 with (2 ^ 32). reflexivity.
Qed.

Lemma writeEntries_app fmt p st l1 l2 :
  writeEntries fmt p st (l1 ++ l2) =
  (fst (writeEntries fmt p st l1) ++
   fst (writeEntries fmt p (snd (writeEntries fmt p st l1)) l2),
   snd (writeEntries fmt p (snd (writeEntries fmt p st l1)) l2))%list.
Proof.
  revert st. induction l1 as [| t r IH]; intros st.
  - cbn [app writeEntries fst snd app]. destruct (writeEntries fmt p st l2); reflexivity.
  - cbn [app writeEntries]. destruct (writeEntry fmt p st t) as [w1 st1].
    rewrite IH. destruct (writeEntries fmt p st1 r) as [w2 st2]. cbn [fst snd].
    rewrite app_assoc. reflexivity.
Qed.

Lemma writeEntries_mid fmt p (A B : list ResolvedTagBytes) t pos oc :
  fmt = CLASSIC_FORMAT \/ fmt = BIGTIFF_FORMAT ->
  let F := fun c t => ovStep fmt c (Z.of_nat (List.length (patchValueBytes fmt p t))) in
  let posm := pos + Z.of_nat (List.length A) * ifdEntrySize fmt in
  let ocm := fold_left F A oc in
  exists pre post,
    fst (writeEntries fmt p (pos, oc) (A ++ t :: B)) =
      (pre ++ fst (writeEntry fmt p (posm, ocm) t) ++ post)%list /\
    Forall (fun w => posm + ifdEntrySize fmt <= fst w <
                       pos + Z.of_nat (List.length (A ++ t :: B)) * ifdEntrySize fmt \/
                     F ocm t <= fst w < fold_left F (A ++ t :: B) oc) post.
Proof.
  intros Hfmt. cbv zeta.
  assert (Hes : 0 < ifdEntrySize fmt) by (destruct Hfmt as [-> | ->]; cbn; lia).
  destruct (writeEntries_shape fmt p A pos oc Hfmt) as [A1 [B1 _]].
  rewrite writeEntries_app.
  destruct (writeEntries fmt p (pos, oc) A) as [wa [pa oa]]. cbn [fst snd] in *.
  subst pa oa. exists wa.
  cbn [writeEntries].
  destruct (writeEntry_shape fmt p (pos + Z.of_nat (List.length A) * ifdEntrySize fmt)
              (fold_left (fun c t => ovStep fmt c (Z.of_nat (List.length (patchValueBytes fmt p t))))
                 A oc) t Hfmt) as [A2 [B2 _]].
  destruct (writeEntry fmt p _ t) as [wt [pt ot]]. cbn [fst snd] in *.
  destruct (writeEntries_shape fmt p B pt ot Hfmt) as [_ [_ C3]].
  destruct (writeEntries fmt p (pt, ot) B) as [wb [pb ob]]. cbn [fst snd] in *.
  exists wb. split; [reflexivity |].
  rewrite fold_left_app. cbn [fold_left]. rewrite <- B2.
  rewrite length_app. cbn [List.length].
  eapply Forall_impl; [| exact C3]. cbn beta. intros w Hw.
  rewrite A2 in Hw. nia.
Qed.

Lemma writeBytes_read_or (bs : list Z) (off : Z) (mem : Z -> Z) (x : Z) :
  applyWrites (writeBytes off bs) mem x =
  if (off <=? x) && (x <? off + Z.of_nat (List.length bs))
  then nth (Z.to_nat (x - off)) bs 0 else mem x.
Proof.
  destruct (Z.leb_spec off x); destruct (Z.ltb_spec x (off + Z.of_nat (List.length bs)));
    cbn [andb].
  - replace x with (off + (x - off)) at 1 by lia. apply writeBytes_read. lia.
  - apply applyWrites_outside. eapply Forall_impl; [| apply writeBytes_addrs].
    cbn beta. intros; lia.
  - apply applyWrites_outside. eapply Forall_impl; [| apply writeBytes_addrs].
    cbn beta. intros; lia.
  - apply applyWrites_outside. eapply Forall_impl; [| apply writeBytes_addrs].
    cbn beta. intros; lia.
Qed.

Ltac strip_range H1 H2 :=
  eapply Forall_impl;
  [| first [exact H1 | exact H2 | apply setUint16LE_addrs | apply setUint32LE_addrs
            | apply setBigUint64_addrs | apply writeBytes_addrs]];
  cbn beta; intros; rewrite ?repeat_length in *; first [lia | nia].

Ltac strip_ne H1 H2 :=
  eapply Forall_impl;
  [| first [exact H1 | exact H2 | apply setUint16LE_addrs | apply setUint32LE_addrs
            | apply setBigUint64_addrs | apply writeBytes_addrs]];
  cbn beta; intros; rewrite ?repeat_length in *; first [lia | nia].

(** Entry [i] of the IFD, at [ifdOffset + 2 + 12 i] ([8 + 20 i] in
    BigTIFF), holds the tag, the type and the count; a value (after the
    patching of offset, byte-count and SubIFDs tags) of at most
    [inlineThreshold] bytes sits zero-padded in the value field, a longer
    one sits in the overflow area at the cursor reached after the earlier
    entries (each longer value advancing it by its length rounded up to
    even), and the value field holds that cursor. *)
Theorem writeIfd_entry (p : PlacedIfdBytes) (fmt : TiffFormat) (mem : Z -> Z) (i : nat) :
  fmt = CLASSIC_FORMAT \/ fmt = BIGTIFF_FORMAT ->
  placedWf fmt (toPlacedIfd p) ->
  placeholdersSized fmt p ->
  0 <= pb_ifdOffset p ->
  Forall (fun t => 0 <= rb_count t) (pb_tags p) ->
  (i < List.length (pb_tags p))%nat ->
  let m := applyWrites (writeIfd p fmt) mem in
  let isBig := magic fmt =? 43 in
  let hs := if isBig then 8 else 2 in
  let cs := if isBig then 8 else 4 in
  let vo := if isBig then 12 else 8 in
  let os := offsetSize fmt in
  let e := pb_ifdOffset p + hs + Z.of_nat i * ifdEntrySize fmt in
  let oc :=
    fold_left (fun c t => ovStep fmt c (Z.of_nat (List.length (patchValueBytes fmt p t))))
      (firstn i (pb_tags p)) (pb_overflowOffset p) in
  let t := nth i (pb_tags p) (mkResolvedTagBytes 0 0 0 []) in
  let vb := patchValueBytes fmt p t in
  readLE m e 2 = rb_tag t mod 2 ^ 16 /\
  readLE m (e + 2) 2 = rb_type t mod 2 ^ 16 /\
  readLE m (e + 4) (Z.to_nat cs) = rb_count t mod 2 ^ (8 * cs) /\
  (Z.of_nat (List.length vb) <= inlineThreshold fmt ->
     forall j, 0 <= j < inlineThreshold fmt -> m (e + vo + j) = nth (Z.to_nat j) vb 0) /\
  (inlineThreshold fmt < Z.of_nat (List.length vb) ->
     readLE m (e + vo) (Z.to_nat os) = oc mod 2 ^ (8 * os) /\
     forall j, 0 <= j < Z.of_nat (List.length vb) -> m (oc + j) = nth (Z.to_nat j) vb 0).
Proof.
  intros Hfmt [Hov [Hos Htd]] Hps H0 Hcnt Hi. cbn [toPlacedIfd ifdOffset p_tags overflowOffset
    p_overflowSize tileDataOffset] in Hov, Hos, Htd.
  rewrite length_map in Hov.
  assert (Ho : 0 <= offsetSize fmt) by (destruct Hfmt as [-> | ->]; cbn; lia).
  assert (Hth : 0 <= inlineThreshold fmt) by (destruct Hfmt as [-> | ->]; cbn; lia).
  pose proof (placeholdersSized_length fmt p Ho Hps) as Hlen.
  pose proof (overflowSize_nonneg (map toResolvedTag (pb_tags p)) fmt Hth) as Hon.
  pose proof (tileLengths_nonneg (pb_tiles p)) as Htn.
  intros m isBig hs cs vo os e oc t vb.
  destruct (nth_split (pb_tags p) (mkResolvedTagBytes 0 0 0 []) Hi) as [L1 [L2 [EL HL1]]].
  fold t in EL.
  assert (Hoc : oc = fold_left (fun c t => ovStep fmt c (Z.of_nat (List.length
                       (patchValueBytes fmt p t)))) L1 (pb_overflowOffset p)).
  { unfold oc. rewrite EL, <- HL1, firstn_app, Nat.sub_diag, firstn_O, app_nil_r, firstn_all.
    reflexivity. }
  assert (Hct : 0 <= rb_count t).
  { rewrite Forall_forall in Hcnt. apply Hcnt. unfold t. apply nth_In. exact Hi. }
  unfold m, writeIfd.
  set (pos1 := if magic fmt =? 43 then pb_ifdOffset p + 8 else pb_ifdOffset p + 2).
  destruct (writeEntries_shape fmt p (pb_tags p) pos1 (pb_overflowOffset p) Hfmt)
    as [A [B C]].
  destruct (writeEntries_mid fmt p L1 L2 t pos1 (pb_overflowOffset p) Hfmt)
    as [pre [post [Ew Fpost]]].
  rewrite <- EL in Ew, Fpost. rewrite <- Hoc in Ew, Fpost. rewrite HL1 in Ew, Fpost.
  pose proof (fold_ovStep_ge fmt (fun t => Z.of_nat (List.length (patchValueBytes fmt p t))) L1
                (pb_overflowOffset p) ltac:(intros; cbn beta; lia)) as Hge.
  cbn beta in Hge. rewrite <- Hoc in Hge.
  destruct (writeEntries fmt p (pos1, pb_overflowOffset p) (pb_tags p)) as [ew [pos2 oc2]].
  cbn [fst snd] in A, B, C, Ew.
  rewrite fold_ovStep_overflowSize in B, C, Fpost by exact Hlen.
  rewrite <- Hos in B, C, Fpost. rewrite <- Htd in B, C, Fpost.
  set (n := List.length (pb_tags p)) in *.
  assert (Hn : 0 <= Z.of_nat n) by lia.
  pose proof (writeTiles_addrs (pb_tileDataOffset p) (pb_tiles p)) as T.
  subst ew.
  assert (Epos : pos1 + Z.of_nat i * ifdEntrySize fmt = e) by (unfold pos1, e, hs, isBig; destruct (magic fmt =? 43); ring).
  rewrite Epos in C, Fpost |- *.
  assert (Hi' : Z.of_nat i + 1 <= Z.of_nat n) by lia.
  assert (Hvb : 0 <= Z.of_nat (List.length vb)) by lia.
  unfold writeEntry. fold vb in Fpost |- *.
  assert (Fp : Forall (fun w =>
            pos1 + Z.of_nat i * ifdEntrySize fmt + ifdEntrySize fmt <= fst w <
              pos1 + Z.of_nat n * ifdEntrySize fmt \/
            (oc <= fst w < pb_tileDataOffset p /\
             (inlineThreshold fmt < Z.of_nat (List.length vb) ->
                oc + Z.of_nat (List.length vb) <= fst w))) post).
  { eapply Forall_impl; [| exact Fpost]. cbn beta. intros w Hw. unfold ovStep in Hw.
    destruct (Z.leb_spec (Z.of_nat (List.length vb)) (inlineThreshold fmt));
      [| destruct (negb _)]; lia. }
  clear Fpost. rename Fp into Fpost.
  assert (Hend : inlineThreshold fmt < Z.of_nat (List.length vb) ->
                 oc + Z.of_nat (List.length vb) <= pb_tileDataOffset p).
  { intros Hlt.
    assert (E2 : ovStep fmt oc (Z.of_nat (List.length vb)) <= pb_tileDataOffset p).
    { set (F := fun c t => ovStep fmt c (Z.of_nat (List.length (patchValueBytes fmt p t)))).
      transitivity (fold_left F L2 (ovStep fmt oc (Z.of_nat (List.length vb)))).
      { apply (fold_ovStep_ge fmt (fun t => Z.of_nat (List.length (patchValueBytes fmt p t)))).
        intros; cbn beta; lia. }
      assert (EF : fold_left F L2 (ovStep fmt oc (Z.of_nat (List.length vb))) =
                   fold_left F (pb_tags p) (pb_overflowOffset p)).
      { rewrite Hoc, EL, fold_left_app. reflexivity. }
      rewrite EF. unfold F. rewrite fold_ovStep_overflowSize by exact Hlen. lia. }
    unfold ovStep in E2. destruct (Z.leb_spec (Z.of_nat (List.length vb)) (inlineThreshold fmt));
      [lia | destruct (negb _); lia]. }
  rewrite Epos in Fpost.
  rewrite !applyWrites_app.
  clear C. unfold e, hs, cs, vo, os, isBig, pos1 in *.
  destruct Hfmt as [-> | ->]; unfold ifdEntryBlockSize in Hov;
    cbn [magic ifdEntrySize offsetSize inlineThreshold CLASSIC_FORMAT BIGTIFF_FORMAT
         Z.eqb Pos.eqb Z.to_nat Pos.to_nat Pos.iter_op Nat.add] in *;
    unfold ovStep in Fpost; cbn [inlineThreshold CLASSIC_FORMAT BIGTIFF_FORMAT] in Fpost;
    [destruct (Z.leb_spec (Z.of_nat (List.length vb)) 4) as [Hin|Hin]
    |destruct (Z.leb_spec (Z.of_nat (List.length vb)) 8) as [Hin|Hin]];
    cbn [fst]; rewrite ?applyWrites_app.
  all: split; [| split; [| split; [| split]]].
  all: try (repeat (rewrite readLE_outside by strip_range T Fpost);
            first [apply setUint16LE_readmod | apply setUint32LE_readmod
                  | apply setBigUint64_readmod; lia]).
  all: try (intros; lia).
  - intros _ j Hj. repeat (rewrite applyWrites_outside by strip_ne T Fpost).
    rewrite !writeBytes_read_or, repeat_length.
    destruct (Z.leb_spec (pb_ifdOffset p + 2 + Z.of_nat i * 12 + 8)
                (pb_ifdOffset p + 2 + Z.of_nat i * 12 + 8 + j)); [| lia].
    destruct (Z.ltb_spec (pb_ifdOffset p + 2 + Z.of_nat i * 12 + 8 + j)
                (pb_ifdOffset p + 2 + Z.of_nat i * 12 + 8 + Z.of_nat (List.length vb)));
      cbn [andb].
    + f_equal. lia.
    + destruct (Z.ltb_spec (pb_ifdOffset p + 2 + Z.of_nat i * 12 + 8 + j)
                  (pb_ifdOffset p + 2 + Z.of_nat i * 12 + 8 + Z.of_nat (Pos.to_nat 4)));
        [| cbn in *; lia].
      cbn [andb]. rewrite nth_repeat. symmetry. apply nth_overflow. lia.
  - intros _. split.
    + repeat (rewrite readLE_outside by strip_range T Fpost). apply setUint32LE_readmod.
    + intros j Hj. repeat (rewrite applyWrites_outside by strip_ne T Fpost).
      rewrite writeBytes_read_or.
      destruct (Z.leb_spec oc (oc + j)); [| lia].
      destruct (Z.ltb_spec (oc + j) (oc + Z.of_nat (List.length vb))); [| lia].
      cbn [andb]. f_equal. lia.
  - intros _ j Hj. repeat (rewrite applyWrites_outside by strip_ne T Fpost).
    rewrite !writeBytes_read_or, repeat_length.
    destruct (Z.leb_spec (pb_ifdOffset p + 8 + Z.of_nat i * 20 + 12)
                (pb_ifdOffset p + 8 + Z.of_nat i * 20 + 12 + j)); [| lia].
    destruct (Z.ltb_spec (pb_ifdOffset p + 8 + Z.of_nat i * 20 + 12 + j)
                (pb_ifdOffset p + 8 + Z.of_nat i * 20 + 12 + Z.of_nat (List.length vb)));
      cbn [andb].
    + f_equal. lia.
    + destruct (Z.ltb_spec (pb_ifdOffset p + 8 + Z.of_nat i * 20 + 12 + j)
                  (pb_ifdOffset p + 8 + Z.of_nat i * 20 + 12 + Z.of_nat (Pos.to_nat 8)));
        [| cbn in *; lia].
      cbn [andb]. rewrite nth_repeat. symmetry. apply nth_overflow. lia.
  - intros _. split.
    + repeat (rewrite readLE_outside by strip_range T Fpost). apply setBigUint64_readmod. lia.
    + intros j Hj. repeat (rewrite applyWrites_outside by strip_ne T Fpost).
      rewrite writeBytes_read_or.
      destruct (Z.leb_spec oc (oc + j)); [| lia].
      destruct (Z.ltb_spec (oc + j) (oc + Z.of_nat (List.length vb))); [| lia].
      cbn [andb]. f_equal. lia.
Qed.


(** The IFD starts with its entry count ([2] bytes, [8] in BigTIFF) and
    the entries are followed by the next-IFD offset ([4] bytes, [8] in
    BigTIFF), both readable back (modulo the field width). *)
Theorem writeIfd_entries (p : PlacedIfdBytes) (fmt : TiffFormat) (mem : Z -> Z) :
  fmt = CLASSIC_FORMAT \/ fmt = BIGTIFF_FORMAT ->
  placedWf fmt (toPlacedIfd p) ->
  placeholdersSized fmt p ->
  0 <= pb_ifdOffset p -> 0 <= pb_nextIfdOffset p ->
  Forall (fun t => 0 <= rb_count t) (pb_tags p) ->
  let m := applyWrites (writeIfd p fmt) mem in
  let isBig := magic fmt =? 43 in
  let hs := if isBig then 8 else 2 in
  let os := offsetSize fmt in
  let n := List.length (pb_tags p) in
  let e := fun i : nat => pb_ifdOffset p + hs + Z.of_nat i * ifdEntrySize fmt in
  readLE m (pb_ifdOffset p) (Z.to_nat hs) = Z.of_nat n mod 2 ^ (8 * hs) /\
  readLE m (e n) (Z.to_nat os) = pb_nextIfdOffset p mod 2 ^ (8 * os).
Proof.
  intros Hfmt [Hov [Hos Htd]] Hps H0 Hnx Hcnt. cbn [toPlacedIfd ifdOffset p_tags overflowOffset
    p_overflowSize tileDataOffset] in Hov, Hos, Htd.
  rewrite length_map in Hov.
  assert (Ho : 0 <= offsetSize fmt) by (destruct Hfmt as [-> | ->]; cbn; lia).
  assert (Hth : 0 <= inlineThreshold fmt) by (destruct Hfmt as [-> | ->]; cbn; lia).
  pose proof (placeholdersSized_length fmt p Ho Hps) as Hlen.
  pose proof (overflowSize_nonneg (map toResolvedTag (pb_tags p)) fmt Hth) as Hon.
  pose proof (tileLengths_nonneg (pb_tiles p)) as Htn.
  intros m isBig hs os n e.
  unfold m, writeIfd.
  set (pos1 := if magic fmt =? 43 then pb_ifdOffset p + 8 else pb_ifdOffset p + 2).
  destruct (writeEntries_shape fmt p (pb_tags p) pos1 (pb_overflowOffset p) Hfmt)
    as [A [B C]].
  destruct (writeEntries fmt p (pos1, pb_overflowOffset p) (pb_tags p)) as [ew [pos2 oc2]].
  cbn [fst snd] in A, B, C.
  rewrite fold_ovStep_overflowSize in B, C by exact Hlen.
  fold n in A, B, C, Hov. rewrite <- Hos in B, C. rewrite <- Htd in B, C.
  assert (Hn : 0 <= Z.of_nat n) by lia.
  pose proof (writeTiles_addrs (pb_tileDataOffset p) (pb_tiles p)) as T.
  rewrite !applyWrites_app.
  unfold e, hs, os, isBig, pos1 in *.
  destruct Hfmt as [-> | ->]; unfold ifdEntryBlockSize in Hov;
    cbn [magic ifdEntrySize offsetSize CLASSIC_FORMAT BIGTIFF_FORMAT Z.eqb Pos.eqb Z.to_nat
         Pos.to_nat Pos.iter_op Nat.add] in *.
  - split.
    + rewrite readLE_outside by (eapply Forall_impl; [| exact T]; cbn beta; intros; cbn; nia).
      rewrite readLE_outside by (eapply Forall_impl; [| apply setUint32LE_addrs]; cbn beta;
        intros; cbn; nia).
      rewrite readLE_outside by (eapply Forall_impl; [| exact C]; cbn beta; intros; cbn; nia).
      apply setUint16LE_readmod.
    + rewrite readLE_outside by (eapply Forall_impl; [| exact T]; cbn beta; intros; cbn; nia).
      rewrite A. replace (pb_ifdOffset p + 2 + Z.of_nat n * 12) with
        (pb_ifdOffset p + 2 + Z.of_nat n * 12) by ring.
      apply setUint32LE_readmod.
  - split.
    + rewrite readLE_outside by (eapply Forall_impl; [| exact T]; cbn beta; intros; cbn; nia).
      rewrite readLE_outside by (eapply Forall_impl; [| apply setBigUint64_addrs]; cbn beta;
        intros; cbn; nia).
      rewrite readLE_outside by (eapply Forall_impl; [| exact C]; cbn beta; intros; cbn; nia).
      apply setBigUint64_readmod. lia.
    + rewrite readLE_outside by (eapply Forall_impl; [| exact T]; cbn beta; intros; cbn; nia).
      rewrite A. apply setBigUint64_readmod. exact Hnx.
Qed.

Lemma sampleIfdBytes_wf : placedWf CLASSIC_FORMAT (toPlacedIfd sampleIfdBytes).
Proof. vm_compute. repeat split. Qed.

Lemma sampleIfdBytes_sized : placeholdersSized CLASSIC_FORMAT sampleIfdBytes.
Proof.
  repeat constructor; intros; vm_compute in *; first [reflexivity | discriminate | congruence].
Qed.

Lemma writeIfd_footprint_witness :
  placedWf CLASSIC_FORMAT (toPlacedIfd sampleIfdBytes) /\
  placeholdersSized CLASSIC_FORMAT sampleIfdBytes /\
  Forall (fun w => 8 <= fst w < 52) (writeIfd sampleIfdBytes CLASSIC_FORMAT).
Proof.
  split; [exact sampleIfdBytes_wf | split; [exact sampleIfdBytes_sized |]].
  exact (writeIfd_footprint sampleIfdBytes CLASSIC_FORMAT (or_introl eq_refl)
           sampleIfdBytes_wf sampleIfdBytes_sized).
Defined.

Lemma writeIfd_tiles_witness :
  (1 < 2)%nat /\ 0 <= 2 < 3 /\
  applyWrites (writeIfd sampleIfdBytes CLASSIC_FORMAT) (fun _ => 0) (49 + 2) = 6.
Proof.
  split; [lia | split; [lia |]].
  exact (writeIfd_tiles sampleIfdBytes CLASSIC_FORMAT (fun _ => 0) 1 2
           ltac:(cbn; lia) ltac:(cbn; lia)).
Defined.

Lemma writeIfd_entries_witness :
  let m := applyWrites (writeIfd sampleIfdBytes CLASSIC_FORMAT) (fun _ => 0) in
  readLE m 8 2 = 2 /\ readLE m 34 4 = 0.
Proof.
  exact (writeIfd_entries sampleIfdBytes CLASSIC_FORMAT (fun _ => 0) (or_introl eq_refl)
           sampleIfdBytes_wf sampleIfdBytes_sized ltac:(cbn; lia) ltac:(cbn; lia)
           ltac:(repeat constructor; cbn; lia)).
Defined.

Lemma writeIfd_entry_witness :
  let m := applyWrites (writeIfd sampleIfdBytes CLASSIC_FORMAT) (fun _ => 0) in
  readLE m 22 2 = 324 /\ readLE m 24 2 = 4 /\ readLE m 26 4 = 2 /\
  (8 <= 4 -> forall j, 0 <= j < 4 -> m (30 + j) = nth (Z.to_nat j)
     (encodeOffsets CLASSIC_FORMAT [46; 49]) 0) /\
  (4 < 8 -> readLE m 30 4 = 38 /\
     forall j, 0 <= j < 8 -> m (38 + j) = nth (Z.to_nat j)
       (encodeOffsets CLASSIC_FORMAT [46; 49]) 0).
Proof.
  exact (writeIfd_entry sampleIfdBytes CLASSIC_FORMAT (fun _ => 0) 1 (or_introl eq_refl)
           sampleIfdBytes_wf sampleIfdBytes_sized ltac:(cbn; lia)
           ltac:(repeat constructor; cbn; lia) ltac:(cbn; lia)).
Defined.

Lemma readLE_ext (f g : Z -> Z) off n :
  (forall j, 0 <= j < Z.of_nat n -> f (off + j) = g (off + j)) ->
  readLE f off n = readLE g off n.
Proof.
  revert off. induction n as [| k IH]; intros off H; [reflexivity |].
  cbn [readLE]. rewrite <- (Z.add_0_r off) at 1. rewrite H by lia. rewrite Z.add_0_r.
  f_equal. f_equal. apply IH. intros j Hj. replace (off + 1 + j) with (off + (1 + j)) by ring.
  apply H. lia.
Qed.

Lemma offsetWrites_addrs fmt i xs :
  fmt = CLASSIC_FORMAT \/ fmt = BIGTIFF_FORMAT ->
  Forall (fun w => i * offsetSize fmt <= fst w < (i + Z.of_nat (List.length xs)) * offsetSize fmt)
    (offsetWrites fmt i xs).
Proof.
  intros Hfmt. revert i. induction xs as [| x r IH]; intros i; cbn [offsetWrites]; [constructor |].
  apply Forall_app. split.
  - destruct Hfmt as [-> | ->]; cbn [offsetSize CLASSIC_FORMAT BIGTIFF_FORMAT Z.eqb Pos.eqb];
      eapply Forall_impl; try (apply setUint32LE_addrs); try (apply setBigUint64_addrs);
      cbn beta; intros; cbn [List.length]; lia.
  - eapply Forall_impl; [| apply IH]. cbn beta. intros w Hw. cbn [List.length].
    assert (0 <= offsetSize fmt) by (destruct Hfmt as [-> | ->]; cbn; lia). nia.
Qed.

Lemma offsetWrites_read fmt xs :
  fmt = CLASSIC_FORMAT \/ fmt = BIGTIFF_FORMAT ->
  Forall (fun x => 0 <= x) xs ->
  forall i mem k, (k < List.length xs)%nat ->
  readLE (applyWrites (offsetWrites fmt i xs) mem) ((i + Z.of_nat k) * offsetSize fmt)
    (Z.to_nat (offsetSize fmt)) = nth k xs 0 mod 2 ^ (8 * offsetSize fmt).
Proof.
  intros Hfmt Hx. induction Hx as [| x r Hx0 Hr IH]; intros i mem k Hk; cbn [List.length] in Hk;
    [lia |].
  cbn [offsetWrites]. rewrite applyWrites_app. destruct k as [| k].
  - rewrite readLE_outside.
    + cbn [nth]. rewrite Z.add_0_r.
      destruct Hfmt as [-> | ->]; cbn [offsetSize CLASSIC_FORMAT BIGTIFF_FORMAT Z.eqb Pos.eqb].
      * apply setUint32LE_readmod.
      * apply setBigUint64_readmod. exact Hx0.
    + eapply Forall_impl; [| apply (offsetWrites_addrs fmt (i + 1) r Hfmt)]. cbn beta.
      intros w Hw. right.
      assert (0 <= offsetSize fmt) by (destruct Hfmt as [-> | ->]; cbn; lia).
      rewrite Z2Nat.id by lia. nia.
  - cbn [nth]. replace (i + Z.of_nat (S k)) with ((i + 1) + Z.of_nat k) by lia.
    apply IH. lia.
Qed.

Lemma nth_encodeOffsets fmt xs a :
  0 <= offsetSize fmt -> 0 <= a < Z.of_nat (List.length xs) * offsetSize fmt ->
  nth (Z.to_nat a) (encodeOffsets fmt xs) 0 =
  applyWrites (offsetWrites fmt 0 xs) (fun _ => 0) a.
Proof.
  intros Ho Ha. unfold encodeOffsets, zrange.
  rewrite map_map.
  set (f := fun x : nat => applyWrites (offsetWrites fmt 0 xs) (fun _ => 0) (Z.of_nat x)).
  rewrite (nth_indep _ 0 (f 0%nat)) by (rewrite length_map, length_seq; lia).
  rewrite map_nth, seq_nth by lia. unfold f. cbn [Nat.add]. rewrite Z2Nat.id by lia.
  reflexivity.
Qed.

Lemma encodeOffsets_read fmt xs k :
  fmt = CLASSIC_FORMAT \/ fmt = BIGTIFF_FORMAT ->
  Forall (fun x => 0 <= x) xs ->
  (k < List.length xs)%nat ->
  readLE (fun a => nth (Z.to_nat a) (encodeOffsets fmt xs) 0) (Z.of_nat k * offsetSize fmt)
    (Z.to_nat (offsetSize fmt)) = nth k xs 0 mod 2 ^ (8 * offsetSize fmt).
Proof.
  intros Hfmt Hx Hk.
  assert (Ho : 0 < offsetSize fmt) by (destruct Hfmt as [-> | ->]; cbn; lia).
  rewrite (readLE_ext _ (applyWrites (offsetWrites fmt 0 xs) (fun _ => 0))).
  - rewrite <- (Z.add_0_l (Z.of_nat k)) at 1. apply offsetWrites_read; assumption.
  - intros j Hj. rewrite Z2Nat.id in Hj by lia. apply nth_encodeOffsets; [lia |]. nia.
Qed.

(** The value bytes [writeIfd] writes for a TileOffsets or StripOffsets
    tag decode, [offsetSize] bytes little-endian per tile, to the tile
    offsets; those of a byte-count tag to the tile lengths; those of the
    SubIFDs tag, when there are SubIFDs, to the SubIFD offsets. *)
Theorem patchValueBytes_decode (fmt : TiffFormat) (p : PlacedIfdBytes) (t : ResolvedTagBytes)
  (k : nat) :
  fmt = CLASSIC_FORMAT \/ fmt = BIGTIFF_FORMAT ->
  0 <= pb_tileDataOffset p ->
  Forall (fun x => 0 <= x) (pb_subIfdOffsets p) ->
  let os := offsetSize fmt in
  let dec := fun bs => readLE (fun a => nth (Z.to_nat a) bs 0) (Z.of_nat k * os) (Z.to_nat os) in
  (isOffsetTag (rb_tag t) = true -> (k < List.length (pb_tiles p))%nat ->
     dec (patchValueBytes fmt p t) =
       nth k (tileOffsetsFrom (pb_tileDataOffset p) (pb_tiles p)) 0 mod 2 ^ (8 * os)) /\
  (isByteCountTag (rb_tag t) = true -> (k < List.length (pb_tiles p))%nat ->
     dec (patchValueBytes fmt p t) =
       Z.of_nat (List.length (nth k (pb_tiles p) [])) mod 2 ^ (8 * os)) /\
  (rb_tag t = TAG_SUB_IFDS -> (k < List.length (pb_subIfdOffsets p))%nat ->
     dec (patchValueBytes fmt p t) = nth k (pb_subIfdOffsets p) 0 mod 2 ^ (8 * os)).
Proof.
  intros Hfmt Htd Hsub os dec. unfold dec, os. split; [| split].
  - intros Ht Hk. unfold patchValueBytes. rewrite Ht.
    assert (Hb : isByteCountTag (rb_tag t) = false).
    { unfold isOffsetTag, isByteCountTag in *. apply orb_true_iff in Ht.
      destruct Ht as [Ht | Ht]; apply Z.eqb_eq in Ht; rewrite Ht; reflexivity. }
    assert (Hs : (rb_tag t =? TAG_SUB_IFDS) = false).
    { unfold isOffsetTag in Ht. apply orb_true_iff in Ht.
      destruct Ht as [Ht | Ht]; apply Z.eqb_eq in Ht; rewrite Ht; reflexivity. }
    rewrite Hb, Hs. cbn [andb].
    apply encodeOffsets_read; [exact Hfmt | | rewrite tileOffsetsFrom_length; exact Hk].
    apply Forall_forall. intros x Hx. apply In_nth with (d := 0) in Hx.
    destruct Hx as [k' [Hk' <-]]. rewrite tileOffsetsFrom_length in Hk'.
    pose proof (tileOffsetsFrom_ge (pb_tileDataOffset p) (pb_tiles p) k') as G. lia.
  - intros Ht Hk. unfold patchValueBytes. rewrite Ht.
    assert (Hs : (rb_tag t =? TAG_SUB_IFDS) = false).
    { unfold isByteCountTag in Ht. apply orb_true_iff in Ht.
      destruct Ht as [Ht | Ht]; apply Z.eqb_eq in Ht; rewrite Ht; reflexivity. }
    rewrite Hs. cbn [andb].
    rewrite encodeOffsets_read; [| exact Hfmt | | unfold tileLengths; rewrite length_map; exact Hk].
    + unfold tileLengths. set (f := fun t : list Z => Z.of_nat (List.length t)).
      rewrite (nth_indep _ 0 (f [])) by (rewrite length_map; exact Hk).
      rewrite map_nth. reflexivity.
    + unfold tileLengths. apply Forall_forall. intros x Hx. apply in_map_iff in Hx.
      destruct Hx as [y [<- _]]. lia.
  - intros Ht Hk. unfold patchValueBytes. rewrite Ht, Z.eqb_refl.
    assert (Hl : (0 <? Z.of_nat (List.length (pb_subIfdOffsets p))) = true) by (apply Z.ltb_lt; lia).
    rewrite Hl. cbn [andb]. apply encodeOffsets_read; assumption.
Qed.

Lemma patchValueBytes_decode_witness :
  isOffsetTag 324 = true /\ (1 < 2)%nat /\
  readLE (fun a => nth (Z.to_nat a)
    (patchValueBytes CLASSIC_FORMAT sampleIfdBytes (nth 1 (pb_tags sampleIfdBytes)
       (mkResolvedTagBytes 0 0 0 []))) 0) 4 4 = 49.
Proof.
  split; [reflexivity | split; [lia |]].
  destruct (patchValueBytes_decode CLASSIC_FORMAT sampleIfdBytes
              (nth 1 (pb_tags sampleIfdBytes) (mkResolvedTagBytes 0 0 0 [])) 1
              (or_introl eq_refl) ltac:(cbn; lia) (Forall_nil _)) as [H _].
  exact (H eq_refl ltac:(cbn; lia)).
Defined.
